(** * ChimeraX atomic-structure core: a shallow embedding and its properties

    The definitions below follow the C++ sources of the molecular data model
    (AtomicStructure.cpp, Atom.h, PBGroup.h, PBManager.h, CoordSet.h,
    Chain.h) and of the C interface to it (molc.cpp).  Pointers are modelled as natural numbers, [std::vector] as
    [list], [std::unordered_map] as [gmap], [std::set] of pointers as [gset],
    read in address order where the iteration order is observable.  C++
    exceptions and undefined behaviour are explicit results. *)

From Stdlib Require Import ZArith List String Ascii Bool Lia Sorted.
From Stdlib Require SpecFloat.
From stdpp Require Import gmap strings list sorting.

Local Open Scope Z_scope.
Local Set Warnings "-register-all,-clear-no-such-hyp".

(** Pointers.  [nullptr] is [0]; every allocated object has a non-zero
    address. *)
Abbreviation ptr := nat.
Definition nullptr : ptr := 0%nat.

(* ===================================================================== *)
(** * Session restore: the version guard (AtomicStructure::session_restore) *)
(* ===================================================================== *)

Module Session.

(** The Python objects handed to [session_restore]: only the distinction
    between a list (with its items) and anything else is inspected by the
    guards. *)
Inductive PyObject :=
| PyList (items : list PyObject)
| PyOther.

Definition PyList_Check (o : PyObject) : bool :=
  match o with PyList _ => true | PyOther => false end.

Definition PyList_Size (o : PyObject) : Z :=
  match o with PyList items => Z.of_nat (length items) | PyOther => -1 end.

(** What a call of [session_restore] can end in. *)
Inductive exn :=
| invalid_argument_new_session_data
    (* "Don't know how to restore new session data; update your version of
       ChimeraX" *)
| invalid_argument_first_arg     (* "first arg is not a 7-element list" *)
| invalid_argument_second_arg    (* "second arg is not a 7-element list" *)
| invalid_argument_third_arg     (* "third arg is not a 7-element list" *)
| stream_error (code : nat).     (* any exception of the stream decoding *)

Inductive outcome :=
| Thrown (e : exn)
| Restored.

Section Restore.

(** [CURRENT_SESSION_VERSION] is declared in AtomicStructure.h, which is not
    part of the sources at hand; it is a parameter of the development. *)
Variable CURRENT_SESSION_VERSION : Z.

(** The structure being restored into. *)
Variable AtomicStructure : Type.

(** Everything after the four guards: the decoding of the seven int, float
    and misc streams into atoms, bonds, coordinate sets, pseudobond groups,
    residues and chains.  The decoding assigns members and creates atoms as
    it goes, so it either throws, leaving the structure as far as it had
    been rebuilt, or returns the rebuilt structure. *)
Variable restore_streams :
  Z -> PyObject -> PyObject -> PyObject -> AtomicStructure ->
  (nat * AtomicStructure + AtomicStructure).

(** AtomicStructure::session_restore(version, ints, floats, misc).  The
    result pairs the outcome with the structure as it is when the call
    ends. *)
Definition session_restore (version : Z) (ints floats misc : PyObject)
    (s : AtomicStructure) : outcome * AtomicStructure :=
  if version >? CURRENT_SESSION_VERSION then
    (Thrown invalid_argument_new_session_data, s)
  else if negb (PyList_Check ints) || negb (PyList_Size ints =? 7) then
    (Thrown invalid_argument_first_arg, s)
  else if negb (PyList_Check floats) || negb (PyList_Size floats =? 7) then
    (Thrown invalid_argument_second_arg, s)
  else if negb (PyList_Check misc) || negb (PyList_Size misc =? 7) then
    (Thrown invalid_argument_third_arg, s)
  else
    match restore_streams version ints floats misc s with
    | inl (code, s') => (Thrown (stream_error code), s')
    | inr s' => (Restored, s')
    end.

(** Seven items, for concrete runs. *)
Definition seven_items : PyObject := PyList (repeat PyOther 7).

(** Three well-formed arguments: each a list of seven items. *)
Definition seven_lists (ints floats misc : PyObject) : Prop :=
  (PyList_Check ints = true /\ PyList_Size ints = 7) /\
  (PyList_Check floats = true /\ PyList_Size floats = 7) /\
  (PyList_Check misc = true /\ PyList_Size misc = 7).

End Restore.

End Session.

(* ===================================================================== *)
(** * The error budget of the sequence association (make_chains)          *)
(* ===================================================================== *)

Module Assoc.

(** [unsigned int] arithmetic: values are reduced modulo 2^32. *)
Definition UINT_MOD : Z := 2 ^ 32.
Definition to_uint (x : Z) : Z := x mod UINT_MOD.

(** [for (auto gap: ap.gaps) gap_sum += gap;] with [unsigned int gap_sum]. *)
Definition gap_sum_loop (gaps : list Z) : Z :=
  fold_left (fun gap_sum gap => to_uint (gap_sum + gap)) gaps 0.

(** Lines 735-741 of make_chains: the [max_errs] argument handed to
    [try_assoc].  [chain_size] is [chain->size()], [gaps] is [ap.gaps]. *)
Definition max_errs (chain_size : Z) (gaps : list Z) : Z :=
  let seq_len := to_uint chain_size in
  let gap_sum := gap_sum_loop gaps in
  Z.min (seq_len / 2) (Z.max (seq_len / 10) gap_sum).

(** The budget as the specification words it, over unbounded integers. *)
Definition total_gap (gaps : list Z) : Z := fold_right Z.add 0 gaps.

Definition spec_error_budget (seq_len : Z) (gaps : list Z) : Z :=
  Z.min (seq_len / 2) (Z.max (seq_len / 10) (total_gap gaps)).

End Assoc.

(* ===================================================================== *)
(** * Change tracking                                                     *)
(* ===================================================================== *)

Module ChangeTracker.

(** The entity classes that own a slot of the tracker. *)
Inductive EntityClass :=
| AtomClass | BondClass | PseudobondClass | ResidueClass | ChainClass
| StructureClass | PBGroupClass | CoordSetClass.

#[global] Instance EntityClass_eq_dec : EqDecision EntityClass.
Proof. solve_decision. Defined.

(** Modelled from the spec: ChangeTracker.h is not among the sources.  A
    slot holds the sets of created and of modified entity identities, the
    list of modification reasons (appended, not deduplicated) and the count
    of deleted entities. *)
Record Changes := {
  created : gset ptr;
  modified : gset ptr;
  reasons : list string;
  num_deleted : nat
}.

Definition no_changes : Changes :=
  {| created := ∅; modified := ∅; reasons := []; num_deleted := 0%nat |}.

(** Modelled from the spec: one slot per entity class. *)
Definition t := EntityClass -> Changes.

Definition REASON_NAME : string := "name".
Definition REASON_STRUCTURE_CATEGORY : string := "structure category".

(** Modelled from the spec: [add_modified(entity, reason)] puts the entity
    into the modified set of its class and appends the reason to the reason
    list of that class. *)
Definition add_modified (cls : EntityClass) (entity : ptr) (reason : string)
    (ct : t) : t :=
  fun c =>
    if decide (c = cls) then
      {| created := created (ct c);
         modified := {[entity]} ∪ modified (ct c);
         reasons := reasons (ct c) ++ [reason];
         num_deleted := num_deleted (ct c) |}
    else ct c.

End ChangeTracker.

(* ===================================================================== *)
(** * Atom.h: the inline setters                                          *)
(* ===================================================================== *)

Module AtomH.

Inductive StructCat := Unassigned | Main | Ligand | Ions | Solvent.

#[global] Instance StructCat_eq_dec : EqDecision StructCat.
Proof. solve_decision. Defined.

(** The members of [class Atom] that the functions below read or write.
    [_element] is the atomic number of the element. *)
Record Atom := {
  _name : string;
  _element : nat;
  _residue : ptr;
  _structure : ptr;
  _neighbors : list ptr;
  _structure_category : StructCat
}.

Definition with_name (a : Atom) (name : string) : Atom :=
  {| _name := name; _element := _element a; _residue := _residue a;
     _structure := _structure a; _neighbors := _neighbors a;
     _structure_category := _structure_category a |}.

Definition with_structure_category (a : Atom) (sc : StructCat) : Atom :=
  {| _name := _name a; _element := _element a; _residue := _residue a;
     _structure := _structure a; _neighbors := _neighbors a;
     _structure_category := sc |}.

(** Atom::set_name.  [this] is the address of the atom, [ct] the change
    tracker reached through [structure()->change_tracker()]. *)
Definition set_name (this : ptr) (name : string)
    (st : Atom * ChangeTracker.t) : Atom * ChangeTracker.t :=
  let '(a, ct) := st in
  if decide (name = _name a) then (a, ct)
  else
    let ct' := ChangeTracker.add_modified ChangeTracker.AtomClass this
                 ChangeTracker.REASON_NAME ct in
    (with_name a name, ct').

(** Atom::_set_structure_category. *)
Definition _set_structure_category (this : ptr) (sc : StructCat)
    (st : Atom * ChangeTracker.t) : Atom * ChangeTracker.t :=
  let '(a, ct) := st in
  if decide (sc = _structure_category a) then (a, ct)
  else
    let ct' := ChangeTracker.add_modified ChangeTracker.AtomClass this
                 ChangeTracker.REASON_STRUCTURE_CATEGORY ct in
    (with_structure_category a sc, ct').

End AtomH.

(* ===================================================================== *)
(** * Coordinate sets of a structure (new_coord_set, _coord_set_insert)   *)
(* ===================================================================== *)

Module CoordSets.

(** The members of [class CoordSet] that matter here: the id and the number
    of coordinates. *)
Record CoordSet := {
  _cs_id : Z;
  coords_size : nat
}.

(** The free store: live [CoordSet] objects by address.  A deleted object
    has no entry; an address without entry is dangling. *)
Abbreviation Heap := (gmap ptr CoordSet).

(** The part of an AtomicStructure these functions touch: the vector
    [_coord_sets] and the free store. *)
Record State := {
  _coord_sets : list ptr;
  heap : Heap
}.

(** [p->id()]; reading through a dangling pointer is undefined ([None]). *)
Definition id (h : Heap) (p : ptr) : option Z := _cs_id <$> h !! p.

(** The [for] loop of [_coord_set_insert]: [before] are the elements already
    passed (in order), [rest] those from the iterator [csi] on. *)
Fixpoint insert_loop (before rest : list ptr) (cs : ptr) (index : Z)
    (h : Heap) : option (list ptr * Heap) :=
  match rest with
  | [] =>
      (* the logic_error object is constructed but never thrown *)
      Some (before, h)
  | csi :: rest' =>
      match id h csi with
      | None => None
      | Some csi_id =>
          if index <? csi_id then
            Some (before ++ cs :: csi :: rest', h)
          else if index =? csi_id then
            (* delete *csi; coord_sets.insert(csi, cs); *)
            Some (before ++ cs :: csi :: rest', delete csi h)
          else insert_loop (before ++ [csi]) rest' cs index h
      end
  end.

(** _coord_set_insert(coord_sets, cs, index). *)
Definition _coord_set_insert (coord_sets : list ptr) (cs : ptr) (index : Z)
    (h : Heap) : option (list ptr * Heap) :=
  match last coord_sets with
  | None => Some (coord_sets ++ [cs], h)
  | Some back =>
      match id h back with
      | None => None
      | Some back_id =>
          if back_id <? index then Some (coord_sets ++ [cs], h)
          else insert_loop [] coord_sets cs index h
      end
  end.

(** AtomicStructure::new_coord_set(int index, int size).  [fresh] is the
    address that [new CoordSet(this, index, size)] returns. *)
Definition new_coord_set_sized (fresh : ptr) (index : Z) (size : nat)
    (st : State) : option (ptr * State) :=
  let h := <[fresh := {| _cs_id := index; coords_size := size |}]> (heap st) in
  match _coord_set_insert (_coord_sets st) fresh index h with
  | None => None
  | Some (l, h') => Some (fresh, {| _coord_sets := l; heap := h' |})
  end.

(** AtomicStructure::new_coord_set(int index). *)
Definition new_coord_set (fresh : ptr) (index : Z) (st : State)
    : option (ptr * State) :=
  match last (_coord_sets st) with
  | Some back =>
      match heap st !! back with
      | None => None
      | Some b => new_coord_set_sized fresh index (coords_size b) st
      end
  | None =>
      let h := <[fresh := {| _cs_id := index; coords_size := 0 |}]> (heap st) in
      match _coord_set_insert (_coord_sets st) fresh index h with
      | None => None
      | Some (l, h') => Some (fresh, {| _coord_sets := l; heap := h' |})
      end
  end.

(** AtomicStructure::new_coord_set(): id 0 for the first coordinate set,
    else the id of the last one. *)
Definition new_coord_set_default (fresh : ptr) (st : State)
    : option (ptr * State) :=
  match last (_coord_sets st) with
  | None => new_coord_set fresh 0 st
  | Some back =>
      match id (heap st) back with
      | None => None
      | Some back_id => new_coord_set fresh back_id st
      end
  end.

(** A pointer of the vector is dangling when the free store has no object
    at its address. *)
Definition dangling (st : State) (p : ptr) : Prop :=
  p ∈ _coord_sets st /\ heap st !! p = None.

(** [p] and [q] are live and the id of [p] is below the id of [q]. *)
Definition id_lt (h : Heap) (p q : ptr) : Prop :=
  exists i j, id h p = Some i /\ id h q = Some j /\ i < j.

(** The representation invariant of the vector: every pointer of the
    vector is live and the ids strictly increase along the vector (so no id
    occurs twice). *)
Definition well_formed (st : State) : Prop :=
  Forall (fun p => is_Some (heap st !! p)) (_coord_sets st) /\
  StronglySorted (id_lt (heap st)) (_coord_sets st).

End CoordSets.

(* ===================================================================== *)
(** * Pseudobond groups (PBManager.h, PBGroup.h)                          *)
(* ===================================================================== *)

Module BaseManager.
Definition GRP_NONE : Z := 0.
Definition GRP_NORMAL : Z := GRP_NONE + 1.
End BaseManager.

Module AS_PBManager.
Definition GRP_NONE : Z := BaseManager.GRP_NONE.
Definition GRP_NORMAL : Z := BaseManager.GRP_NORMAL.
Definition GRP_PER_CS : Z := GRP_NORMAL + 1.
End AS_PBManager.

(** What a call can end in: a value, a C++ exception, or undefined behaviour
    (here: a [static_cast] of [_proxied] to the class it is not). *)
Inductive result (A : Type) :=
| Value (a : A)
| Throws (what : string)
| Undefined.
Arguments Value {A} a.
Arguments Throws {A} what.
Arguments Undefined {A}.

Module PBGroup.

Record Rgba := { red : Z; green : Z; blue : Z; alpha : Z }.

(** [Group::Pseudobonds] is a [std::set<Pseudobond*>]. *)
Abbreviation Pseudobonds := (gset ptr).

(** The free store of Pseudobond objects: address to the two end atoms. *)
Abbreviation PBHeap := (gmap ptr (ptr * ptr)).

(** [new Pseudobond(a1, a2, group)]: an address no live Pseudobond has. *)
Definition new_Pseudobond (a1 a2 : ptr) (h : PBHeap) : ptr * PBHeap :=
  let pb := fresh (dom h) in (pb, <[pb := (a1, a2)]> h).

(** The data members of [class Group]. *)
Record Group := {
  _category : string;
  _default_color : Rgba;
  _default_halfbond : bool;
  _destruction_relevant : bool;
  _manager : ptr
}.

Definition Group_ctor (cat : string) (manager : ptr) : Group :=
  {| _category := cat;
     _default_color := {| red := 255; green := 255; blue := 0; alpha := 255 |};
     _default_halfbond := false;
     _destruction_relevant := true;
     _manager := manager |}.

End PBGroup.

Module StructurePBGroup.
Import PBGroup.

Record t := {
  base : Group;
  _structure : ptr;
  _pbonds : Pseudobonds
}.

Definition ctor (cat : string) (as_ : ptr) (manager : ptr) : t :=
  {| base := Group_ctor cat manager; _structure := as_; _pbonds := ∅ |}.

(** StructurePBGroup::pseudobonds() const. *)
Definition pseudobonds (g : t) : Pseudobonds := _pbonds g.

(** Modelled from the spec: StructurePBGroup::new_pseudobond is defined in
    PBGroup.cpp, which is not among the sources.  The group has one
    pseudobond set for the whole structure; the new pseudobond joins it. *)
Definition new_pseudobond (a1 a2 : ptr) (g : t) (h : PBHeap)
    : ptr * t * PBHeap :=
  let '(pb, h') := new_Pseudobond a1 a2 h in
  (pb, {| base := base g; _structure := _structure g;
          _pbonds := {[pb]} ∪ _pbonds g |}, h').

End StructurePBGroup.

Module CS_PBGroup.
Import PBGroup.

Record t := {
  base : Group;
  _structure : ptr;
  (* mutable std::unordered_map<const CoordSet*, Pseudobonds> *)
  _pbonds : gmap ptr Pseudobonds
}.

Definition ctor (cat : string) (as_ : ptr) (manager : ptr) : t :=
  {| base := Group_ctor cat manager; _structure := as_; _pbonds := ∅ |}.

Definition with_pbonds (g : t) (m : gmap ptr Pseudobonds) : t :=
  {| base := base g; _structure := _structure g; _pbonds := m |}.

(** CS_PBGroup::pseudobonds(const CoordSet* cs) const: [_pbonds[cs]] on the
    mutable map, which creates an empty entry for a key not yet present. *)
Definition pseudobonds_cs (cs : ptr) (g : t) : Pseudobonds * t :=
  match _pbonds g !! cs with
  | Some s => (s, g)
  | None => (∅, with_pbonds g (<[cs := ∅]> (_pbonds g)))
  end.

(** CS_PBGroup::remove_cs. *)
Definition remove_cs (cs : ptr) (g : t) : t :=
  with_pbonds g (delete cs (_pbonds g)).

(** Modelled from the spec: CS_PBGroup::pseudobonds() is defined in
    PBGroup.cpp, which is not among the sources.  It returns the subset of
    the coordinate set that is active in the structure. *)
Definition pseudobonds (active_coord_set : ptr) (g : t) : Pseudobonds * t :=
  pseudobonds_cs active_coord_set g.

(** Modelled from the spec: CS_PBGroup::new_pseudobond(a1, a2, cs) is defined
    in PBGroup.cpp, which is not among the sources.  The new pseudobond is
    scoped to the supplied coordinate set. *)
Definition new_pseudobond_cs (a1 a2 : ptr) (cs : ptr) (g : t) (h : PBHeap)
    : ptr * t * PBHeap :=
  let '(pb, h') := new_Pseudobond a1 a2 h in
  (pb, with_pbonds g (<[cs := {[pb]} ∪ default ∅ (_pbonds g !! cs)]> (_pbonds g)),
   h').

(** Modelled from the spec: CS_PBGroup::new_pseudobond(a1, a2) scopes the
    new pseudobond to the coordinate set active at creation time. *)
Definition new_pseudobond (active_coord_set : ptr) (a1 a2 : ptr) (g : t)
    (h : PBHeap) : ptr * t * PBHeap :=
  new_pseudobond_cs a1 a2 active_coord_set g h.

(** Every pseudobond of a per-coordinate-set group is a live object. *)
Definition live_pseudobonds (g : t) (h : PBHeap) : Prop :=
  forall cs s, _pbonds g !! cs = Some s -> s ⊆ dom h.

End CS_PBGroup.

Module Proxy_PBGroup.
Import PBGroup.

(** The object behind [void* _proxied]. *)
Inductive Proxied :=
| IsStructurePBGroup (g : StructurePBGroup.t)
| IsCS_PBGroup (g : CS_PBGroup.t).

Record t := {
  _group_type : Z;
  _proxied : Proxied
}.

(** Proxy_PBGroup::init, called by the three constructors. *)
Definition init (grp_type : Z) (cat : string) (as_ manager : ptr) : t :=
  {| _group_type := grp_type;
     _proxied :=
       if grp_type =? AS_PBManager.GRP_NORMAL
       then IsStructurePBGroup (StructurePBGroup.ctor cat as_ manager)
       else IsCS_PBGroup (CS_PBGroup.ctor cat as_ manager) |}.

(** [static_cast<StructurePBGroup*>(_proxied)] and
    [static_cast<CS_PBGroup*>(_proxied)]: defined only when the object is of
    that class. *)
Definition as_StructurePBGroup (p : t) : option StructurePBGroup.t :=
  match _proxied p with IsStructurePBGroup g => Some g | _ => None end.

Definition as_CS_PBGroup (p : t) : option CS_PBGroup.t :=
  match _proxied p with IsCS_PBGroup g => Some g | _ => None end.

Definition set_proxied (p : t) (x : Proxied) : t :=
  {| _group_type := _group_type p; _proxied := x |}.

(** The tag agrees with the class of the proxied object, as [init] makes
    it; nothing assigns [_group_type] afterwards. *)
Definition consistent (p : t) : Prop :=
  match _proxied p with
  | IsStructurePBGroup _ => _group_type p = AS_PBManager.GRP_NORMAL
  | IsCS_PBGroup _ => _group_type p <> AS_PBManager.GRP_NORMAL
  end.

(** ** The state-changing members used for creating and querying *)

(** Proxy_PBGroup::new_pseudobond(Atom* a1, Atom* a2). *)
Definition new_pseudobond (active_coord_set : ptr) (a1 a2 : ptr) (p : t)
    (h : PBHeap) : result (ptr * t * PBHeap) :=
  if _group_type p =? AS_PBManager.GRP_NORMAL then
    match as_StructurePBGroup p with
    | Some g =>
        let '(pb, g', h') := StructurePBGroup.new_pseudobond a1 a2 g h in
        Value (pb, set_proxied p (IsStructurePBGroup g'), h')
    | None => Undefined
    end
  else
    match as_CS_PBGroup p with
    | Some g =>
        let '(pb, g', h') := CS_PBGroup.new_pseudobond active_coord_set a1 a2 g h in
        Value (pb, set_proxied p (IsCS_PBGroup g'), h')
    | None => Undefined
    end.

(** Proxy_PBGroup::new_pseudobond(Atom* a1, Atom* a2, CoordSet* cs). *)
Definition new_pseudobond_cs (a1 a2 : ptr) (cs : ptr) (p : t) (h : PBHeap)
    : result (ptr * t * PBHeap) :=
  if _group_type p =? AS_PBManager.GRP_NORMAL then
    Throws "Not a per-coordset pseudobond group"
  else
    match as_CS_PBGroup p with
    | Some g =>
        let '(pb, g', h') := CS_PBGroup.new_pseudobond_cs a1 a2 cs g h in
        Value (pb, set_proxied p (IsCS_PBGroup g'), h')
    | None => Undefined
    end.

(** Proxy_PBGroup::pseudobonds() const. *)
Definition pseudobonds (active_coord_set : ptr) (p : t)
    : result (Pseudobonds * t) :=
  if _group_type p =? AS_PBManager.GRP_NORMAL then
    match as_StructurePBGroup p with
    | Some g => Value (StructurePBGroup.pseudobonds g, p)
    | None => Undefined
    end
  else
    match as_CS_PBGroup p with
    | Some g =>
        let '(s, g') := CS_PBGroup.pseudobonds active_coord_set g in
        Value (s, set_proxied p (IsCS_PBGroup g'))
    | None => Undefined
    end.

(** Proxy_PBGroup::pseudobonds(const CoordSet* cs) const. *)
Definition pseudobonds_cs (cs : ptr) (p : t) : result (Pseudobonds * t) :=
  if _group_type p =? AS_PBManager.GRP_NORMAL then
    Throws "Not a per-coordset pseudobond group"
  else
    match as_CS_PBGroup p with
    | Some g =>
        let '(s, g') := CS_PBGroup.pseudobonds_cs cs g in
        Value (s, set_proxied p (IsCS_PBGroup g'))
    | None => Undefined
    end.

(** ** Which implementation a proxy member calls

    For the members whose implementations live in PBGroup.cpp or in the
    GraphicsContainer base, the control flow of the proxy member is recorded
    as the sequence of implementation calls it makes. *)

Inductive Class := StructurePBGroup | CS_PBGroup.

Inductive Member :=
| m_category | m_check_destroyed_atoms | m_clear | m_get_default_color
| m_get_default_halfbond | m_session_num_ints | m_session_num_floats
| m_session_restore | m_session_save | m_set_default_color
| m_set_default_halfbond | m_structure | m_remove_cs
| m_gc_clear | m_get_gc_color | m_get_gc_select | m_get_gc_shape
| m_set_gc_color | m_set_gc_select | m_set_gc_shape.

Inductive Call := Invoke (c : Class) (m : Member).

Section Dispatch.
Variable group_type : Z.

Definition is_normal : bool := group_type =? AS_PBManager.GRP_NORMAL.

Definition category : list Call :=
  if is_normal then [Invoke StructurePBGroup m_category]
  else [Invoke CS_PBGroup m_category].

Definition check_destroyed_atoms : list Call :=
  (if is_normal then [Invoke StructurePBGroup m_check_destroyed_atoms] else [])
  ++ [Invoke CS_PBGroup m_check_destroyed_atoms].

Definition clear : list Call :=
  (if is_normal then [Invoke StructurePBGroup m_clear] else [])
  ++ [Invoke CS_PBGroup m_clear].

Definition remove_cs : list Call :=
  if group_type =? AS_PBManager.GRP_PER_CS
  then [Invoke CS_PBGroup m_remove_cs] else [].

Definition get_default_color : list Call :=
  if is_normal then [Invoke StructurePBGroup m_get_default_color]
  else [Invoke CS_PBGroup m_get_default_color].

Definition get_default_halfbond : list Call :=
  if is_normal then [Invoke StructurePBGroup m_get_default_halfbond]
  else [Invoke CS_PBGroup m_get_default_halfbond].

Definition session_num_ints : list Call :=
  if is_normal then [Invoke StructurePBGroup m_session_num_ints]
  else [Invoke CS_PBGroup m_session_num_ints].

Definition session_num_floats : list Call :=
  if is_normal then [Invoke StructurePBGroup m_session_num_floats]
  else [Invoke CS_PBGroup m_session_num_floats].

Definition session_restore : list Call :=
  if is_normal then [Invoke StructurePBGroup m_session_restore]
  else [Invoke CS_PBGroup m_session_restore].

Definition session_save : list Call :=
  if is_normal then [Invoke StructurePBGroup m_session_save]
  else [Invoke CS_PBGroup m_session_save].

Definition set_default_color : list Call :=
  (if is_normal then [Invoke StructurePBGroup m_set_default_color] else [])
  ++ [Invoke CS_PBGroup m_set_default_color].

Definition set_default_halfbond : list Call :=
  (if is_normal then [Invoke StructurePBGroup m_set_default_halfbond] else [])
  ++ [Invoke CS_PBGroup m_set_default_halfbond].

Definition structure : list Call :=
  if is_normal then [Invoke StructurePBGroup m_structure]
  else [Invoke CS_PBGroup m_structure].

Definition gc_clear : list Call :=
  (if is_normal then [Invoke StructurePBGroup m_gc_clear] else [])
  ++ [Invoke CS_PBGroup m_gc_clear].

Definition get_gc_color : list Call :=
  if is_normal then [Invoke StructurePBGroup m_get_gc_color]
  else [Invoke CS_PBGroup m_get_gc_color].

Definition get_gc_select : list Call :=
  if is_normal then [Invoke StructurePBGroup m_get_gc_select]
  else [Invoke CS_PBGroup m_get_gc_select].

Definition get_gc_shape : list Call :=
  if is_normal then [Invoke StructurePBGroup m_get_gc_shape]
  else [Invoke CS_PBGroup m_get_gc_shape].

Definition set_gc_color : list Call :=
  (if is_normal then [Invoke StructurePBGroup m_set_gc_color] else [])
  ++ [Invoke CS_PBGroup m_set_gc_color].

Definition set_gc_select : list Call :=
  (if is_normal then [Invoke StructurePBGroup m_set_gc_select] else [])
  ++ [Invoke CS_PBGroup m_set_gc_select].

Definition set_gc_shape : list Call :=
  (if is_normal then [Invoke StructurePBGroup m_set_gc_shape] else [])
  ++ [Invoke CS_PBGroup m_set_gc_shape].

End Dispatch.

(** The class the tag selects. *)
Definition selected (group_type : Z) : Class :=
  if group_type =? AS_PBManager.GRP_NORMAL then StructurePBGroup else CS_PBGroup.

(** The property the proxy is meant to have: a member call reaches exactly
    one implementation, the selected one. *)
Definition exclusive (calls : Z -> list Call) (m : Member) : Prop :=
  forall group_type, calls group_type = [Invoke (selected group_type) m].

End Proxy_PBGroup.

(* ===================================================================== *)
(** * The structure graph: deletion (AtomicStructure.cpp)                 *)
(* ===================================================================== *)

Module Graph.
Import AtomH.

(** The members of [class Residue] that deletion reads or writes. *)
Record Residue := {
  r_name : string;
  r_atoms : list ptr;
  r_chain : ptr
}.

(** The residue slots of a [Chain]; [nullptr] marks a missing residue. *)
Record Chain := {
  c_residues : list ptr
}.

(** The members of an AtomicStructure (with its Graph base) that deletion
    reads or writes.  A bond is kept as the pair of its end atoms. *)
Record AtomicStructure := {
  _atoms : list ptr;
  _bonds : list (ptr * ptr);
  _residues : list ptr;
  _chains : option (list ptr);
  _coord_sets : list ptr;
  _gc_ribbon : bool
}.

(** What the logger receives: the arguments of the two error messages. *)
Inductive LogEntry :=
| error_atom_not_in_structure (residue : ptr) (atom_name : string)
    (* "Atom <residue> <name> does not belong to the structure that it's
       being deleted from." *)
| error_residue_not_in_structure (residue : ptr).
    (* "Residue <residue> does not belong to the structure that it's being
       deleted from." *)

(** The free store with the live objects of every class, and the logger. *)
Record World := {
  structures : gmap ptr AtomicStructure;
  atoms : gmap ptr Atom;
  residues : gmap ptr Residue;
  chains : gmap ptr Chain;
  coord_sets : gset ptr;
  log : list LogEntry
}.

Definition set_structures (w : World) x : World :=
  {| structures := x; atoms := atoms w; residues := residues w;
     chains := chains w; coord_sets := coord_sets w; log := log w |}.
Definition set_atoms (w : World) x : World :=
  {| structures := structures w; atoms := x; residues := residues w;
     chains := chains w; coord_sets := coord_sets w; log := log w |}.
Definition set_residues (w : World) x : World :=
  {| structures := structures w; atoms := atoms w; residues := x;
     chains := chains w; coord_sets := coord_sets w; log := log w |}.
Definition set_chains (w : World) x : World :=
  {| structures := structures w; atoms := atoms w; residues := residues w;
     chains := x; coord_sets := coord_sets w; log := log w |}.
Definition set_coord_sets (w : World) x : World :=
  {| structures := structures w; atoms := atoms w; residues := residues w;
     chains := chains w; coord_sets := x; log := log w |}.
Definition logger_error (e : LogEntry) (w : World) : World :=
  {| structures := structures w; atoms := atoms w; residues := residues w;
     chains := chains w; coord_sets := coord_sets w; log := log w ++ [e] |}.

(** Dereferencing: undefined when no live object is at the address. *)
Definition deref {A} (m : gmap ptr A) (p : ptr) : result A :=
  match m !! p with Some x => Value x | None => Undefined end.

#[global] Instance result_bind : MBind result := fun A B f x =>
  match x with
  | Value a => f a
  | Throws what => Throws what
  | Undefined => Undefined
  end.

Definition update_structure (this : ptr) (f : AtomicStructure -> AtomicStructure)
    (w : World) : World :=
  set_structures w (alter f this (structures w)).

Definition remove_ptr (p : ptr) (l : list ptr) : list ptr :=
  filter (fun q => q ≠ p) l.

(** ** Destructors *)

(** Modelled from the spec: Chain::clear_residues (Chain.cpp is not among
    the sources) drops the chain's references to its residues. *)
Definition clear_residues (ch : ptr) (w : World) : World :=
  set_chains w (alter (fun _ => {| c_residues := [] |}) ch (chains w)).

(** Modelled from the spec: the destructor of the Graph base (Graph.tcc is
    not among the sources); the structure owns its atoms and bonds and
    deletes them with itself. *)
Definition Graph_destructor (s : AtomicStructure) (w : World) : World :=
  set_atoms w (foldr delete (atoms w) (_atoms s)).

(** AtomicStructure::~AtomicStructure, followed by the destructor of the
    base.  The chains are emptied but not deleted; residues and coordinate
    sets are deleted. *)
Definition destroy (this : ptr) (s : AtomicStructure) (w : World) : World :=
  let w1 :=
    match _chains s with
    | Some chs => foldr clear_residues w chs
    | None => w
    end in
  let w2 := set_residues w1 (foldr delete (residues w1) (_residues s)) in
  let w3 := set_coord_sets w2 (coord_sets w2 ∖ list_to_set (_coord_sets s)) in
  let w4 := Graph_destructor s w3 in
  set_structures w4 (delete this (structures w4)).

(** [delete this;] *)
Definition delete_this (this : ptr) (w : World) : result World :=
  s ← deref (structures w) this;
  Value (destroy this s w).

(** ** Helpers of the Graph base and of Residue and Chain *)

(** Modelled from the spec: Residue::remove_atom (Residue.cpp, not among the
    sources) takes the atom out of the residue's atom list. *)
Definition remove_atom (r : ptr) (a : ptr) (w : World) : World :=
  set_residues w
    (alter (fun res => {| r_name := r_name res;
                          r_atoms := remove_ptr a (r_atoms res);
                          r_chain := r_chain res |}) r (residues w)).

(** Modelled from the spec: Graph::_delete_atom (Graph.tcc, not among the
    sources) takes the atom out of the structure's atom list and out of its
    residue, drops the bonds that end in it, and deletes the object. *)
Definition _delete_atom (this : ptr) (a : ptr) (w : World) : result World :=
  atom ← deref (atoms w) a;
  let w0 := remove_atom (_residue atom) a w in
  let w1 := update_structure this
              (fun s => {| _atoms := remove_ptr a (_atoms s);
                           _bonds := filter (fun b => b.1 ≠ a ∧ b.2 ≠ a) (_bonds s);
                           _residues := _residues s; _chains := _chains s;
                           _coord_sets := _coord_sets s;
                           _gc_ribbon := _gc_ribbon s |}) w0 in
  Value (set_atoms w1 (delete a (atoms w1))).

(** Modelled from the spec: Graph::delete_nodes does the same for a set of
    atoms. *)
Definition delete_nodes (this : ptr) (dels : gset ptr) (w : World) : World :=
  let w1 := update_structure this
              (fun s => {| _atoms := filter (fun a => a ∉ dels) (_atoms s);
                           _bonds := filter (fun b => (b.1 ∉ dels) ∧ (b.2 ∉ dels)) (_bonds s);
                           _residues := _residues s; _chains := _chains s;
                           _coord_sets := _coord_sets s;
                           _gc_ribbon := _gc_ribbon s |}) w in
  set_atoms w1 (filter (fun kv => kv.1 ∉ dels) (atoms w1)).

(** Modelled from the spec: Chain::remove_residue (Chain.cpp, not among the
    sources) unlinks the residue from its chain, leaving an empty slot. *)
Definition remove_residue (ch : ptr) (r : ptr) (w : World) : World :=
  set_chains w
    (alter (fun c => {| c_residues :=
                          (fun q => if decide (q = r) then nullptr else q)
                            <$> c_residues c |}) ch (chains w)).

(** GraphicsContainer::set_gc_ribbon (declared outside the sources): raises
    the flag that the ribbon graphics need an update. *)
Definition set_gc_ribbon (this : ptr) (w : World) : World :=
  update_structure this
    (fun s => {| _atoms := _atoms s; _bonds := _bonds s;
                 _residues := _residues s; _chains := _chains s;
                 _coord_sets := _coord_sets s; _gc_ribbon := true |}) w.

(** [std::find(v.begin(), v.end(), p)]: the index of the first occurrence,
    [None] for [v.end()]. *)
Fixpoint find_index (p : ptr) (v : list ptr) : option nat :=
  match v with
  | [] => None
  | q :: v' => if decide (q = p) then Some 0%nat else S <$> find_index p v'
  end.

(** ** The deletion members of AtomicStructure *)

Fixpoint delete_each (this : ptr) (l : list ptr) (w : World) : result World :=
  match l with
  | [] => Value w
  | a :: l' => (w' ← _delete_atom this a w; delete_each this l' w')
  end.

(** AtomicStructure::_delete_residue(r, ri); [ri] is the iterator into
    [_residues], [None] standing for [end()]. *)
Definition _delete_residue (this : ptr) (r : ptr) (ri : option nat) (w : World)
    : result World :=
  res ← deref (residues w) r;
  let w1 := if decide (r_chain res ≠ nullptr)
            then set_gc_ribbon this (remove_residue (r_chain res) r w)
            else w in
  w2 ← delete_each this (r_atoms res) w1;
  match ri with
  | None => Undefined       (* erase(end()) *)
  | Some i =>
      let w3 := update_structure this
                  (fun s => {| _atoms := _atoms s; _bonds := _bonds s;
                               _residues := delete i (_residues s);
                               _chains := _chains s;
                               _coord_sets := _coord_sets s;
                               _gc_ribbon := _gc_ribbon s |}) w2 in
      Value (set_residues w3 (delete r (residues w3)))
  end.

(** AtomicStructure::delete_atom(Atom* a). *)
Definition delete_atom (this : ptr) (a : ptr) (w : World) : result World :=
  atom ← deref (atoms w) a;
  if decide (_structure atom ≠ this) then
    _ ← deref (residues w) (_residue atom);    (* a->residue()->str() *)
    Value (logger_error
             (error_atom_not_in_structure (_residue atom) (_name atom)) w)
  else
    s ← deref (structures w) this;
    if decide (length (_atoms s) = 1%nat) then delete_this this w
    else
      res ← deref (residues w) (_residue atom);
      if decide (length (r_atoms res) = 1%nat) then
        _delete_residue this (_residue atom)
          (find_index (_residue atom) (_residues s)) w
      else _delete_atom this a w.

(** AtomicStructure::delete_residue(Residue* r). *)
Definition delete_residue (this : ptr) (r : ptr) (w : World) : result World :=
  s ← deref (structures w) this;
  match find_index r (_residues s) with
  | None =>
      (_ ← deref (residues w) r;               (* r->str() *)
       Value (logger_error (error_residue_not_in_structure r) w))
  | Some i =>
      if decide (length (_residues s) = 1%nat) then delete_this this w
      else _delete_residue this r (Some i) w
  end.

(** The loop over [res_del_atoms] in delete_atoms: a residue all of whose
    atoms go is noted for removal, otherwise the atoms are taken out of
    it.  [groups] pairs each residue with its atoms to delete. *)
Fixpoint split_residues (groups : list (ptr * list ptr)) (w : World)
    : result (gset ptr * World) :=
  match groups with
  | [] => Value (∅, w)
  | (r, dels) :: groups' =>
      (res ← deref (residues w) r;
       if decide (length dels = length (r_atoms res)) then
         '(rm, w') ← split_residues groups' w;
         Value ({[r]} ∪ rm, w')
       else
         split_residues groups' (foldl (fun w a => remove_atom r a w) w dels))
  end.

(** [res_del_atoms[a->residue()].push_back(a)] over the atoms of the set in
    address order; the map itself is kept in address order of the
    residues. *)
Fixpoint map_push_back (r : ptr) (a : ptr) (m : list (ptr * list ptr))
    : list (ptr * list ptr) :=
  match m with
  | [] => [(r, [a])]
  | (r', l) :: m' =>
      if decide (r' = r) then (r', l ++ [a]) :: m'
      else if decide (r < r')%nat then (r, [a]) :: (r', l) :: m'
      else (r', l) :: map_push_back r a m'
  end.

Fixpoint group_by_residue (dels : list ptr) (m : list (ptr * list ptr))
    (w : World) : result (list (ptr * list ptr)) :=
  match dels with
  | [] => Value m
  | a :: dels' =>
      (atom ← deref (atoms w) a;
       group_by_residue dels' (map_push_back (_residue atom) a m) w)
  end.

(** The elements of a [std::set] of pointers in iteration order. *)
Definition in_address_order (s : gset ptr) : list ptr :=
  merge_sort le (elements s).

(** AtomicStructure::delete_atoms(std::vector<Atom*> del_atoms). *)
Definition delete_atoms (this : ptr) (del_atoms : list ptr) (w : World)
    : result World :=
  let del_atoms_set : gset ptr := list_to_set del_atoms in
  s ← deref (structures w) this;
  if decide (size del_atoms_set = length (_atoms s)) then delete_this this w
  else
    res_del_atoms ← group_by_residue (in_address_order del_atoms_set) [] w;
    '(res_removals, w1) ← split_residues res_del_atoms w;
    let w2 :=
      if decide (0 < size res_removals)%nat then
        let w' := update_structure this
                    (fun s => {| _atoms := _atoms s; _bonds := _bonds s;
                                 _residues := filter (fun r => r ∉ res_removals)
                                                (_residues s);
                                 _chains := _chains s;
                                 _coord_sets := _coord_sets s;
                                 _gc_ribbon := _gc_ribbon s |}) w1 in
        set_residues w' (filter (fun kv => kv.1 ∉ res_removals) (residues w'))
      else w1 in
    Value (delete_nodes this (list_to_set del_atoms) w2).

(** The structure at [this] and everything it owns are gone. *)
Definition destroyed (this : ptr) (s : AtomicStructure) (w : World) : Prop :=
  structures w !! this = None
  /\ (forall a, a ∈ _atoms s -> atoms w !! a = None)
  /\ (forall r, r ∈ _residues s -> residues w !! r = None).

(** Everything but the logger's output is as before. *)
Definition same_state (w w' : World) : Prop :=
  structures w' = structures w /\ atoms w' = atoms w
  /\ residues w' = residues w /\ chains w' = chains w
  /\ coord_sets w' = coord_sets w.

(** A small world for concrete runs: structure 1 owns atom 10 in residue
    20; structure 2 owns atoms 11 and 12 in residue 21. *)
Definition example_atom (r s : ptr) : Atom :=
  {| _name := "O"; _element := 8; _residue := r; _structure := s;
     _neighbors := []; _structure_category := Unassigned |}.

Definition example_structure (l : list ptr) (r : ptr) : AtomicStructure :=
  {| _atoms := l; _bonds := []; _residues := [r]; _chains := None;
     _coord_sets := []; _gc_ribbon := false |}.

Definition example_world : World :=
  {| structures := {[ 1%nat := example_structure [10%nat] 20%nat;
                      2%nat := example_structure [11%nat; 12%nat] 21%nat ]};
     atoms := {[ 10%nat := example_atom 20 1; 11%nat := example_atom 21 2;
                 12%nat := example_atom 21 2 ]};
     residues := {[ 20%nat := {| r_name := "HOH"; r_atoms := [10%nat];
                                 r_chain := nullptr |};
                    21%nat := {| r_name := "HOH"; r_atoms := [11%nat; 12%nat];
                                 r_chain := nullptr |} ]};
     chains := ∅; coord_sets := ∅; log := [] |}.

End Graph.

(* ===================================================================== *)
(** * Bonded groups and structure categories                              *)
(* ===================================================================== *)

Module StructCats.
Import AtomH Graph.

(** ** Reading the object graph

    The algorithms below only read the graph.  A read through a pointer at
    which no object lives (undefined in C++) yields the null pointer, the
    empty vector, the empty name or element 0 here; on a structure whose
    pointers are all live the reads are those of the program. *)

Definition element_number (w : World) (a : ptr) : nat :=
  match atoms w !! a with Some x => _element x | None => 0%nat end.
Definition residue_of (w : World) (a : ptr) : ptr :=
  match atoms w !! a with Some x => _residue x | None => nullptr end.
Definition neighbors (w : World) (a : ptr) : list ptr :=
  match atoms w !! a with Some x => _neighbors x | None => [] end.
Definition res_name (w : World) (r : ptr) : string :=
  match residues w !! r with Some x => r_name x | None => "" end.
Definition res_atoms (w : World) (r : ptr) : list ptr :=
  match residues w !! r with Some x => r_atoms x | None => [] end.
Definition res_chain (w : World) (r : ptr) : ptr :=
  match residues w !! r with Some x => r_chain x | None => nullptr end.
Definition chain_residues (w : World) (c : ptr) : list ptr :=
  match chains w !! c with Some x => c_residues x | None => [] end.

(** Iteration over a [std::set] or the keys of a [std::map] of strings. *)
Definition string_le (a b : string) : Prop := String.leb a b = true.
#[global] Instance string_le_dec a b : Decision (string_le a b).
Proof. unfold string_le. apply _. Defined.

Definition in_string_order (s : gset string) : list string :=
  merge_sort string_le (elements s).

(** ** AtomicStructure::bonded_groups *)

(** [pb_connections[a]] after the loop over the pseudobonds of the
    "missing structure" group. *)
Definition pb_connections (pbs : list (ptr * ptr)) (a : ptr) : list ptr :=
  flat_map (fun pb => (if decide (pb.1 = a) then [pb.2] else [])
                      ++ (if decide (pb.2 = a) then [pb.1] else [])) pbs.

(** [pending.insert(x)] on a [std::set<Atom*>] kept as the list of its
    elements in address order. *)
Fixpoint set_insert (x : ptr) (l : list ptr) : list ptr :=
  match l with
  | [] => [x]
  | y :: l' =>
      if decide (x < y)%nat then x :: l
      else if decide (x = y) then l
      else y :: set_insert x l'
  end.

Section Groups.
Variable w : World.
Variable conn : ptr -> list ptr.

(** [while (pending.size() > 0)]: the result is [seen] and the group
    [bonded]; [None] when the fuel is used up. *)
Fixpoint expand (fuel : nat) (pending : list ptr) (seen : gset ptr)
    (bonded : list ptr) : option (gset ptr * list ptr) :=
  match pending with
  | [] => Some (seen, bonded)
  | pa :: rest =>
      match fuel with
      | O => None
      | S fuel' =>
          if decide (pa ∈ seen) then expand fuel' rest seen bonded
          else
            let pending1 := foldl (fun p c => set_insert c p) rest (conn pa) in
            let pending2 := foldl (fun p nb => set_insert nb p) pending1
                              (neighbors w pa) in
            expand fuel' pending2 ({[pa]} ∪ seen) (bonded ++ [pa])
      end
  end.

(** [for (auto a: atoms())]. *)
Fixpoint groups_loop (fuel : nat) (l : list ptr) (seen : gset ptr)
    (groups : list (list ptr)) : option (list (list ptr)) :=
  match l with
  | [] => Some groups
  | a :: l' =>
      if decide (a ∈ seen) then groups_loop fuel l' seen groups
      else
        match expand fuel [a] seen [] with
        | None => None
        | Some (seen', bonded) => groups_loop fuel l' seen' (groups ++ [bonded])
        end
  end.

End Groups.

(** AtomicStructure::bonded_groups(groups, consider_missing_structure).
    [pbg] is the "missing structure" pseudobond group as [get_group] with
    GRP_NONE returns it: [None] for [nullptr], else the end atoms of its
    pseudobonds. *)
Definition bonded_groups (fuel : nat) (w : World) (s : AtomicStructure)
    (pbg : option (list (ptr * ptr))) (consider_missing_structure : bool)
    : option (list (list ptr)) :=
  let conn :=
    if consider_missing_structure then
      match pbg with
      | Some pbs => pb_connections pbs
      | None => fun _ => []
      end
    else fun _ => [] in
  groups_loop w conn fuel (_atoms s) ∅ [].

(** Every pointer that can get into [pending]: the atoms of the structure,
    the neighbours of the live atoms, the ends of the pseudobonds. *)
Definition universe (w : World) (s : AtomicStructure)
    (pbg : option (list (ptr * ptr))) : gset ptr :=
  list_to_set (_atoms s)
  ∪ list_to_set (concat ((fun kv => _neighbors kv.2) <$> map_to_list (atoms w)))
  ∪ list_to_set (concat ((fun pb => [pb.1; pb.2]) <$> default [] pbg)).

(** Fuel that is enough for every [while] loop of [bonded_groups]. *)
Definition enough_fuel (w : World) (s : AtomicStructure)
    (pbg : option (list (ptr * ptr))) : nat :=
  (S (size (universe w s pbg)) * S (size (universe w s pbg)))%nat.

(** ** AtomicStructure::_compute_structure_cats *)

(** The [_structure_category] members of the atoms, by atom address.  (The
    change-tracker side of Atom::_set_structure_category is in [AtomH].) *)
Abbreviation Cats := (gmap ptr StructCat).

Definition assign (l : list ptr) (sc : StructCat) (cats : Cats) : Cats :=
  foldl (fun m a => <[a := sc]> m) cats l.

Section Categories.

(** [Residue::std_solvent_names] and [Element::is_noble_gas] are defined
    outside the sources at hand; they are parameters. *)
Variable std_solvent_names : list string.
Variable is_noble_gas : nat -> bool.

Variable w : World.

(** [group_lookup] and [atom_to_root]. *)
Definition root_of (grp : list ptr) : ptr := hd nullptr grp.

Definition make_group_lookup (bonded : list (list ptr)) : gmap ptr (list ptr) :=
  foldl (fun m grp => <[root_of grp := grp]> m) ∅ bonded.

Definition make_atom_to_root (bonded : list (list ptr)) : gmap ptr ptr :=
  foldl (fun m grp => foldl (fun m' a => <[a := root_of grp]> m') m grp) ∅ bonded.

Section WithGroups.
Variable group_lookup : gmap ptr (list ptr).
Variable atom_to_root : gmap ptr ptr.

Definition group (root : ptr) : list ptr := default [] (group_lookup !! root).
Definition root_at (a : ptr) : ptr := default nullptr (atom_to_root !! a).

Definition assign_groups (roots : list ptr) (sc : StructCat) (cats : Cats) : Cats :=
  foldl (fun m root => assign (group root) sc m) cats roots.

(** The two tests of the segregation loop. *)
Definition is_small_solvent (root : ptr) : bool :=
  let grp := group root in
  bool_decide (length grp < 4)%nat
  && bool_decide (res_name w (residue_of w root) ∈ std_solvent_names)
  || bool_decide (length grp = 1)%nat
     && bool_decide (length (res_atoms w (residue_of w root)) = 1)%nat
     && bool_decide (4 < element_number w root)%nat
     && bool_decide (element_number w root < 9)%nat.

(** Segregation into small solvents and the rest. *)
Definition segregate (roots : list ptr) : list ptr * gset ptr :=
  foldl (fun '(small_solvents, root_set) root =>
           if is_small_solvent root
           then (small_solvents ++ [root], root_set)
           else (small_solvents, {[root]} ∪ root_set))
        ([], ∅) roots.

(** The [solvents] map. *)
Definition push_back (k : string) (root : ptr) (m : gmap string (list ptr))
    : gmap string (list ptr) :=
  <[k := default [] (m !! k) ++ [root]]> m.

Definition potential_solvents (small_solvents : list ptr) (root_set : list ptr)
    : gmap string (list ptr) :=
  foldl (fun m root =>
           let grp_size := length (group root) in
           if decide (10 < grp_size)%nat then m
           else if decide (grp_size ≠ length (res_atoms w (residue_of w root))) then m
           else push_back (res_name w (residue_of w root)) root m)
        (<["small solvents" := small_solvents]> ∅) root_set.

Definition best_solvent (solvents : gmap string (list ptr)) : string :=
  fst (foldl (fun '(best_solvent_name, best_solvent_size) sn =>
                let roots := default [] (solvents !! sn) in
                if decide (length roots < best_solvent_size)%nat
                then (best_solvent_name, best_solvent_size)
                else (sn, length roots))
             (""%string, 10%nat) (in_string_order (dom solvents))).

(** The ions. *)
Definition is_heavy (a : ptr) : bool := bool_decide (1 < element_number w a)%nat.

(** The count of heavy atoms of a group, left at 5 as soon as it gets there. *)
Fixpoint count_heavys (num_heavys : nat) (grp : list ptr) : nat :=
  match grp with
  | [] => num_heavys
  | a :: grp' =>
      if is_heavy a then
        if decide (4 < S num_heavys)%nat then S num_heavys
        else count_heavys (S num_heavys) grp'
      else count_heavys num_heavys grp'
  end.

Definition initial_ions (root_set : list ptr) : gset ptr :=
  foldl (fun ions root =>
           if bool_decide (length (group root) = 1)%nat
              && bool_decide (1 < element_number w root)%nat
              && negb (is_noble_gas (element_number w root))
           then {[root]} ∪ ions else ions)
        ∅ root_set.

Definition expand_ion (st : gset ptr * gset ptr) (root : ptr)
    : gset ptr * gset ptr :=
  let '(ions, checked_residues) := st in
  let r := residue_of w root in
  if decide (length (group root) = length (res_atoms w r)) then st
  else if decide (r ∈ checked_residues) then st
  else
    let seen_roots : gset ptr :=
      foldl (fun sr a => {[root_at a]} ∪ sr) {[root]} (res_atoms w r) in
    let ions' :=
      foldl (fun ions rt =>
               if decide (rt ∈ ions) then ions
               else if decide (count_heavys 0 (group rt) < 5)%nat
                    then {[rt]} ∪ ions else ions)
            ions (in_address_order seen_roots) in
    (ions', {[r]} ∪ checked_residues).

Definition all_ions (root_set : list ptr) : gset ptr :=
  let ions := initial_ions root_set in
  fst (foldl expand_ion (ions, ∅) (in_address_order ions)).

(** Where an ion root can come from: the roots handed to [all_ions], or
    the root of an atom listed in the residue of such a root. *)
Definition ion_source (root_set : list ptr) (x : ptr) : Prop :=
  x ∈ root_set
  \/ exists i a', i ∈ root_set /\ a' ∈ res_atoms w (residue_of w i)
                  /\ x = root_at a'.

(** The ligands. *)
Definition longest_group (root_set : list ptr) : option (list ptr) :=
  foldl (fun longest root =>
           let grp := group root in
           match longest with
           | None => Some grp
           | Some l => if decide (length l < length grp)%nat then Some grp else longest
           end)
        None root_set.

Definition is_ligand (ligand_cutoff : nat) (root : ptr) : bool :=
  let grp := group root in
  if decide (length grp < ligand_cutoff)%nat then
    let residues : gset ptr := list_to_set (residue_of w <$> grp) in
    if decide (size residues < 10)%nat then
      let ch := res_chain w (residue_of w root) in
      let long_chain :=
        if decide (ch = nullptr) then false
        else if decide (length (chain_residues w ch) < 10)%nat then false
        else true in
      negb long_chain
    else false
  else false.

(** One round of the loop over what stays in Main. *)
Definition assign_main (cats : Cats) (root : ptr) : Cats :=
  let grp := group root in
  let cats1 := assign grp Main cats in
  let root_residues : gset ptr := list_to_set (residue_of w <$> grp) in
  let root_chains : gset ptr :=
    list_to_set (filter (fun c => c ≠ nullptr)
                   (res_chain w <$> in_address_order root_residues)) in
  let seq_residues : gset ptr :=
    list_to_set (filter (fun r => r ≠ nullptr)
                   (flat_map (chain_residues w) (in_address_order root_chains))) in
  if decide (seq_residues = ∅) then cats1
  else
    let bound := in_address_order (root_residues ∖ seq_residues) in
    foldl (fun m br => assign (res_atoms w br) Ligand m) cats1 bound.

(** The function after [bonded_groups] and the two lookup maps. *)
Definition categorize (cats : Cats) : Cats :=
  let '(small_solvents, root_set0) :=
    segregate (in_address_order (dom group_lookup)) in
  let solvents := potential_solvents small_solvents (in_address_order root_set0) in
  let best_solvent_name := best_solvent solvents in
  let cats1 := assign_groups small_solvents Solvent cats in
  let '(root_set1, cats2) :=
    if negb (String.eqb best_solvent_name "")
       && negb (String.eqb best_solvent_name "small solvents")
    then
      let roots := default [] (solvents !! best_solvent_name) in
      (root_set0 ∖ list_to_set roots, assign_groups roots Solvent cats1)
    else (root_set0, cats1) in
  let ions := all_ions (in_address_order root_set1) in
  let root_set2 := root_set1 ∖ ions in
  let cats3 := assign_groups (in_address_order ions) Ions cats2 in
  if decide (root_set2 = ∅) then cats3
  else
    let longest := default [] (longest_group (in_address_order root_set2)) in
    let ligand_cutoff := Nat.min (length longest / 4) 250 in
    let ligands := filter (fun root => is_ligand ligand_cutoff root = true)
                     (in_address_order root_set2) in
    let root_set3 := root_set2 ∖ list_to_set ligands in
    let cats4 := assign_groups ligands Ligand cats3 in
    foldl assign_main cats4 (in_address_order root_set3).

End WithGroups.

(** AtomicStructure::_compute_structure_cats, from the bonded groups on. *)
Definition categorize_groups (bonded : list (list ptr)) (cats : Cats) : Cats :=
  categorize (make_group_lookup bonded) (make_atom_to_root bonded) cats.

End Categories.

(** AtomicStructure::_compute_structure_cats. *)
Definition _compute_structure_cats (std_solvent_names : list string)
    (is_noble_gas : nat -> bool) (fuel : nat) (w : World) (s : AtomicStructure)
    (pbg : option (list (ptr * ptr))) (cats : Cats) : option Cats :=
  match bonded_groups fuel w s pbg true with
  | None => None
  | Some bonded => Some (categorize_groups std_solvent_names is_noble_gas w bonded cats)
  end.

(** Every atom listed in a residue points back to that residue. *)
Definition listed_atoms_point_back (w : World) : Prop :=
  map_Forall (fun r res => Forall (fun x => residue_of w x = r) (r_atoms res))
             (residues w).

(** The two tests of the segregation loop, on a group. *)
Definition small_solvent_name (std_solvent_names : list string) (w : World)
    (G : list ptr) : Prop :=
  (length G < 4)%nat
  /\ res_name w (residue_of w (root_of G)) ∈ std_solvent_names.

Definition lone_light_atom (w : World) (G : list ptr) : Prop :=
  length G = 1%nat
  /\ length (res_atoms w (residue_of w (root_of G))) = 1%nat
  /\ (4 < element_number w (root_of G) < 9)%nat.

(** Every atom of a bonded group that lies in a residue of an atom of [G]
    belongs to a group that the segregation loop takes for a small solvent:
    the residues of [G] hold no atom of a group that stays in [root_set]. *)
Definition among_small_solvents (std_solvent_names : list string) (w : World)
    (bonded : list (list ptr)) (G : list ptr) : Prop :=
  forall g grp x, g ∈ G -> grp ∈ bonded -> x ∈ grp ->
                  residue_of w x = residue_of w g ->
                  small_solvent_name std_solvent_names w grp
                  \/ lone_light_atom w grp.

(** The solvent names and the noble gases of the released program, for
    concrete runs. *)
Definition usual_solvent_names : list string := ["HOH"; "WAT"; "H2O"; "D2O"; "TIP3"]%string.
Definition usual_noble_gas (n : nat) : bool :=
  bool_decide (n ∈ [2; 10; 18; 36; 54; 86]%nat).

(** Structures for concrete runs.  Atoms are at addresses 10.., residues at
    20.., chains at 30... *)
Definition example_atom (e : nat) (r : ptr) (nbs : list ptr) : Atom :=
  {| _name := "X"; _element := e; _residue := r; _structure := 1;
     _neighbors := nbs; _structure_category := Unassigned |}.

Definition example_residue (n : string) (l : list ptr) (c : ptr) : Residue :=
  {| r_name := n; r_atoms := l; r_chain := c |}.

Definition example_structure (l r : list ptr) : AtomicStructure :=
  {| _atoms := l; _bonds := []; _residues := r; _chains := None;
     _coord_sets := []; _gc_ribbon := false |}.

Definition example_world (a : gmap ptr Atom) (r : gmap ptr Residue)
    (c : gmap ptr Chain) : World :=
  {| structures := ∅; atoms := a; residues := r; chains := c;
     coord_sets := ∅; log := [] |}.

(** One chloride ion (element 17), alone in its residue "CL". *)
Definition chloride_world : World :=
  example_world {[ 10%nat := example_atom 17 20 [] ]}
                {[ 20%nat := example_residue "CL" [10%nat] nullptr ]} ∅.

(** A residue "HOH" that holds an unbonded oxygen (atom 10) and a carbon
    (atom 11) bonded to the three-carbon residue "ALA" of chain 30. *)
Definition shared_residue_world : World :=
  example_world
    {[ 10%nat := example_atom 8 21 [];
       11%nat := example_atom 6 21 [12%nat];
       12%nat := example_atom 6 22 [11%nat; 13%nat];
       13%nat := example_atom 6 22 [12%nat; 14%nat];
       14%nat := example_atom 6 22 [13%nat] ]}
    {[ 21%nat := example_residue "HOH" [10%nat; 11%nat] nullptr;
       22%nat := example_residue "ALA" [12%nat; 13%nat; 14%nat] 30%nat ]}
    {[ 30%nat := {| c_residues := [22%nat] |} ]}.

(** A water molecule (atoms 10, 11, 12 in residue "HOH"), a lone oxygen in
    residue "O" and a fluoride ion in residue "F". *)
Definition water_world : World :=
  example_world
    {[ 10%nat := example_atom 8 21 [11%nat; 12%nat];
       11%nat := example_atom 1 21 [10%nat];
       12%nat := example_atom 1 21 [10%nat];
       13%nat := example_atom 8 22 [];
       14%nat := example_atom 9 23 [] ]}
    {[ 21%nat := example_residue "HOH" [10%nat; 11%nat; 12%nat] nullptr;
       22%nat := example_residue "O" [13%nat] nullptr;
       23%nat := example_residue "F" [14%nat] nullptr ]}
    ∅.

(** A water whose three atoms (10, 11, 12 in residue "HOH") are not bonded
    to each other: three bonded groups that share one residue. *)
Definition unbonded_water_world : World :=
  example_world
    {[ 10%nat := example_atom 8 21 [];
       11%nat := example_atom 1 21 [];
       12%nat := example_atom 1 21 [] ]}
    {[ 21%nat := example_residue "HOH" [10%nat; 11%nat; 12%nat] nullptr ]}
    ∅.

End StructCats.

(* ===================================================================== *)
(** * Best alternate locations (AtomicStructure::best_alt_locs)           *)
(* ===================================================================== *)

Module BestAltLocs.

(** Alternate-location codes are [char]s.  [char] is a signed byte on the
    platforms the program is built for, so in a [std::set<char>] and for
    [std::sort] the codes from 0x80 on come before the others. *)
Definition char_value (c : ascii) : Z :=
  let n := Z.of_N (N_of_ascii c) in
  if n <? 128 then n else n - 256.

Definition char_ltb (a b : ascii) : bool := char_value a <? char_value b.
Definition NUL : ascii := Ascii.zero.

(** [a] does not come after [b]. *)
Definition char_le (a b : ascii) : Prop := char_ltb b a = false.

(** [std::sort] on a [std::vector<char>]. *)
Fixpoint sorted_insert (c : ascii) (l : list ascii) : list ascii :=
  match l with
  | [] => [c]
  | x :: l' => if char_ltb c x then c :: l else x :: sorted_insert c l'
  end.

Definition std_sort (l : list ascii) : list ascii := foldr sorted_insert [] l.

(** How a run ends: normally, in undefined behaviour (a dangling pointer is
    dereferenced), or cut off because the fuel given to the [while] loop was
    used up. *)
Inductive outcome (A : Type) :=
| Done (a : A)
| UB
| OutOfFuel.
Arguments Done {A} a.
Arguments UB {A}.
Arguments OutOfFuel {A}.

#[global] Instance outcome_bind : MBind outcome := fun A B f x =>
  match x with
  | Done a => f a
  | UB => UB
  | OutOfFuel => OutOfFuel
  end.

(** The type [float]: IEEE 754 binary32 (24 bits of precision, infinities at
    exponent 128), with the operations the function uses: the constant 0.0,
    addition, division of a float by an [int] (which is converted to
    [float] first) and the comparison [<].  ([x > y] is [y < x].)  A
    comparison with a NaN is false. *)
Definition float := SpecFloat.spec_float.
Definition fzero : float := SpecFloat.S754_zero false.
Definition fadd (x y : float) : float := SpecFloat.SFadd 24 128 x y.
Definition float_of_int (n : Z) : float :=
  SpecFloat.binary_normalize 24 128 n 0 false.
Definition fdiv (x : float) (n : Z) : float :=
  SpecFloat.SFdiv 24 128 x (float_of_int n).
Definition flt (x y : float) : bool := SpecFloat.SFltb x y.

(** The float nearest to [m * 2^e], for concrete runs. *)
Definition float_of (m e : Z) : float := SpecFloat.binary_normalize 24 128 m e false.

(** Atom::_Alt_loc_info, the members read here. *)
Record _Alt_loc_info := {
  bfactor : float;
  occupancy : float
}.

(** The members of Atom and Residue read here.  [_alt_loc_map] is a
    [std::map<unsigned char, _Alt_loc_info>]. *)
Record Atom := {
  _alt_loc_map : gmap ascii _Alt_loc_info;
  _neighbors : list ptr;
  _residue : ptr
}.

Record Residue := {
  _atoms : list ptr
}.

Record AtomicStructure := {
  atoms : list ptr;
  _residues : list ptr;
  atom_at : gmap ptr Atom;
  residue_at : gmap ptr Residue
}.

Definition atom (s : AtomicStructure) (p : ptr) : outcome Atom :=
  match atom_at s !! p with Some a => Done a | None => UB end.

Definition residue (s : AtomicStructure) (p : ptr) : outcome Residue :=
  match residue_at s !! p with Some r => Done r | None => UB end.

(** Modelled from the spec: Atom::alt_locs() (Atom.cpp is not among the
    sources) gives the codes that key the atom's alternate-location map, as
    a [std::set<char>]: here the list of its elements in iteration
    order. *)
Definition alt_locs (a : Atom) : list ascii :=
  std_sort (elements (dom (_alt_loc_map a))).

(** Atom::has_alt_loc. *)
Definition has_alt_loc (a : Atom) (al : ascii) : bool :=
  bool_decide (is_Some (_alt_loc_map a !! al)).

(** The three [std::map]s keyed by alt-loc code; [operator[]] yields a
    zero-initialised entry for a new key. *)
Record Tally := {
  occurances : ascii -> Z;
  occupancies : ascii -> float;
  bfactors : ascii -> float
}.

Definition no_tally : Tally :=
  {| occurances := fun _ => 0;
     occupancies := fun _ => fzero;
     bfactors := fun _ => fzero |}.

Definition upd {A} (f : ascii -> A) (k : ascii) (v : A) : ascii -> A :=
  fun c => if Ascii.eqb c k then v else f c.

(** The loop over [alt_loc_set] for one atom: counts the atom for each code
    until a code is met that the atom lacks.  The boolean is
    [check_neighbors]. *)
Fixpoint tally_atom (a : Atom) (alt_loc_set : list ascii) (t : Tally)
    : bool * Tally :=
  match alt_loc_set with
  | [] => (true, t)
  | alt_loc :: rest =>
      match _alt_loc_map a !! alt_loc with
      | None => (false, t)           (* !a->has_alt_loc(alt_loc) *)
      | Some info =>
          tally_atom a rest
            {| occurances := upd (occurances t) alt_loc (occurances t alt_loc + 1);
               occupancies := upd (occupancies t) alt_loc
                                (fadd (occupancies t alt_loc) (occupancy info));
               bfactors := upd (bfactors t) alt_loc
                             (fadd (bfactors t alt_loc) (bfactor info)) |}
      end
  end.

(** The state of the collation of one residue group.  [todo] is the vector
    used as a stack, its back first. *)
Record Collation := {
  seen : gset ptr;
  todo : list ptr;
  res_group : gset ptr;
  tally : Tally
}.

Definition with_tally (c : Collation) (t : Tally) : Collation :=
  {| seen := seen c; todo := todo c; res_group := res_group c; tally := t |}.

Definition push_residue (nr : ptr) (c : Collation) : Collation :=
  {| seen := {[nr]} ∪ seen c; todo := nr :: todo c;
     res_group := {[nr]} ∪ res_group c; tally := tally c |}.

(** [for (auto nb: a->neighbors())]. *)
Fixpoint visit_neighbors (s : AtomicStructure) (cr : ptr)
    (alt_loc_set : list ascii) (nbs : list ptr) (c : Collation)
    : outcome Collation :=
  match nbs with
  | [] => Done c
  | nb :: nbs' =>
      (nba ← atom s nb;
       let nr := _residue nba in
       if bool_decide (nr ≠ cr)
          && bool_decide (alt_locs nba = alt_loc_set)
          && bool_decide (nr ∉ seen c)
       then visit_neighbors s cr alt_loc_set nbs' (push_residue nr c)
       else visit_neighbors s cr alt_loc_set nbs' c)
  end.

(** [for (auto ai = cr->_atoms.begin(); ...)]. *)
Fixpoint visit_atoms (s : AtomicStructure) (cr : ptr)
    (alt_loc_set : list ascii) (l : list ptr) (c : Collation)
    : outcome Collation :=
  match l with
  | [] => Done c
  | a :: l' =>
      (at_a ← atom s a;
       let '(check_neighbors, t) := tally_atom at_a alt_loc_set (tally c) in
       c' ← (if check_neighbors
             then visit_neighbors s cr alt_loc_set (_neighbors at_a) (with_tally c t)
             else Done (with_tally c t));
       visit_atoms s cr alt_loc_set l' c')
  end.

(** [while (!todo.empty())]. *)
Fixpoint collate (fuel : nat) (s : AtomicStructure) (alt_loc_set : list ascii)
    (c : Collation) : outcome Collation :=
  match todo c with
  | [] => Done c
  | cr :: rest =>
      match fuel with
      | O => OutOfFuel
      | S fuel' =>
          (res ← residue s cr;
           c' ← visit_atoms s cr alt_loc_set (_atoms res)
                  {| seen := seen c; todo := rest;
                     res_group := res_group c; tally := tally c |};
           collate fuel' s alt_loc_set c')
      end
  end.

(** The running best of the decision loop. *)
Record Best := {
  best_loc : ascii;
  best_occupancies : float;
  best_bfactors : float
}.

(** [occupancies[al] / occurances[al]] and [bfactors[al] / occurances[al]]. *)
Definition tally_occupancy (t : Tally) (al : ascii) : float :=
  fdiv (occupancies t al) (occurances t al).

Definition tally_bfactor (t : Tally) (al : ascii) : float :=
  fdiv (bfactors t al) (occurances t al).

(** One iteration of the decision loop.  [None] in the two intermediate
    steps is [continue]. *)
Definition consider (t : Tally) (b : Best) (al : ascii) : Best :=
  let is_best := Ascii.eqb (best_loc b) NUL in
  let occ := tally_occupancy t al in
  let after_occ : option bool :=
    if negb is_best then
      if flt (best_occupancies b) occ then Some true
      else if flt occ (best_occupancies b) then None
      else Some is_best
    else Some is_best in
  match after_occ with
  | None => b
  | Some is_best =>
      let bf := tally_bfactor t al in
      let after_bf : option bool :=
        if negb is_best then
          if flt bf (best_bfactors b) then Some true
          else if flt bf (best_bfactors b) then None
          else Some is_best
        else Some is_best in
      match after_bf with
      | None => b
      | Some is_best =>
          if is_best
          then {| best_loc := al; best_occupancies := occ; best_bfactors := bf |}
          else b
      end
  end.

(** The decision loop over the sorted codes. *)
Definition pick_best (alphabetic_alt_locs : list ascii) (t : Tally) : ascii :=
  best_loc (fold_left (consider t) alphabetic_alt_locs
              {| best_loc := NUL; best_occupancies := fzero;
                 best_bfactors := fzero |}).

(** The loop that looks for the first atom of the residue with alt locs. *)
Fixpoint first_alt_loc_set (s : AtomicStructure) (l : list ptr)
    : outcome (list ascii) :=
  match l with
  | [] => Done []
  | a :: l' =>
      (at_a ← atom s a;
       match alt_locs at_a with
       | [] => first_alt_loc_set s l'
       | als => Done als
       end)
  end.

(** The loop over [_residues]. *)
Fixpoint residue_loop (fuel : nat) (s : AtomicStructure) (rs : list ptr)
    (seen0 : gset ptr) (best_locs : gmap ptr ascii)
    : outcome (gmap ptr ascii) :=
  match rs with
  | [] => Done best_locs
  | r :: rs' =>
      if bool_decide (r ∈ seen0) then residue_loop fuel s rs' seen0 best_locs
      else
        (let seen1 := {[r]} ∪ seen0 in
         res ← residue s r;
         alt_loc_set ← first_alt_loc_set s (_atoms res);
         match alt_loc_set with
         | [] => residue_loop fuel s rs' seen1 best_locs
         | _ =>
             c ← collate fuel s alt_loc_set
                   {| seen := seen1; todo := [r]; res_group := {[r]};
                      tally := no_tally |};
             let best := pick_best (std_sort alt_loc_set) (tally c) in
             residue_loop fuel s rs' (seen c)
               (gset_to_gmap best (res_group c) ∪ best_locs)
         end)
  end.

(** The first loop: are all alt-loc maps empty? *)
Fixpoint all_blank (s : AtomicStructure) (l : list ptr) : outcome bool :=
  match l with
  | [] => Done true
  | a :: l' =>
      (at_a ← atom s a;
       if decide (_alt_loc_map at_a = ∅) then all_blank s l' else Done false)
  end.

(** AtomicStructure::best_alt_locs.  [fuel] bounds the iterations of each
    [while] loop. *)
Definition best_alt_locs (fuel : nat) (s : AtomicStructure)
    : outcome (gmap ptr ascii) :=
  blank ← all_blank s (atoms s);
  if (blank : bool) then Done ∅
  else residue_loop fuel s (_residues s) ∅ ∅.

(** ** The means that the decision compares *)

(** The atoms of the residues [group], residue after residue, each in the
    order of its atom vector. *)
Definition atom_records (s : AtomicStructure) (l : list ptr) : list Atom :=
  omap (fun a => atom_at s !! a) l.

Definition residue_atoms (s : AtomicStructure) (r : ptr) : list Atom :=
  match residue_at s !! r with
  | Some res => atom_records s (_atoms res)
  | None => []
  end.

Definition group_atoms (s : AtomicStructure) (group : list ptr) : list Atom :=
  flat_map (residue_atoms s) group.

(** The tally after the atoms [l], taken one after the other. *)
Definition tally_atoms (l : list Atom) (alt_loc_set : list ascii) (t : Tally)
    : Tally :=
  foldl (fun t a => (tally_atom a alt_loc_set t).2) t l.

(** The atom is counted for the code [al] of [alt_loc_set]: it has [al] and
    every code of the set that comes before [al]. *)
Fixpoint counted (a : Atom) (alt_loc_set : list ascii) (al : ascii) : bool :=
  match alt_loc_set with
  | [] => false
  | c :: rest =>
      has_alt_loc a c && (Ascii.eqb c al || counted a rest al)
  end.

(** The alt-loc entries for [al] of the atoms that are counted for it. *)
Definition counted_infos (l : list Atom) (alt_loc_set : list ascii)
    (al : ascii) : list _Alt_loc_info :=
  omap (fun a => if counted a alt_loc_set al then _alt_loc_map a !! al else None) l.

(** A sum of floats, from 0.0 on and from left to right. *)
Definition fsum (l : list float) : float := foldl fadd fzero l.

Definition mean (l : list float) : float := fdiv (fsum l) (Z.of_nat (length l)).

(** The mean occupancy and the mean bfactor of a code over the atoms of the
    group that are counted for it. *)
Definition counted_occupancy (s : AtomicStructure) (group : list ptr)
    (alt_loc_set : list ascii) (al : ascii) : float :=
  mean (occupancy <$> counted_infos (group_atoms s group) alt_loc_set al).

Definition counted_bfactor (s : AtomicStructure) (group : list ptr)
    (alt_loc_set : list ascii) (al : ascii) : float :=
  mean (bfactor <$> counted_infos (group_atoms s group) alt_loc_set al).

(** Modelled from the spec: the mean occupancy of a code over a residue
    group, taken over all atoms of the group that have the code. *)
Definition spec_mean_occupancy (s : AtomicStructure) (group : list ptr)
    (al : ascii) : float :=
  mean (occupancy <$> omap (fun a => _alt_loc_map a !! al) (group_atoms s group)).

(** By the means [mo] and [mb], the code [al] is to be preferred to [c]: its
    mean occupancy is higher; or the two are not apart and its mean bfactor
    is lower; or neither mean sets them apart and [al] is the earlier
    code. *)
Definition preferred (mo mb : ascii -> float) (al c : ascii) : Prop :=
  flt (mo c) (mo al) = true
  \/ (flt (mo c) (mo al) = false /\ flt (mo al) (mo c) = false
      /\ (flt (mb al) (mb c) = true
          \/ (flt (mb al) (mb c) = false /\ flt (mb c) (mb al) = false
              /\ char_ltb al c = true))).

(** What the map says about a residue [r] with code [best]: [r] belongs to
    a group of residues, led by a residue of the structure whose first atom
    with alt locs has the codes [codes]; the residues of the group all have
    the code [best]; [best] is one of the codes; and a code that is to be
    preferred to each of the others by the counted means is [best]. *)
Definition chosen (s : AtomicStructure) (best_locs : gmap ptr ascii)
    (r : ptr) (best : ascii) : Prop :=
  exists (r0 : ptr) (res0 : Residue) (others : list ptr) (codes : list ascii),
    r ∈ r0 :: others
    /\ r0 ∈ _residues s
    /\ residue_at s !! r0 = Some res0
    /\ first_alt_loc_set s (_atoms res0) = Done codes
    /\ codes <> []
    /\ (forall r', r' ∈ r0 :: others -> best_locs !! r' = Some best)
    /\ (NUL ∉ codes -> best ∈ codes)
    /\ forall al, al ∈ codes -> NUL ∉ codes ->
         (forall c, c ∈ codes -> c <> al ->
            preferred (counted_occupancy s (r0 :: others) codes)
                      (counted_bfactor s (r0 :: others) codes) al c) ->
         best = al.

(** Every pointer that the function follows leads to a live object, and
    the atoms listed in the residues are atoms of the structure. *)
Definition live (s : AtomicStructure) : Prop :=
  Forall (fun a => is_Some (atom_at s !! a)) (atoms s)
  /\ Forall (fun r => is_Some (residue_at s !! r)) (_residues s)
  /\ map_Forall (fun _ res => Forall (fun a => a ∈ atoms s) (_atoms res))
                (residue_at s)
  /\ map_Forall (fun _ at_a =>
                   is_Some (residue_at s !! _residue at_a)
                   /\ Forall (fun nb => is_Some (atom_at s !! nb)) (_neighbors at_a))
                (atom_at s).

(** The residue pointers that the atoms of the free store carry: only
    these can be pushed on [todo]. *)
Definition candidates (s : AtomicStructure) : gset ptr :=
  list_to_set ((fun kv => _residue kv.2) <$> map_to_list (atom_at s)).

(** The measure that bounds the [while] loop: every push moves a candidate
    into [seen], every iteration pops. *)
Definition pending (s : AtomicStructure) (c : Collation) : nat :=
  (2 * size (candidates s ∖ seen c) + length (todo c))%nat.

(** ** Structures for concrete runs *)

Definition example_info (o b : float) : _Alt_loc_info :=
  {| bfactor := b; occupancy := o |}.

(** Two singly-atomed residues bonded to each other, with alt locs A and B:
    occupancies 0.625/0.375 and 0.5/0.5, bfactors 20/10. *)
Definition example_structure : AtomicStructure :=
  {| atoms := [1%nat; 2%nat];
     _residues := [100%nat; 101%nat];
     atom_at :=
       {[ 1%nat := {| _alt_loc_map :=
                        {[ "A"%char := example_info (float_of 5 (-3)) (float_of 20 0);
                           "B"%char := example_info (float_of 3 (-3)) (float_of 10 0) ]};
                      _neighbors := [2%nat]; _residue := 100%nat |};
          2%nat := {| _alt_loc_map :=
                        {[ "A"%char := example_info (float_of 1 (-1)) (float_of 20 0);
                           "B"%char := example_info (float_of 1 (-1)) (float_of 10 0) ]};
                      _neighbors := [1%nat]; _residue := 101%nat |} ]};
     residue_at := {[ 100%nat := {| _atoms := [1%nat] |};
                      101%nat := {| _atoms := [2%nat] |} ]} |}.

(** One residue whose first atom has alt locs A and B, each with occupancy
    0.5, and whose second atom has alt loc B only, with occupancy 1; all
    bfactors are 10. *)
Definition partial_structure : AtomicStructure :=
  {| atoms := [1%nat; 2%nat];
     _residues := [100%nat];
     atom_at :=
       {[ 1%nat := {| _alt_loc_map :=
                        {[ "A"%char := example_info (float_of 1 (-1)) (float_of 10 0);
                           "B"%char := example_info (float_of 1 (-1)) (float_of 10 0) ]};
                      _neighbors := []; _residue := 100%nat |};
          2%nat := {| _alt_loc_map :=
                        {[ "B"%char := example_info (float_of 1 0) (float_of 10 0) ]};
                      _neighbors := []; _residue := 100%nat |} ]};
     residue_at := {[ 100%nat := {| _atoms := [1%nat; 2%nat] |} ]} |}.

End BestAltLocs.

(* ===================================================================== *)
(** * Looking up and activating coordinate sets (AtomicStructure.cpp)     *)
(* ===================================================================== *)

Module CoordSetLookup.

(** AtomicStructure::find_coord_set(int id) const: the first coordinate set
    of the vector that carries the id, [nullptr] when the loop runs off the
    end.  Reading the id through a dangling pointer is undefined ([None]). *)
Fixpoint find_coord_set (h : CoordSets.Heap) (coord_sets : list ptr) (id : Z)
    : option ptr :=
  match coord_sets with
  | [] => Some nullptr
  | csi :: rest =>
      match CoordSets.id h csi with
      | None => None
      | Some csi_id =>
          if csi_id =? id then Some csi else find_coord_set h rest id
      end
  end.

(** The reason handed to the change tracker by set_active_coord_set. *)
Inductive Reason := REASON_ACTIVE_COORD_SET.

(** The members that set_active_coord_set reads or writes: the vector of
    coordinate sets, the active one, the graphics flag that [set_gc_shape]
    raises, and the [add_modified(this, reason)] calls the change tracker has
    received. *)
Record Structure := {
  _coord_sets : list ptr;
  _active_coord_set : ptr;
  _gc_shape : bool;
  add_modified_calls : list Reason
}.

(** AtomicStructure::set_active_coord_set(CoordSet* cs). *)
Definition set_active_coord_set (cs : ptr) (s : Structure) : result Structure :=
  let activate (new_active : ptr) : result Structure :=
    if decide (_active_coord_set s ≠ new_active) then
      Value {| _coord_sets := _coord_sets s;
               _active_coord_set := new_active;
               _gc_shape := true;
               add_modified_calls :=
                 add_modified_calls s ++ [REASON_ACTIVE_COORD_SET] |}
    else Value s in
  if decide (cs = nullptr) then
    match _coord_sets s with
    | [] => Value s
    | front :: _ => activate front
    end
  else
    match Graph.find_index cs (_coord_sets s) with
    | None => Throws "Requested active coord set not in coord sets"
    | Some _ => activate cs
    end.

(** A structure for concrete runs: coordinate sets with ids 0 and 5 at the
    addresses 1 and 2. *)
Definition example_state : CoordSets.State :=
  {| CoordSets._coord_sets := [1%nat; 2%nat];
     CoordSets.heap :=
       {[ 1%nat := {| CoordSets._cs_id := 0; CoordSets.coords_size := 0 |};
          2%nat := {| CoordSets._cs_id := 5; CoordSets.coords_size := 0 |} ]} |}.

End CoordSetLookup.

(* ===================================================================== *)
(** * Residues of a structure: creation, lookup, polymers                 *)
(* ===================================================================== *)

Module Residues.

(** What the constructor [Residue(as, name, chain, pos, insert)] is given
    and the accessors [name()], [chain_id()], [position()] and
    [insertion_code()] return. *)
Record Residue := {
  name : string;
  chain_id : string;
  position : Z;
  insertion_code : ascii
}.

(** The vector [_residues] and the free store of Residue objects. *)
Record State := {
  _residues : list ptr;
  heap : gmap ptr Residue
}.

(** [ri + 1] elements stay in front of the inserted one. *)
Definition insert_at (i : nat) (r : ptr) (l : list ptr) : list ptr :=
  take i l ++ r :: drop i l.

(** AtomicStructure::new_residue(name, chain, pos, insert, neighbor, after).
    [fresh] is the address that [new Residue(...)] returns.  When the call
    throws, nothing has been allocated or changed. *)
Definition new_residue (fresh : ptr) (nm chain : string) (pos : Z)
    (insert : ascii) (neighbor : ptr) (after : bool) (s : State)
    : result (ptr * State) :=
  let r := {| name := nm; chain_id := chain; position := pos;
              insertion_code := insert |} in
  if decide (neighbor = nullptr) then
    Value (fresh, {| _residues := _residues s ++ [fresh];
                     heap := <[fresh := r]> (heap s) |})
  else
    match Graph.find_index neighbor (_residues s) with
    | None => Throws "Waypoint residue not in residue list"
    | Some ri =>
        let ri := if after then S ri else ri in
        Value (fresh, {| _residues := insert_at ri fresh (_residues s);
                         heap := <[fresh := r]> (heap s) |})
    end.

(** AtomicStructure::find_residue(chain_id, pos, insert) const.  Reading a
    residue through a dangling pointer is undefined ([None]). *)
Fixpoint find_residue_in (h : gmap ptr Residue) (l : list ptr)
    (chain : string) (pos : Z) (insert : ascii) : option ptr :=
  match l with
  | [] => Some nullptr
  | r :: l' =>
      match h !! r with
      | None => None
      | Some res =>
          if (position res =? pos) && String.eqb (chain_id res) chain
             && Ascii.eqb (insertion_code res) insert
          then Some r
          else find_residue_in h l' chain pos insert
      end
  end.

Definition find_residue (s : State) (chain : string) (pos : Z) (insert : ascii)
    : option ptr :=
  find_residue_in (heap s) (_residues s) chain pos insert.

(** AtomicStructure::find_residue(chain_id, pos, insert, name) const. *)
Fixpoint find_residue_named_in (h : gmap ptr Residue) (l : list ptr)
    (chain : string) (pos : Z) (insert : ascii) (nm : string) : option ptr :=
  match l with
  | [] => Some nullptr
  | r :: l' =>
      match h !! r with
      | None => None
      | Some res =>
          if (position res =? pos) && String.eqb (name res) nm
             && String.eqb (chain_id res) chain
             && Ascii.eqb (insertion_code res) insert
          then Some r
          else find_residue_named_in h l' chain pos insert nm
      end
  end.

Definition find_residue_named (s : State) (chain : string) (pos : Z)
    (insert : ascii) (nm : string) : option ptr :=
  find_residue_named_in (heap s) (_residues s) chain pos insert nm.

(** The residue found, or none, has the identifiers asked for. *)
Definition matches (s : State) (r : ptr) (chain : string) (pos : Z)
    (insert : ascii) : Prop :=
  exists res, heap s !! r = Some res /\ position res = pos
              /\ chain_id res = chain /\ insertion_code res = insert.

(** Every pointer of the vector is live. *)
Definition all_live (s : State) : Prop :=
  Forall (fun r => is_Some (heap s !! r)) (_residues s).

(** A structure for concrete runs: residues 5 and 6 of chain "A" at the
    addresses 1 and 2. *)
Definition example_state : State :=
  {| _residues := [1%nat; 2%nat];
     heap := {[ 1%nat := {| name := "ALA"; chain_id := "A"; position := 5;
                            insertion_code := " " |};
                2%nat := {| name := "GLY"; chain_id := "A"; position := 6;
                            insertion_code := " " |} ]} |}.

End Residues.

(* ===================================================================== *)
(** * Polymers (AtomicStructure::polymers) and the chain ids of make_chains *)
(* ===================================================================== *)

Module Polymers.

(** [Residue::PT_NONE] is the only polymer type the function writes. *)
Inductive PolymerType := PT_NONE | PT_AMINO | PT_NUCLEIC.

Section Reads.

(** The object graph as [polymers] reads it.  [polymeric_start_atom] and
    [other_atom] are members of Bond defined outside the sources at hand;
    [atom_residue] is [Atom::residue()], [chain_id] is
    [Residue::chain_id()]. *)
Variable polymeric_start_atom : ptr -> ptr.
Variable other_atom : ptr -> ptr -> ptr.
Variable atom_residue : ptr -> ptr.
Variable chain_id : ptr -> string.

(** [res_lookup]: each residue of the vector with its index; a residue that
    occurs twice keeps the later index. *)
Fixpoint index_residues (i : Z) (residues : list ptr) (m : gmap ptr Z)
    : gmap ptr Z :=
  match residues with
  | [] => m
  | r :: rest => index_residues (i + 1) rest (<[r := i]> m)
  end.

(** [res_lookup[r]]: [operator[]] of a [std::map<const Residue*, int>]
    yields 0 for a key that is not present (and enters it with 0, which no
    later read can tell from its absence). *)
Definition at0 (res_lookup : gmap ptr Z) (r : ptr) : Z :=
  default 0 (res_lookup !! r).

(** Some residue is entered one index further on. *)
Definition has_successor (res_lookup : gmap ptr Z) (r : ptr) : Prop :=
  exists nr, at0 res_lookup r + 1 = at0 res_lookup nr.

(** The loop over the bonds.  [connected] only ever receives [true], so the
    map is kept as the set of its keys. *)
Definition connect_bonds (consider_chain_ids : bool) (res_lookup : gmap ptr Z)
    (bonds : list ptr) (connected : gset ptr) : gset ptr :=
  foldl (fun conn b =>
           let start := polymeric_start_atom b in
           if decide (start ≠ nullptr) then
             let sr := atom_residue start in
             let nr := atom_residue (other_atom b start) in
             if bool_decide (at0 res_lookup sr + 1 = at0 res_lookup nr)
                && (negb consider_chain_ids
                    || String.eqb (chain_id sr) (chain_id nr))
             then {[sr]} ∪ conn else conn
           else conn)
        connected bonds.

(** The loop over the missing-structure pseudobonds, each kept as the pair
    of its end atoms. *)
Definition connect_pseudobonds (res_lookup : gmap ptr Z)
    (pbs : list (ptr * ptr)) (connected : gset ptr) : gset ptr :=
  foldl (fun conn pb =>
           let r1 := atom_residue pb.1 in
           let r2 := atom_residue pb.2 in
           let index1 := at0 res_lookup r1 in
           let index2 := at0 res_lookup r2 in
           if bool_decide (Z.abs (index1 - index2) = 1)
              && String.eqb (chain_id r1) (chain_id r2)
           then if index1 <? index2 then {[r1]} ∪ conn else {[r2]} ∪ conn
           else conn)
        connected pbs.

(** The loop over the residue vector that cuts the polymers. *)
Fixpoint cut (connected : gset ptr) (residues : list ptr) (chain : list ptr)
    (in_chain : bool) (polys : list (list ptr)) : list (list ptr) :=
  match residues with
  | [] => if in_chain then polys ++ [chain] else polys
  | r :: rest =>
      if decide (r ∈ connected) then
        cut connected rest (chain ++ [r]) true polys
      else if in_chain then
        cut connected rest [] false (polys ++ [chain ++ [r]])
      else cut connected rest chain false polys
  end.

(** The members of the structure and of its residues that [polymers]
    writes. *)
Record Written := {
  polymer_type : gmap ptr PolymerType;
  _polymers_computed : bool
}.

Definition connections (residues : list ptr) (bonds : list ptr)
    (pbg : option (list (ptr * ptr)))
    (consider_missing_structure consider_chain_ids : bool) : gset ptr :=
  let res_lookup := index_residues 0 residues ∅ in
  let connected := connect_bonds consider_chain_ids res_lookup bonds ∅ in
  if consider_missing_structure then
    match pbg with
    | Some pbs => connect_pseudobonds res_lookup pbs connected
    | None => connected
    end
  else connected.

(** AtomicStructure::polymers(consider_missing_structure,
    consider_chain_ids).  [pbg] is the "missing structure" pseudobond group
    as [get_group] with GRP_NONE returns it. *)
Definition polymers (residues : list ptr) (bonds : list ptr)
    (pbg : option (list (ptr * ptr)))
    (consider_missing_structure consider_chain_ids : bool)
    (wr : Written) : list (list ptr) * Written :=
  let connected := connections residues bonds pbg consider_missing_structure
                     consider_chain_ids in
  (cut connected residues [] false [],
   {| polymer_type := foldl (fun m r => <[r := PT_NONE]> m) (polymer_type wr)
                        residues;
      _polymers_computed := true |}).

(** The first loop over the polymers in make_chains, run when
    [_input_seq_info] is not empty: a chain id met once maps to [true], one
    met again to [false].  [polymer[0]] of an empty polymer is undefined
    ([None]). *)
Fixpoint unique_chain_id (polys : list (list ptr)) (m : gmap string bool)
    : option (gmap string bool) :=
  match polys with
  | [] => Some m
  | polymer :: rest =>
      match polymer with
      | [] => None
      | r :: _ =>
          let id := chain_id r in
          match m !! id with
          | None => unique_chain_id rest (<[id := true]> m)
          | Some _ => unique_chain_id rest (<[id := false]> m)
          end
      end
  end.

(** How many polymers begin with a residue of the chain id. *)
Definition count_chain_id (polys : list (list ptr)) (id : string) : nat :=
  length (filter (fun polymer => chain_id <$> head polymer = Some id) polys).

(** A run of connected residues closed by one that is not connected. *)
Definition closed_run (connected : gset ptr) (p : list ptr) : Prop :=
  exists body lst, p = body ++ [lst] /\ body <> []
                   /\ (forall r, r ∈ body -> r ∈ connected) /\ lst ∉ connected.

(** [p] is a stretch of consecutive elements of [l]. *)
Definition stretch_of (p l : list ptr) : Prop :=
  exists l1 l2, l = l1 ++ p ++ l2.

(** What an entry of [unique_chain_id] is after a chain id that had entry
    [before] has been met [n] more times. *)
Definition met (before : option bool) (n : nat) : option bool :=
  match n, before with
  | O, _ => before
  | S O, None => Some true
  | _, _ => Some false
  end.

End Reads.

End Polymers.

(* ===================================================================== *)
(** * Bonded groups as the components of the bond graph                   *)
(* ===================================================================== *)

Module Components.
Import AtomH Graph StructCats.

(** [y] is reached from [x] in one step of the search: through the
    connection table or through a bond. *)
Definition step (w : World) (conn : ptr -> list ptr) (x y : ptr) : Prop :=
  y ∈ conn x \/ y ∈ neighbors w x.

(** The connection table that [bonded_groups] builds. *)
Definition conn_of (pbg : option (list (ptr * ptr)))
    (consider_missing_structure : bool) : ptr -> list ptr :=
  if consider_missing_structure then
    match pbg with
    | Some pbs => pb_connections pbs
    | None => fun _ => []
    end
  else fun _ => [].

(** The neighbour lists are those of an undirected graph. *)
Definition symmetric_bonds (w : World) : Prop :=
  forall x y, y ∈ neighbors w x -> x ∈ neighbors w y.

End Components.

(* ===================================================================== *)
(** * Atom::structure_category: the lazily computed category              *)
(* ===================================================================== *)

Module StructureCategory.
Import AtomH Graph StructCats.

(** The category of the atom has been set, to one of Main, Ligand, Ions and
    Solvent. *)
Definition assigned (cats : Cats) (a : ptr) : Prop :=
  exists c, cats !! a = Some c /\ c <> Unassigned.

(** The flag [_structure_cats_dirty] of the structure and the
    [_structure_category] members of its atoms. *)
Record CatState := {
  _structure_cats_dirty : bool;
  categories : Cats
}.

Section Category.
Variable std_solvent_names : list string.
Variable is_noble_gas : nat -> bool.

(** AtomicStructure::_compute_structure_cats with its last statement,
    [_structure_cats_dirty = false]. *)
Definition _compute_structure_cats (fuel : nat) (w : World)
    (s : AtomicStructure) (pbg : option (list (ptr * ptr))) (st : CatState)
    : option CatState :=
  match StructCats._compute_structure_cats std_solvent_names is_noble_gas fuel
          w s pbg (categories st) with
  | None => None
  | Some cats => Some {| _structure_cats_dirty := false; categories := cats |}
  end.

(** Atom::structure_category() const, for the atom at [a] of structure
    [s].  An atom whose category has never been set still has the one its
    constructor gave it, which is outside the sources at hand; the read is
    then [None], as it is when the fuel runs out. *)
Definition structure_category (fuel : nat) (w : World) (s : AtomicStructure)
    (pbg : option (list (ptr * ptr))) (a : ptr) (st : CatState)
    : option (StructCat * CatState) :=
  if _structure_cats_dirty st then
    match _compute_structure_cats fuel w s pbg st with
    | None => None
    | Some st' =>
        match categories st' !! a with
        | None => None
        | Some c => Some (c, st')
        end
    end
  else
    match categories st !! a with
    | None => None
    | Some c => Some (c, st)
    end.

End Category.

End StructureCategory.

(* ===================================================================== *)
(** * The C interface (molc.cpp): exceptions, pointer arrays, session ids *)
(* ===================================================================== *)

Module Molc.

(** ** molc_error: from C++ exceptions to Python exceptions *)

(** The classes of the standard exception hierarchy, and [not_std] for an
    exception whose class does not derive from [std::exception]. *)
Inductive ExceptionClass :=
| std_exception
| bad_alloc | bad_cast
| logic_error | invalid_argument | domain_error | length_error | out_of_range
| runtime_error | range_error | overflow_error | underflow_error
| system_error | ios_base_failure
| not_std.

#[global] Instance ExceptionClass_eq_dec : EqDecision ExceptionClass.
Proof. solve_decision. Defined.

(** The direct base class. *)
Definition base (c : ExceptionClass) : option ExceptionClass :=
  match c with
  | std_exception | not_std => None
  | bad_alloc | bad_cast | logic_error | runtime_error => Some std_exception
  | invalid_argument | domain_error | length_error | out_of_range =>
      Some logic_error
  | range_error | overflow_error | underflow_error | system_error =>
      Some runtime_error
  | ios_base_failure => Some system_error
  end.

(** [catch (handler&)] takes an exception of class [c]: [c] is the handler
    class or derives from it.  The hierarchy is four levels deep. *)
Definition caught_by (c handler : ExceptionClass) : bool :=
  let up (x : option ExceptionClass) := x ≫= base in
  let c0 := Some c in
  let c1 := up c0 in
  let c2 := up c1 in
  let c3 := up c2 in
  bool_decide (Some handler ∈ [c0; c1; c2; c3]).

Inductive PyExc :=
| PyExc_MemoryError | PyExc_TypeError | PyExc_IndexError
| PyExc_OverflowError | PyExc_RuntimeError | PyExc_ValueError | PyExc_IOError.

(** The exception in flight: its class and what [what()] returns. *)
Record Thrown := { cls : ExceptionClass; what : string }.

(** The Python error indicator: [None] when no error is set. *)
Abbreviation PyErr := (option (PyExc * string)).

(** The catch clauses of molc_error in source order. *)
Definition handlers : list (ExceptionClass * PyExc) :=
  [ (bad_alloc, PyExc_MemoryError);
    (invalid_argument, PyExc_TypeError);
    (length_error, PyExc_MemoryError);
    (out_of_range, PyExc_IndexError);
    (overflow_error, PyExc_OverflowError);
    (range_error, PyExc_IndexError);
    (underflow_error, PyExc_RuntimeError);
    (logic_error, PyExc_ValueError);
    (ios_base_failure, PyExc_IOError);
    (runtime_error, PyExc_RuntimeError);
    (std_exception, PyExc_RuntimeError) ].

(** The text handed to [PyErr_SetString] by the clause for [handler]. *)
Definition message (handler : ExceptionClass) (e : Thrown) : string :=
  if decide (handler = bad_alloc) then "not enough memory" else what e.

(** The first clause that takes the exception; [catch (...)] when none
    does. *)
Fixpoint first_handler (hs : list (ExceptionClass * PyExc)) (e : Thrown)
    : PyExc * string :=
  match hs with
  | [] => (PyExc_RuntimeError, "unknown C++ exception"%string)
  | (handler, py) :: hs' =>
      if caught_by (cls e) handler then (py, message handler e)
      else first_handler hs' e
  end.

(** molc_error(), called from a [catch (...)] block with [e] in flight.
    The result is the Python error indicator afterwards. *)
Definition molc_error (PyErr_Occurred : PyErr) (e : Thrown) : PyErr :=
  match PyErr_Occurred with
  | Some _ => PyErr_Occurred
  | None => Some (first_handler handlers e)
  end.

(** ** structure_session_restore *)

Section SessionRestore.
Variable CURRENT_SESSION_VERSION : Z.
Variable AtomicStructure : Type.
Variable restore_streams :
  Z -> Session.PyObject -> Session.PyObject -> Session.PyObject ->
  AtomicStructure -> (nat * AtomicStructure + AtomicStructure).

(** The exception object behind each outcome of session_restore: the four
    guards throw [std::invalid_argument]; what the decoding of the streams
    throws is a parameter. *)
Variable stream_exception : nat -> Thrown.

Definition thrown (e : Session.exn) : Thrown :=
  match e with
  | Session.invalid_argument_new_session_data =>
      {| cls := invalid_argument;
         what := "Don't know how to restore new session data; update your version of ChimeraX" |}
  | Session.invalid_argument_first_arg =>
      {| cls := invalid_argument;
         what := "AtomicStructure::session_restore: first arg is not a 7-element list" |}
  | Session.invalid_argument_second_arg =>
      {| cls := invalid_argument;
         what := "AtomicStructure::session_restore: second arg is not a 7-element list" |}
  | Session.invalid_argument_third_arg =>
      {| cls := invalid_argument;
         what := "AtomicStructure::session_restore: third arg is not a 7-element list" |}
  | Session.stream_error code => stream_exception code
  end.

(** structure_session_restore(mol, version, ints, floats, misc): the
    structure and the Python error indicator afterwards. *)
Definition structure_session_restore (version : Z)
    (ints floats misc : Session.PyObject) (mol : AtomicStructure)
    (PyErr_Occurred : PyErr) : AtomicStructure * PyErr :=
  match Session.session_restore CURRENT_SESSION_VERSION AtomicStructure
          restore_streams version ints floats misc mol with
  | (Session.Restored, mol') => (mol', PyErr_Occurred)
  | (Session.Thrown e, mol') => (mol', molc_error PyErr_Occurred (thrown e))
  end.

End SessionRestore.

(** ** Pointer arrays *)

(** [int] and [ssize_t] results: a [size_t] index is converted to the
    signed type of the same or smaller width. *)
Definition to_int (x : Z) : Z := (x + 2 ^ 31) mod 2 ^ 32 - 2 ^ 31.
Definition to_ssize_t (x : Z) : Z := (x + 2 ^ 63) mod 2 ^ 64 - 2 ^ 63.

(** pointer_index(pointer_array, n, pointer): [i] counts the elements
    already passed. *)
Fixpoint pointer_index_from (i : Z) (pa : list ptr) (pointer : ptr) : Z :=
  match pa with
  | [] => -1
  | p :: pa' =>
      if decide (p = pointer) then to_ssize_t i
      else pointer_index_from (i + 1) pa' pointer
  end.

Definition pointer_index (pa : list ptr) (pointer : ptr) : Z :=
  pointer_index_from 0 pa pointer.

(** pointer_mask(pointer_array, n, pointer_array2, n2, mask): the bytes
    written to [mask]. *)
Definition pointer_mask (pa pa2 : list ptr) : list Z :=
  let s : gset ptr := list_to_set pa2 in
  (fun p => if decide (p ∈ s) then 1 else 0) <$> pa.

(** The map [s] of pointer_indices: [s[pa2[i]] = i] for [i] from 0 on. *)
Fixpoint index_map (i : Z) (pa2 : list ptr) (s : gmap ptr Z) : gmap ptr Z :=
  match pa2 with
  | [] => s
  | p :: pa2' => index_map (i + 1) pa2' (<[p := to_int i]> s)
  end.

(** pointer_indices(pointer_array, n, pointer_array2, n2, indices): the
    values written to [indices]. *)
Definition pointer_indices (pa pa2 : list ptr) : list Z :=
  let s := index_map 0 pa2 ∅ in
  (fun p => match s !! p with None => -1 | Some i => i end) <$> pa.

(** pointer_intersects(pointer_array, n, pointer_array2, n2). *)
Definition pointer_intersects (pa pa2 : list ptr) : bool :=
  let s : gset ptr := list_to_set pa2 in
  existsb (fun p => bool_decide (p ∈ s)) pa.

(** pointer_intersects_each(pointer_arrays, na, sizes, pointer_array, n,
    intersects): the flags written to [intersects]. *)
Definition pointer_intersects_each (pas : list (list ptr)) (pa : list ptr)
    : list bool :=
  let s : gset ptr := list_to_set pa in
  (fun pai => existsb (fun p => bool_decide (p ∈ s)) pai) <$> pas.

(** The index of the last occurrence of [p] in [l], counted from [i]. *)
Fixpoint last_index_from (i : Z) (l : list ptr) (p : ptr) : option Z :=
  match l with
  | [] => None
  | q :: l' =>
      match last_index_from (i + 1) l' p with
      | Some j => Some j
      | None => if decide (q = p) then Some i else None
      end
  end.

(** ** Session ids of atoms *)

(** The part of AtomicStructure::session_save_setup that fills
    [session_save_atoms]: each atom of [atoms()] with its index. *)
Fixpoint session_save_setup_from (index : Z) (atoms : list ptr)
    (m : gmap ptr Z) : gmap ptr Z :=
  match atoms with
  | [] => m
  | a :: atoms' => session_save_setup_from (index + 1) atoms' (<[a := index]> m)
  end.

(** The members read by the two id functions: the atom vector, and the
    table behind the pointer [session_save_atoms], [None] before
    session_save_setup has allocated it. *)
Record SessionIds := {
  atoms : list ptr;
  session_save_atoms : option (gmap ptr Z)
}.

Definition session_save_setup (m : SessionIds) : SessionIds :=
  {| atoms := atoms m;
     session_save_atoms := Some (session_save_setup_from 0 (atoms m) ∅) |}.

(** structure_session_atom_to_id(mol, atom): [operator[]] of the table,
    which yields 0 for an atom it does not hold.  Reading the table before
    it exists is undefined ([None]). *)
Definition structure_session_atom_to_id (m : SessionIds) (atom : ptr)
    : option Z :=
  tbl ← session_save_atoms m; Some (default 0 (tbl !! atom)).

(** structure_session_id_to_atom(mol, i): [atoms()[i]], undefined ([None])
    beyond the end of the vector. *)
Definition structure_session_id_to_atom (m : SessionIds) (i : Z) : option ptr :=
  if 0 <=? i then atoms m !! Z.to_nat i else None.

(** ** Chains *)

(** chain_num_existing_residues, for one chain: the residues of the chain
    that are not [nullptr]. *)
Definition chain_num_existing_residues (residues : list ptr) : nat :=
  foldl (fun num_sr r => if decide (r ≠ nullptr) then S num_sr else num_sr)
        0%nat residues.

(** Chain::no_structure_left (Chain.h). *)
Fixpoint no_structure_left (residues : list ptr) : bool :=
  match residues with
  | [] => true
  | r :: rest => if decide (r ≠ nullptr) then false else no_structure_left rest
  end.

(** ** atom_structure_category *)

Section StructureCategories.
Import AtomH.

Variable std_solvent_names : list string.
Variable is_noble_gas : nat -> bool.

(** The fuel given to each search loop of [bonded_groups], and the
    "missing structure" pseudobond group of each structure as its
    pseudobond manager returns it. *)
Variable fuel : nat.
Variable pbg_of : ptr -> option (list (ptr * ptr)).

(** The structures whose [_structure_cats_dirty] flag is set, and the
    [_structure_category] members of the atoms. *)
Record Categories := {
  dirty : gset ptr;
  categories : StructCats.Cats
}.

(** [a->structure_category()] for the atom at address [a]: the atom's own
    structure is the one whose flag is read and whose categories are
    computed.  [None] is undefined behaviour (a dangling pointer) or lack of
    fuel. *)
Definition structure_category (w : Graph.World) (a : ptr) (st : Categories)
    : option (StructCat * Categories) :=
  atom ← Graph.atoms w !! a;
  let sp := _structure atom in
  s ← Graph.structures w !! sp;
  '(c, st') ← StructureCategory.structure_category std_solvent_names
                is_noble_gas fuel w s (pbg_of sp) a
                {| StructureCategory._structure_cats_dirty := bool_decide (sp ∈ dirty st);
                   StructureCategory.categories := categories st |};
  Some (c, {| dirty := if StructureCategory._structure_cats_dirty st'
                       then dirty st else dirty st ∖ {[sp]};
              categories := StructureCategory.categories st' |}).

(** The loop of atom_structure_category: the names written so far, and the
    exception when one is thrown. *)
Fixpoint category_names (w : Graph.World) (a : list ptr) (st : Categories)
    (names : list string) : option (list string * Categories * option Thrown) :=
  match a with
  | [] => Some (names, st, None)
  | ai :: rest =>
      '(cat, st') ← structure_category w ai st;
      match cat with
      | Main => category_names w rest st' (names ++ ["main"%string])
      | Solvent => category_names w rest st' (names ++ ["solvent"%string])
      | Ligand => category_names w rest st' (names ++ ["ligand"%string])
      | Ions => category_names w rest st' (names ++ ["ions"%string])
      | Unassigned =>
          Some (names, st',
                Some {| cls := range_error;
                        what := "Unknown structure category" |})
      end
  end.

(** atom_structure_category(atoms, n, names): the names written, the
    categories and the Python error indicator afterwards. *)
Definition atom_structure_category (w : Graph.World) (a : list ptr)
    (st : Categories) (PyErr_Occurred : PyErr)
    : option (list string * Categories * PyErr) :=
  '(names, st', thrown) ← category_names w a st [];
  Some (names, st',
        match thrown with
        | None => PyErr_Occurred
        | Some e => molc_error PyErr_Occurred e
        end).

(** The atoms of a structure whose categories are not dirty have one. *)
Definition computed (w : Graph.World) (st : Categories) : Prop :=
  forall sp s b, Graph.structures w !! sp = Some s -> sp ∉ dirty st ->
                 b ∈ Graph._atoms s ->
                 StructureCategory.assigned (categories st) b.

(** The atom is live and is listed in the structure it points to, for
    which the fuel suffices. *)
Definition atom_of_its_structure (w : Graph.World) (a : ptr) : Prop :=
  exists atom s,
    Graph.atoms w !! a = Some atom
    /\ Graph.structures w !! _structure atom = Some s
    /\ a ∈ Graph._atoms s
    /\ (StructCats.enough_fuel w s (pbg_of (_structure atom)) <= fuel)%nat.

End StructureCategories.

(** [StructCats.shared_residue_world] with its structure at address 1, the
    address its atoms point to. *)
Definition example_categories_world : Graph.World :=
  Graph.set_structures StructCats.shared_residue_world
    {[ 1%nat := StructCats.example_structure [10; 11; 12; 13; 14]%nat
                  [21; 22]%nat ]}.

End Molc.

(* ===================================================================== *)
(** * Atom.h: the IDATM type of an atom                                   *)
(* ===================================================================== *)

Module IdatmType.

(** The one reason these setters hand to [add_modified]. *)
Inductive Reason := REASON_IDATM_TYPE.

(** The members of [class Atom] that the IDATM functions read or write.  An
    [AtomType] and the argument [const char* it] are C strings, kept as the
    text before the terminating NUL: a first character ['\0'] is the empty
    text.  [add_modified_calls] are the calls
    [change_tracker()->add_modified(this, reason)] the atom has made, oldest
    first. *)
Record Atom := {
  _computed_idatm_type : string;
  _explicit_idatm_type : string;
  add_modified_calls : list Reason
}.

Definition empty (s : string) : bool :=
  match s with EmptyString => true | String _ _ => false end.

(** Atom::idatm_is_explicit: [_explicit_idatm_type[0] != '\0']. *)
Definition idatm_is_explicit (a : Atom) : bool :=
  negb (empty (_explicit_idatm_type a)).

(** Atom::idatm_type in a structure whose types are valid ([_idatm_valid]),
    where nothing is computed. *)
Definition idatm_type (a : Atom) : string :=
  if idatm_is_explicit a then _explicit_idatm_type a
  else _computed_idatm_type a.

(** Atom::set_computed_idatm_type. *)
Definition set_computed_idatm_type (it : string) (a : Atom) : Atom :=
  {| _computed_idatm_type := it;
     _explicit_idatm_type := _explicit_idatm_type a;
     add_modified_calls :=
       if negb (idatm_is_explicit a)
          && negb (String.eqb (_computed_idatm_type a) it)
       then add_modified_calls a ++ [REASON_IDATM_TYPE]
       else add_modified_calls a |}.

(** Atom::set_idatm_type, given a C string. *)
Definition set_idatm_type (it : string) (a : Atom) : Atom :=
  {| _computed_idatm_type := _computed_idatm_type a;
     _explicit_idatm_type := it;
     add_modified_calls :=
       if negb (empty (_explicit_idatm_type a)
                && String.eqb (_computed_idatm_type a) it)
          && negb (empty it
                   && String.eqb (_explicit_idatm_type a)
                        (_computed_idatm_type a))
          && negb (negb (empty (_explicit_idatm_type a))
                   && String.eqb it (_explicit_idatm_type a))
       then add_modified_calls a ++ [REASON_IDATM_TYPE]
       else add_modified_calls a |}.

End IdatmType.

(* ===================================================================== *)
(** * Pseudobond groups: forgetting a coordinate set                      *)
(* ===================================================================== *)

Module ProxyCoordSets.
Import PBGroup Proxy_PBGroup.

(** Proxy_PBGroup::remove_cs. *)
Definition remove_cs (cs : ptr) (p : Proxy_PBGroup.t) : result Proxy_PBGroup.t :=
  if _group_type p =? AS_PBManager.GRP_PER_CS then
    match as_CS_PBGroup p with
    | Some g => Value (set_proxied p (IsCS_PBGroup (CS_PBGroup.remove_cs cs g)))
    | None => Undefined
    end
  else Value p.

(** What [pseudobonds(cs)] returns, when it returns. *)
Definition answer (r : result (Pseudobonds * Proxy_PBGroup.t)) : option Pseudobonds :=
  match r with Value (s, _) => Some s | _ => None end.

End ProxyCoordSets.

(* ===================================================================== *)
(** * Rings of a structure (AtomicStructure::rings)                       *)
(* ===================================================================== *)

Module Rings.

(** A ring as [rings] reads it: its address in [_rings], and what
    [r.atoms()] and [r.bonds()] yield, in the order of the iteration. *)
Record Ring := {
  address : ptr;
  atoms : list ptr;
  bonds : list ptr
}.

(** The mutable members of the structure that [rings] reads or writes, the
    [_rings] members of the live atoms and of the live bonds (vectors of
    ring addresses), and the number of calls of [_calculate_rings] made so
    far. *)
Record State := {
  _recompute_rings : bool;
  _rings_last_cross_residues : bool;
  _rings_last_all_size_threshold : Z;
  _rings_last_ignore : ptr;
  _rings : list Ring;
  atom_rings : gmap ptr (list ptr);
  bond_rings : gmap ptr (list ptr);
  calculations : nat
}.

Section Rings.

(** [_calculate_rings] is defined outside this file: the rings it leaves in
    [_rings]. *)
Variable _calculate_rings : bool -> Z -> ptr -> list Ring -> list Ring.

(** [atoms()] and [bonds()] of the structure. *)
Variable structure_atoms structure_bonds : list ptr.

(** AtomicStructure::_rings_cached. *)
Definition _rings_cached (cross_residues : bool) (all_size_threshold : Z)
    (ignore : ptr) (st : State) : bool :=
  negb (_recompute_rings st)
  && Bool.eqb cross_residues (_rings_last_cross_residues st)
  && (all_size_threshold =? _rings_last_all_size_threshold st)
  && bool_decide (ignore = _rings_last_ignore st).

(** [for (auto a: atoms()) a->_rings.clear();], and the same for bonds.
    Writing through a dangling pointer is undefined ([None]). *)
Fixpoint clear_all (l : list ptr) (m : gmap ptr (list ptr))
    : option (gmap ptr (list ptr)) :=
  match l with
  | [] => Some m
  | a :: rest =>
      match m !! a with
      | None => None
      | Some _ => clear_all rest (<[a := []]> m)
      end
  end.

(** [for (auto a: r.atoms()) a->_rings.push_back(&r);], and the same for
    bonds. *)
Fixpoint push_all (r : ptr) (l : list ptr) (m : gmap ptr (list ptr))
    : option (gmap ptr (list ptr)) :=
  match l with
  | [] => Some m
  | a :: rest =>
      match m !! a with
      | None => None
      | Some rs => push_all r rest (<[a := rs ++ [r]]> m)
      end
  end.

(** [for (auto& r: _rings) { ... }]. *)
Fixpoint note_rings (rings : list Ring) (am bm : gmap ptr (list ptr))
    : option (gmap ptr (list ptr) * gmap ptr (list ptr)) :=
  match rings with
  | [] => Some (am, bm)
  | r :: rest =>
      am' ← push_all (address r) (atoms r) am;
      bm' ← push_all (address r) (bonds r) bm;
      note_rings rest am' bm'
  end.

(** AtomicStructure::rings(cross_residues, all_size_threshold, ignore): the
    rings returned and the state afterwards. *)
Definition rings (cross_residues : bool) (all_size_threshold : Z)
    (ignore : ptr) (st : State) : option (list Ring * State) :=
  if _rings_cached cross_residues all_size_threshold ignore st then
    Some (_rings st, st)
  else
    let calculated :=
      _calculate_rings cross_residues all_size_threshold ignore (_rings st) in
    am ← clear_all structure_atoms (atom_rings st);
    bm ← clear_all structure_bonds (bond_rings st);
    '(am', bm') ← note_rings calculated am bm;
    Some (calculated,
          {| _recompute_rings := false;
             _rings_last_cross_residues := cross_residues;
             _rings_last_all_size_threshold := all_size_threshold;
             _rings_last_ignore := ignore;
             _rings := calculated;
             atom_rings := am';
             bond_rings := bm';
             calculations := S (calculations st) |}).

(** The ring list [l] of [x] names exactly the rings that hold [x]. *)
Definition names_the_rings_of (members : Ring -> list ptr) (rs : list Ring)
    (x : ptr) (l : list ptr) : Prop :=
  forall q, q ∈ l <-> exists r, r ∈ rs /\ address r = q /\ x ∈ members r.

End Rings.

(** A benzene-like run: one ring at address 50 through atoms 10, 11, 12 and
    bonds 20, 21, 22; atom 13 and bond 23 are outside it. *)
Definition example_ring : Ring :=
  {| address := 50; atoms := [10; 11; 12]%nat; bonds := [20; 21; 22]%nat |}.

Definition example_state : State :=
  {| _recompute_rings := true;
     _rings_last_cross_residues := false;
     _rings_last_all_size_threshold := 0;
     _rings_last_ignore := nullptr;
     _rings := [];
     atom_rings := {[ 10%nat := [40%nat]; 11%nat := []; 12%nat := [];
                      13%nat := [40%nat] ]};
     bond_rings := {[ 20%nat := []; 21%nat := []; 22%nat := [];
                      23%nat := [] ]};
     calculations := 0 |}.

End Rings.

(* ===================================================================== *)
(** * Theorems                                                            *)
(* ===================================================================== *)

Module SessionFacts.
Import Session.

(** C6: a requested version above the current session version makes
    [session_restore] throw the "new session data" error with the structure
    left as it was; a version at most the current one is never rejected by
    that guard, and with three seven-element lists the call proceeds to the
    decoding of the streams and ends as the decoding ends: restored, or
    with the exception thrown there and the structure as far as it had been
    rebuilt. *)
Theorem session_restore_version_guard
    (CURRENT : Z) (S : Type)
    (body : Z -> PyObject -> PyObject -> PyObject -> S -> (nat * S + S))
    (version : Z) (ints floats misc : PyObject) (s : S) :
  (version > CURRENT ->
     session_restore CURRENT S body version ints floats misc s
     = (Thrown invalid_argument_new_session_data, s))
  /\
  (version <= CURRENT ->
     fst (session_restore CURRENT S body version ints floats misc s)
       <> Thrown invalid_argument_new_session_data
     /\ (seven_lists ints floats misc ->
         session_restore CURRENT S body version ints floats misc s
         = match body version ints floats misc s with
           | inl (code, s') => (Thrown (stream_error code), s')
           | inr s' => (Restored, s')
           end)).
Proof.
  unfold session_restore. split.
  - intros Hgt. destruct (Z.gtb_spec version CURRENT); [reflexivity | lia].
  - intros Hle. destruct (Z.gtb_spec version CURRENT); [lia |]. split.
    + repeat match goal with
             | |- context [if ?c then _ else _] => destruct c; simpl
             end; try discriminate.
      destruct (body version ints floats misc s) as [[code s'] | s'];
        simpl; discriminate.
    + intros [[-> ->] [[-> ->] [-> ->]]]. reflexivity.
Qed.

(** An instance: with current version 1, version 2 is refused with the
    structure untouched, and version 1 with three lists of seven items is
    let through to the decoding, which here restores. *)
Lemma session_restore_version_guard_witness :
  session_restore 1 nat (fun _ _ _ _ n => inr (S n)) 2
      seven_items seven_items seven_items 5%nat
    = (Thrown invalid_argument_new_session_data, 5%nat)
  /\ fst (session_restore 1 nat (fun _ _ _ _ n => inr (S n)) 1
            seven_items seven_items seven_items 5%nat)
     <> Thrown invalid_argument_new_session_data
  /\ session_restore 1 nat (fun _ _ _ _ n => inr (S n)) 1
        seven_items seven_items seven_items 5%nat
     = (Restored, 6%nat).
Proof.
  split; [| split].
  - apply (proj1 (session_restore_version_guard 1 nat
                    (fun _ _ _ _ n => inr (S n)) 2
                    seven_items seven_items seven_items 5%nat)).
    lia.
  - apply (proj2 (session_restore_version_guard 1 nat
                    (fun _ _ _ _ n => inr (S n)) 1
                    seven_items seven_items seven_items 5%nat)).
    lia.
  - apply (proj2 (proj2 (session_restore_version_guard 1 nat
                           (fun _ _ _ _ n => inr (S n)) 1
                           seven_items seven_items seven_items 5%nat)
                    ltac:(lia))).
    repeat split.
Defined.

End SessionFacts.

Module AssocFacts.
Import Assoc.

Lemma to_uint_small x : 0 <= x < UINT_MOD -> to_uint x = x.
Proof. intros H. unfold to_uint. apply Z.mod_small. exact H. Qed.

Lemma total_gap_nonneg gaps : Forall (fun g => 0 <= g) gaps -> 0 <= total_gap gaps.
Proof.
  unfold total_gap.
  induction 1 as [|g gaps Hg _ IH]; simpl; lia.
Qed.

(** The wrapping accumulation agrees with the exact sum as long as the exact
    sum stays below 2^32. *)
Lemma gap_sum_acc gaps : forall acc,
  Forall (fun g => 0 <= g) gaps -> 0 <= acc ->
  acc + total_gap gaps < UINT_MOD ->
  fold_left (fun gap_sum gap => to_uint (gap_sum + gap)) gaps acc
  = acc + total_gap gaps.
Proof.
  induction gaps as [|g gaps IH]; intros acc Hall Hacc Hlt.
  - unfold total_gap. simpl. lia.
  - inversion Hall as [|? ? Hg Hrest]; subst.
    pose proof (total_gap_nonneg gaps Hrest) as Hnn.
    change (total_gap (g :: gaps)) with (g + total_gap gaps) in *.
    cbn [fold_left]. rewrite to_uint_small by lia.
    rewrite IH by (try assumption; lia). lia.
Qed.

(** C7: the [max_errs] value that make_chains passes to [try_assoc] is
    min(seq_len/2, max(seq_len/10, total_gap)), with seq_len the chain's
    length and total_gap the sum of the estimated gap sizes, whenever the
    length and the sum are representable as [unsigned int]. *)
Theorem max_errs_is_spec_error_budget (chain_size : Z) (gaps : list Z) :
  0 <= chain_size < UINT_MOD ->
  Forall (fun g => 0 <= g) gaps ->
  total_gap gaps < UINT_MOD ->
  max_errs chain_size gaps = spec_error_budget chain_size gaps.
Proof.
  intros Hsz Hall Hsum. unfold max_errs, spec_error_budget, gap_sum_loop.
  rewrite to_uint_small by exact Hsz.
  rewrite gap_sum_acc by (try assumption; lia).
  reflexivity.
Qed.

(** An instance: a chain of 300 residues with gaps 4, 12 and 25 gets budget
    min(150, max(30, 41)) = 41. *)
Lemma max_errs_is_spec_error_budget_witness :
  max_errs 300 [4; 12; 25] = spec_error_budget 300 [4; 12; 25]
  /\ max_errs 300 [4; 12; 25] = 41.
Proof.
  split.
  - apply (max_errs_is_spec_error_budget 300 [4; 12; 25]).
    + unfold UINT_MOD. lia.
    + repeat constructor; lia.
    + vm_compute. reflexivity.
  - vm_compute. reflexivity.
Defined.

End AssocFacts.

Module AtomFacts.
Import ChangeTracker AtomH.

(** C10: [set_name] with the current name returns the atom and the change
    tracker as they were; with a different name the atom carries the new
    name, all its other members are as before, and the tracker has received
    exactly one [add_modified] for this atom, whose effect is one more
    reason, "name", at the end of the Atom slot's reason list and the atom
    in that slot's modified set, every other slot being untouched. *)
Theorem set_name_effect (this : ptr) (name : string) (a : Atom)
    (ct : ChangeTracker.t) :
  (name = _name a -> set_name this name (a, ct) = (a, ct))
  /\
  (name <> _name a ->
     let a' := fst (set_name this name (a, ct)) in
     let ct' := snd (set_name this name (a, ct)) in
     _name a' = name
     /\ a' = with_name a name
     /\ ct' = add_modified AtomClass this "name" ct
     /\ reasons (ct' AtomClass) = reasons (ct AtomClass) ++ ["name"%string]
     /\ modified (ct' AtomClass) = {[this]} ∪ modified (ct AtomClass)
     /\ created (ct' AtomClass) = created (ct AtomClass)
     /\ num_deleted (ct' AtomClass) = num_deleted (ct AtomClass)
     /\ forall cls, cls <> AtomClass -> ct' cls = ct cls).
Proof.
  unfold set_name. split; intros H.
  - destruct (decide (name = _name a)); [reflexivity | contradiction].
  - destruct (decide (name = _name a)); [contradiction |].
    unfold add_modified, REASON_NAME. simpl.
    repeat split; try reflexivity.
    intros cls Hcls. destruct (decide (cls = AtomClass)); [contradiction | reflexivity].
Qed.

(** An instance: renaming the atom "CA" at address 7 to "CA", and to "CB". *)
Lemma set_name_effect_witness :
  let a := {| _name := "CA"; _element := 6; _residue := 1; _structure := 1;
              _neighbors := []; _structure_category := Unassigned |} in
  set_name 7 "CA" (a, fun _ => no_changes) = (a, fun _ => no_changes)
  /\ reasons (snd (set_name 7 "CB" (a, fun _ => no_changes)) AtomClass)
     = reasons no_changes ++ ["name"%string].
Proof.
  intros a. split.
  - apply (proj1 (set_name_effect 7 "CA" a (fun _ => no_changes))). reflexivity.
  - apply (proj2 (set_name_effect 7 "CB" a (fun _ => no_changes))). discriminate.
Defined.

End AtomFacts.

Module CoordSetFacts.
Import CoordSets.

Lemma id_lt_irrefl h p : ~ id_lt h p p.
Proof. intros (i & j & Hi & Hj & Hlt). rewrite Hi in Hj. injection Hj as <-. lia. Qed.

(** In a sorted vector the last element carries the largest id. *)
Lemma last_is_max h (l : list ptr) back :
  StronglySorted (id_lt h) l -> last l = Some back ->
  forall p, p ∈ l -> p = back \/ id_lt h p back.
Proof.
  induction 1 as [|x l Hs IH Hall]; intros Hlast p Hp.
  - inversion Hp.
  - destruct l as [|y l'].
    + simpl in Hlast. injection Hlast as <-.
      apply list_elem_of_singleton in Hp. now left.
    + assert (Hl : last (y :: l') = Some back) by exact Hlast.
      apply elem_of_cons in Hp as [-> | Hp].
      * right. rewrite Forall_forall in Hall. apply Hall.
        apply last_Some_elem_of in Hl. exact Hl.
      * apply IH; assumption.
Qed.

(** The loop meets the element whose id is [index], deletes the object and
    inserts the new pointer in front of the stale one. *)
Lemma insert_loop_same_id h cs index old : forall rest before,
  StronglySorted (id_lt h) rest ->
  Forall (fun p => is_Some (h !! p)) rest ->
  old ∈ rest -> id h old = Some index ->
  exists l h',
    insert_loop before rest cs index h = Some (l, h')
    /\ length l = S (length before + length rest)
    /\ cs ∈ l /\ old ∈ l /\ h' !! old = None.
Proof.
  induction rest as [|csi rest IH]; intros before Hs Hlive Hold Hid.
  - inversion Hold.
  - inversion Hs as [|? ? Hs' Hall]; subst.
    inversion Hlive as [|? ? [c Hc] Hlive']; subst.
    cbn [insert_loop]. unfold id at 1. rewrite Hc. cbn [fmap option_fmap option_map].
    assert (Hle : _cs_id c <= index).
    { apply elem_of_cons in Hold as [-> | Hin].
      - unfold id in Hid. rewrite Hc in Hid. simpl in Hid. injection Hid as ->. lia.
      - rewrite Forall_forall in Hall.
        destruct (Hall old Hin) as (i & j & Hi & Hj & Hlt).
        unfold id in Hi. rewrite Hc in Hi. simpl in Hi. injection Hi as <-.
        rewrite Hid in Hj. injection Hj as <-. lia. }
    destruct (Z.ltb_spec index (_cs_id c)); [lia |].
    destruct (Z.eqb_spec index (_cs_id c)) as [Heq | Hne].
    + assert (old = csi) as ->.
      { apply elem_of_cons in Hold as [-> | Hin]; [reflexivity |].
        rewrite Forall_forall in Hall.
        destruct (Hall old Hin) as (i & j & Hi & Hj & Hlt).
        unfold id in Hi. rewrite Hc in Hi. simpl in Hi. injection Hi as <-.
        rewrite Hid in Hj. injection Hj as <-. lia. }
      eexists _, _. split; [reflexivity |].
      repeat split.
      * rewrite length_app. simpl. lia.
      * apply elem_of_app. right. apply elem_of_cons. now left.
      * apply elem_of_app. right. apply elem_of_cons. right.
        apply elem_of_cons. now left.
      * apply lookup_delete_eq.
    + assert (Hin : old ∈ rest).
      { apply elem_of_cons in Hold as [-> | Hin]; [| exact Hin].
        unfold id in Hid. rewrite Hc in Hid. simpl in Hid. injection Hid as ?. lia. }
      destruct (IH (before ++ [csi]) Hs' Hlive' Hin Hid)
        as (l & h' & Hrun & Hlen & Hcs & Ho & Hd).
      exists l, h'. rewrite Hrun. repeat split; try assumption.
      rewrite Hlen, length_app. simpl. lia.
Qed.

Lemma id_insert_other (h : Heap) fresh c p :
  h !! fresh = None -> is_Some (h !! p) -> id (<[fresh := c]> h) p = id h p.
Proof.
  intros Hf [x Hx]. unfold id. rewrite lookup_insert_ne; [reflexivity |].
  intros ->. congruence.
Qed.

Lemma sorted_insert_other (h : Heap) fresh c (l : list ptr) :
  h !! fresh = None -> Forall (fun p => is_Some (h !! p)) l ->
  StronglySorted (id_lt h) l -> StronglySorted (id_lt (<[fresh := c]> h)) l.
Proof.
  intros Hf Hlive Hs. induction Hs as [|x l Hs IH Hall]; constructor.
  - apply IH. now inversion Hlive.
  - inversion Hlive as [|? ? Hx Hl]; subst.
    rewrite Forall_forall in *. intros q Hq.
    destruct (Hall q Hq) as (i & j & Hi & Hj & Hlt).
    exists i, j. rewrite !id_insert_other; auto.
Qed.

Lemma id_lt_trans h p q r : id_lt h p q -> id_lt h q r -> id_lt h p r.
Proof.
  intros (i & j & Hi & Hj & Hij) (j' & k & Hj' & Hk & Hjk).
  rewrite Hj in Hj'. injection Hj' as <-. exists i, k. repeat split; auto. lia.
Qed.

(** For an id that no coordinate set has yet, the loop inserts the new
    pointer in front of the first larger id and the vector stays sorted. *)
Lemma insert_loop_new_id h cs index : forall rest before,
  StronglySorted (id_lt h) (before ++ rest) ->
  id h cs = Some index ->
  (forall p, p ∈ before -> id_lt h p cs) ->
  (forall p, p ∈ rest -> id h p <> Some index) ->
  (exists p, p ∈ rest /\ id_lt h cs p) ->
  exists l,
    insert_loop before rest cs index h = Some (l, h)
    /\ StronglySorted (id_lt h) l
    /\ (forall x, x ∈ l <-> x = cs \/ x ∈ before ++ rest).
Proof.
  induction rest as [|csi rest IH]; intros before Hs Hcs Hbefore Hnew (p & Hp & Hlt).
  - inversion Hp.
  - assert (Hcsi : exists i, id h csi = Some i).
    { apply elem_of_cons in Hp as [-> | Hp].
      - destruct Hlt as (_ & j & _ & Hj & _). eauto.
      - apply StronglySorted_app_1_r in Hs. inversion Hs as [|? ? _ Hall]; subst.
        rewrite Forall_forall in Hall. destruct (Hall p Hp) as (i & _ & Hi & _). eauto. }
    destruct Hcsi as [i Hi]. cbn [insert_loop]. rewrite Hi.
    assert (Hne : index <> i).
    { intros ->. apply (Hnew csi); [left | exact Hi]. }
    destruct (Z.ltb_spec index i) as [Hlti | Hgei].
    + eexists. split; [reflexivity |]. split.
      * apply StronglySorted_app in Hs as (Hcross & Hb & Hr).
        apply StronglySorted_app. split; [| split; [exact Hb |]].
        -- intros x1 x2 Hx1 Hx2. apply elem_of_cons in Hx2 as [-> | Hx2]; auto.
        -- constructor; [exact Hr |].
           assert (Hfirst : id_lt h cs csi) by (exists index, i; auto).
           inversion Hr as [|? ? _ Hall]; subst.
           constructor; [exact Hfirst |].
           rewrite Forall_forall in *. intros x Hx.
           apply (id_lt_trans h cs csi x Hfirst). now apply Hall.
      * intros x. rewrite !elem_of_app, !elem_of_cons. tauto.
    + destruct (Z.eqb_spec index i) as [Heq | _]; [contradiction |].
      assert (Hcsi_lt : id_lt h csi cs) by (exists i, index; repeat split; auto; lia).
      destruct (IH (before ++ [csi])) as (l & Hrun & Hsorted & Hmem).
      * now rewrite <- app_assoc.
      * exact Hcs.
      * intros x Hx. apply elem_of_app in Hx as [Hx | Hx]; [now apply Hbefore |].
        apply list_elem_of_singleton in Hx as ->. exact Hcsi_lt.
      * intros x Hx. apply Hnew. now right.
      * exists p. split; [| exact Hlt].
        apply elem_of_cons in Hp as [-> | Hp]; [| exact Hp].
        exfalso. apply (id_lt_irrefl h csi). now apply (id_lt_trans h csi cs csi).
      * exists l. split; [exact Hrun |]. split; [exact Hsorted |].
        intros x. rewrite Hmem, <- app_assoc. reflexivity.
Qed.

(** A coordinate set whose id is new goes to its place in id order, nothing
    is deleted, and the vector stays sorted with every pointer live. *)
Lemma new_coord_set_new_id_keeps_sorted
    (st : State) (fresh : ptr) (index : Z) (size : nat) :
  well_formed st ->
  heap st !! fresh = None ->
  (forall p, p ∈ _coord_sets st -> id (heap st) p <> Some index) ->
  exists st',
    new_coord_set_sized fresh index size st = Some (fresh, st')
    /\ well_formed st'
    /\ (forall x, x ∈ _coord_sets st' <-> x = fresh \/ x ∈ _coord_sets st).
Proof.
  intros [Hlive Hs] Hfresh Hnew.
  unfold new_coord_set_sized, _coord_set_insert.
  set (c := {| _cs_id := index; coords_size := size |}).
  set (h := <[fresh := c]> (heap st)).
  assert (Hlive' : Forall (fun p => is_Some (h !! p)) (_coord_sets st)).
  { rewrite Forall_forall in *. intros p Hp. destruct (Hlive p Hp) as [x Hx].
    exists x. unfold h. rewrite lookup_insert_ne; [exact Hx | congruence]. }
  assert (Hs' : StronglySorted (id_lt h) (_coord_sets st))
    by now apply sorted_insert_other.
  assert (Hcs : id h fresh = Some index).
  { unfold id, h. now rewrite lookup_insert_eq. }
  assert (Hfl : is_Some (h !! fresh)) by (unfold h; rewrite lookup_insert_eq; eauto).
  assert (Hnew' : forall p, p ∈ _coord_sets st -> id h p <> Some index).
  { intros p Hp. unfold h. rewrite id_insert_other; auto.
    rewrite Forall_forall in Hlive. now apply Hlive. }
  destruct (last (_coord_sets st)) as [back |] eqn:Hlast.
  - assert (Hback : back ∈ _coord_sets st) by now apply last_Some_elem_of.
    assert (Hbl : is_Some (h !! back)).
    { rewrite Forall_forall in Hlive'. now apply Hlive'. }
    destruct Hbl as [b Hb].
    assert (Hbid : id h back = Some (_cs_id b)) by (unfold id; now rewrite Hb).
    rewrite Hbid.
    destruct (Z.ltb_spec (_cs_id b) index) as [Hlt | Hge].
    + eexists. split; [reflexivity |]. cbn [_coord_sets heap]. split; [split |].
      * apply Forall_app. split; [exact Hlive' | now repeat constructor].
      * apply StronglySorted_app. split; [| split; [exact Hs' | repeat constructor]].
        intros x1 x2 Hx1 Hx2. apply list_elem_of_singleton in Hx2 as ->.
        assert (Hb_lt : id_lt h back fresh) by (exists (_cs_id b), index; auto).
        destruct (last_is_max h _ back Hs' Hlast x1 Hx1) as [-> | Hx]; [exact Hb_lt |].
        now apply (id_lt_trans h x1 back fresh).
      * intros x. rewrite elem_of_app, list_elem_of_singleton. tauto.
    + destruct (insert_loop_new_id h fresh index (_coord_sets st) [])
        as (l & Hrun & Hsorted & Hmem).
      * exact Hs'.
      * exact Hcs.
      * intros p Hp. inversion Hp.
      * exact Hnew'.
      * exists back. split; [exact Hback |]. exists index, (_cs_id b).
        repeat split; auto. specialize (Hnew' back Hback). rewrite Hbid in Hnew'.
        assert (_cs_id b <> index) by congruence. lia.
      * rewrite Hrun. eexists. split; [reflexivity |]. cbn [_coord_sets heap].
        split; [split |].
        -- rewrite Forall_forall in *. intros x Hx. apply Hmem in Hx as [-> | Hx]; auto.
        -- exact Hsorted.
        -- intros x. rewrite Hmem. reflexivity.
  - apply last_None in Hlast. rewrite Hlast in *.
    eexists. split; [reflexivity |]. cbn [_coord_sets heap]. split; [split |].
    + now repeat constructor.
    + repeat constructor.
    + intros x. simpl. rewrite list_elem_of_singleton.
      split; [auto | intros [H | H]; [exact H | inversion H]].
Qed.

(** C9 (the replacement step): in a structure whose coordinate sets are all
    live and sorted by strictly increasing id, creating a coordinate set
    whose id equals that of an existing one succeeds, but the vector grows by
    one: the new pointer is inserted and the pointer of the deleted object
    stays in the vector, dangling. *)
Theorem new_coord_set_same_id_keeps_stale_pointer
    (st : State) (fresh old : ptr) (index : Z) (size : nat) :
  well_formed st ->
  heap st !! fresh = None ->
  old ∈ _coord_sets st ->
  id (heap st) old = Some index ->
  exists st',
    new_coord_set_sized fresh index size st = Some (fresh, st')
    /\ length (_coord_sets st') = S (length (_coord_sets st))
    /\ fresh ∈ _coord_sets st'
    /\ dangling st' old.
Proof.
  intros [Hlive Hs] Hfresh Hold Hid.
  unfold new_coord_set_sized, _coord_set_insert.
  set (c := {| _cs_id := index; coords_size := size |}).
  set (h := <[fresh := c]> (heap st)).
  assert (Hlive' : Forall (fun p => is_Some (h !! p)) (_coord_sets st)).
  { rewrite Forall_forall in *. intros p Hp. destruct (Hlive p Hp) as [x Hx].
    exists x. unfold h. rewrite lookup_insert_ne; [exact Hx | congruence]. }
  assert (Hs' : StronglySorted (id_lt h) (_coord_sets st))
    by now apply sorted_insert_other.
  assert (Hid' : id h old = Some index).
  { unfold h. rewrite id_insert_other; auto.
    rewrite Forall_forall in Hlive. now apply Hlive. }
  destruct (last (_coord_sets st)) as [back |] eqn:Hlast.
  2: { apply last_None in Hlast. rewrite Hlast in Hold. inversion Hold. }
  assert (Hback : back ∈ _coord_sets st) by now apply last_Some_elem_of.
  assert (Hbl : is_Some (h !! back)).
  { rewrite Forall_forall in Hlive'. now apply Hlive'. }
  destruct Hbl as [b Hb]. unfold id at 1. rewrite Hb.
  cbn [fmap option_fmap option_map].
  assert (Hge : index <= _cs_id b).
  { destruct (last_is_max h _ back Hs' Hlast old Hold) as [-> | (i & j & Hi & Hj & Hlt)].
    - unfold id in Hid'. rewrite Hb in Hid'. simpl in Hid'. injection Hid' as ->. lia.
    - rewrite Hid' in Hi. injection Hi as <-.
      unfold id in Hj. rewrite Hb in Hj. simpl in Hj. injection Hj as <-. lia. }
  destruct (Z.ltb_spec (_cs_id b) index); [lia |].
  destruct (insert_loop_same_id h fresh index old (_coord_sets st) [] Hs' Hlive' Hold Hid')
    as (l & h' & Hrun & Hlen & Hcs & Ho & Hd).
  rewrite Hrun. eexists. split; [reflexivity |]. simpl.
  repeat split; assumption.
Qed.

(** An instance, the smallest one: one coordinate set
    with id 0 at address 1, and [new_coord_set(0, 3)] returning address 2. *)
Lemma new_coord_set_same_id_keeps_stale_pointer_witness :
  exists st',
    new_coord_set_sized 2 0 3
      {| _coord_sets := [1%nat];
         heap := {[ 1%nat := {| _cs_id := 0; coords_size := 3 |} ]} |}
    = Some (2%nat, st')
    /\ length (_coord_sets st') = 2%nat
    /\ 2%nat ∈ _coord_sets st'
    /\ dangling st' 1%nat.
Proof.
  apply (new_coord_set_same_id_keeps_stale_pointer
           {| _coord_sets := [1%nat];
              heap := {[ 1%nat := {| _cs_id := 0; coords_size := 3 |} ]} |}
           2%nat 1%nat 0 3%nat).
  - split; simpl.
    + repeat constructor. exists {| _cs_id := 0; coords_size := 3 |}. reflexivity.
    + repeat constructor.
  - reflexivity.
  - simpl. apply elem_of_cons. now left.
  - reflexivity.
Defined.

(** The same call evaluated: the vector afterwards is [new; old] and the
    free store holds only the new object. *)
Example new_coord_set_same_id_run :
  new_coord_set_sized 2 0 3
    {| _coord_sets := [1%nat];
       heap := {[ 1%nat := {| _cs_id := 0; coords_size := 3 |} ]} |}
  = Some (2%nat,
          {| _coord_sets := [2%nat; 1%nat];
             heap := delete 1%nat
                       (<[2%nat := {| _cs_id := 0; coords_size := 3 |}]>
                          {[ 1%nat := {| _cs_id := 0; coords_size := 3 |} ]}) |}).
Proof. reflexivity. Qed.

(** [new_coord_set()] on the same structure asks for the id of the last
    coordinate set and so takes the same path. *)
Example new_coord_set_default_run :
  new_coord_set_default 2
    {| _coord_sets := [1%nat];
       heap := {[ 1%nat := {| _cs_id := 0; coords_size := 3 |} ]} |}
  = Some (2%nat,
          {| _coord_sets := [2%nat; 1%nat];
             heap := delete 1%nat
                       (<[2%nat := {| _cs_id := 0; coords_size := 3 |}]>
                          {[ 1%nat := {| _cs_id := 0; coords_size := 3 |} ]}) |}).
Proof. reflexivity. Qed.

End CoordSetFacts.

Module PBGroupFacts.
Import PBGroup Proxy_PBGroup.

Abbreviation GRP_NORMAL := AS_PBManager.GRP_NORMAL.
Abbreviation GRP_PER_CS := AS_PBManager.GRP_PER_CS.

(** The members that return the result of the implementation call reach
    exactly one implementation. *)
Lemma returning_members_exclusive :
  exclusive category m_category
  /\ exclusive get_default_color m_get_default_color
  /\ exclusive get_default_halfbond m_get_default_halfbond
  /\ exclusive session_num_ints m_session_num_ints
  /\ exclusive session_num_floats m_session_num_floats
  /\ exclusive session_restore m_session_restore
  /\ exclusive session_save m_session_save
  /\ exclusive structure m_structure
  /\ exclusive get_gc_color m_get_gc_color
  /\ exclusive get_gc_select m_get_gc_select
  /\ exclusive get_gc_shape m_get_gc_shape.
Proof.
  repeat split; intros tag;
    match goal with |- ?f tag = _ => unfold f, selected, is_normal end;
    destruct (tag =? AS_PBManager.GRP_NORMAL); reflexivity.
Qed.

(** For a tag other than GRP_NORMAL the members without [return] reach the
    CS_PBGroup implementation only. *)
Lemma void_members_per_cs (tag : Z) :
  tag <> GRP_NORMAL ->
  check_destroyed_atoms tag = [Invoke CS_PBGroup m_check_destroyed_atoms]
  /\ clear tag = [Invoke CS_PBGroup m_clear]
  /\ set_default_color tag = [Invoke CS_PBGroup m_set_default_color]
  /\ set_default_halfbond tag = [Invoke CS_PBGroup m_set_default_halfbond]
  /\ gc_clear tag = [Invoke CS_PBGroup m_gc_clear]
  /\ set_gc_color tag = [Invoke CS_PBGroup m_set_gc_color]
  /\ set_gc_select tag = [Invoke CS_PBGroup m_set_gc_select]
  /\ set_gc_shape tag = [Invoke CS_PBGroup m_set_gc_shape].
Proof.
  intros Hne.
  unfold check_destroyed_atoms, clear, set_default_color, set_default_halfbond,
    gc_clear, set_gc_color, set_gc_select, set_gc_shape, is_normal.
  destruct (Z.eqb_spec tag AS_PBManager.GRP_NORMAL) as [-> | _];
    [now contradiction Hne | repeat split].
Qed.

(** C3 (what the code does for a GRP_NORMAL group): each of
    [check_destroyed_atoms], [clear], [set_default_color],
    [set_default_halfbond], [gc_clear], [set_gc_color], [set_gc_select] and
    [set_gc_shape] calls the StructurePBGroup implementation and then, on
    the same object, the CS_PBGroup implementation; none of them is
    exclusive. *)
Theorem void_members_call_both_implementations :
  check_destroyed_atoms GRP_NORMAL
    = [Invoke StructurePBGroup m_check_destroyed_atoms;
       Invoke CS_PBGroup m_check_destroyed_atoms]
  /\ clear GRP_NORMAL
    = [Invoke StructurePBGroup m_clear; Invoke CS_PBGroup m_clear]
  /\ set_default_color GRP_NORMAL
    = [Invoke StructurePBGroup m_set_default_color;
       Invoke CS_PBGroup m_set_default_color]
  /\ set_default_halfbond GRP_NORMAL
    = [Invoke StructurePBGroup m_set_default_halfbond;
       Invoke CS_PBGroup m_set_default_halfbond]
  /\ gc_clear GRP_NORMAL
    = [Invoke StructurePBGroup m_gc_clear; Invoke CS_PBGroup m_gc_clear]
  /\ set_gc_color GRP_NORMAL
    = [Invoke StructurePBGroup m_set_gc_color; Invoke CS_PBGroup m_set_gc_color]
  /\ set_gc_select GRP_NORMAL
    = [Invoke StructurePBGroup m_set_gc_select; Invoke CS_PBGroup m_set_gc_select]
  /\ set_gc_shape GRP_NORMAL
    = [Invoke StructurePBGroup m_set_gc_shape; Invoke CS_PBGroup m_set_gc_shape]
  /\ ~ exclusive clear m_clear
  /\ ~ exclusive check_destroyed_atoms m_check_destroyed_atoms
  /\ ~ exclusive set_default_color m_set_default_color
  /\ ~ exclusive set_default_halfbond m_set_default_halfbond.
Proof.
  repeat split; try reflexivity;
    intros H; specialize (H GRP_NORMAL); discriminate H.
Qed.

Lemma new_Pseudobond_fresh a1 a2 (h : PBHeap) :
  fst (new_Pseudobond a1 a2 h) ∉ dom h.
Proof. unfold new_Pseudobond. simpl. apply is_fresh. Qed.

(** C5: in a per-coordinate-set group a pseudobond created for coordinate
    set [cs0], whether [cs0] is supplied or is the active coordinate set at
    creation, is in the subset of [cs0] and of no other coordinate set, and
    a query under another coordinate set [cs1], supplied or active, does not
    return it; in a group of the other kind the query returns the one set of
    the group whatever coordinate set is active. *)
Theorem per_coordset_isolation
    (p : Proxy_PBGroup.t) (g : CS_PBGroup.t) (h : PBHeap)
    (a1 a2 cs0 cs1 : ptr)
    (q : Proxy_PBGroup.t) (gs : StructurePBGroup.t) (active : ptr) :
  _group_type p <> GRP_NORMAL ->
  _proxied p = IsCS_PBGroup g ->
  CS_PBGroup.live_pseudobonds g h ->
  cs0 <> cs1 ->
  _group_type q = GRP_NORMAL ->
  _proxied q = IsStructurePBGroup gs ->
  (exists pb p' h' g',
      new_pseudobond_cs a1 a2 cs0 p h = Value (pb, p', h')
      /\ new_pseudobond cs0 a1 a2 p h = Value (pb, p', h')
      /\ _proxied p' = IsCS_PBGroup g'
      /\ (forall cs s, CS_PBGroup._pbonds g' !! cs = Some s -> pb ∈ s -> cs = cs0)
      /\ (exists s p'', pseudobonds_cs cs0 p' = Value (s, p'') /\ pb ∈ s)
      /\ (exists s p'', pseudobonds cs0 p' = Value (s, p'') /\ pb ∈ s)
      /\ (exists s p'', pseudobonds_cs cs1 p' = Value (s, p'') /\ pb ∉ s)
      /\ (exists s p'', pseudobonds cs1 p' = Value (s, p'') /\ pb ∉ s))
  /\ pseudobonds active q = Value (StructurePBGroup._pbonds gs, q).
Proof.
  intros Htag Hprox Hlive Hcs Hqtag Hqprox. split.
  - pose proof (new_Pseudobond_fresh a1 a2 h) as Hfresh.
    unfold new_pseudobond_cs, new_pseudobond, pseudobonds_cs, pseudobonds,
      as_CS_PBGroup, CS_PBGroup.new_pseudobond, CS_PBGroup.pseudobonds,
      CS_PBGroup.new_pseudobond_cs, CS_PBGroup.pseudobonds_cs.
    fold GRP_NORMAL.
    destruct (Z.eqb_spec (_group_type p) GRP_NORMAL) as [E | _]; [contradiction |].
    rewrite Hprox.
    destruct (new_Pseudobond a1 a2 h) as [pb h'] eqn:Hnew. simpl in Hfresh.
    eexists pb, _, h', _. split; [reflexivity |]. split; [reflexivity |].
    split; [reflexivity |]. cbn [_group_type set_proxied _proxied CS_PBGroup.with_pbonds
      CS_PBGroup._pbonds]. fold GRP_NORMAL.
    destruct (Z.eqb_spec (_group_type p) GRP_NORMAL) as [E | _]; [contradiction |].
    assert (Hother : forall cs s,
               cs <> cs0 -> CS_PBGroup._pbonds g !! cs = Some s -> pb ∉ s).
    { intros cs s _ Hs Hin. apply Hfresh. eapply Hlive; eassumption. }
    split; [| split; [| split; [| split]]].
    + intros cs s Hs Hin. destruct (decide (cs = cs0)) as [-> | Hne]; [reflexivity |].
      rewrite lookup_insert_ne in Hs by congruence.
      exfalso. eapply Hother; eassumption.
    + rewrite lookup_insert_eq. eexists _, _. split; [reflexivity |]. set_solver.
    + rewrite lookup_insert_eq. eexists _, _. split; [reflexivity |]. set_solver.
    + rewrite lookup_insert_ne by congruence.
      destruct (CS_PBGroup._pbonds g !! cs1) as [s |] eqn:Hs.
      * eexists _, _. split; [reflexivity |]. eapply Hother; [| exact Hs]. congruence.
      * eexists _, _. split; [reflexivity |]. set_solver.
    + rewrite lookup_insert_ne by congruence.
      destruct (CS_PBGroup._pbonds g !! cs1) as [s |] eqn:Hs.
      * eexists _, _. split; [reflexivity |]. eapply Hother; [| exact Hs]. congruence.
      * eexists _, _. split; [reflexivity |]. set_solver.
  - unfold pseudobonds, as_StructurePBGroup. rewrite Hqtag, Hqprox. reflexivity.
Qed.

(** An instance: a per-coordinate-set "hydrogen bonds" group and a plain
    "missing structure" group of the structure at address 1, no pseudobond
    yet; a pseudobond between atoms 3 and 4 is created for coordinate set 10
    and looked for under coordinate set 11. *)
Lemma per_coordset_isolation_witness :
  let p := init GRP_PER_CS "hydrogen bonds" 1 1 in
  let q := init GRP_NORMAL "missing structure" 1 1 in
  (exists pb p' h' g',
      new_pseudobond_cs 3 4 10 p ∅ = Value (pb, p', h')
      /\ new_pseudobond 10 3 4 p ∅ = Value (pb, p', h')
      /\ _proxied p' = IsCS_PBGroup g'
      /\ (forall cs s, CS_PBGroup._pbonds g' !! cs = Some s -> pb ∈ s -> cs = 10%nat)
      /\ (exists s p'', pseudobonds_cs 10 p' = Value (s, p'') /\ pb ∈ s)
      /\ (exists s p'', pseudobonds 10 p' = Value (s, p'') /\ pb ∈ s)
      /\ (exists s p'', pseudobonds_cs 11 p' = Value (s, p'') /\ pb ∉ s)
      /\ (exists s p'', pseudobonds 11 p' = Value (s, p'') /\ pb ∉ s))
  /\ pseudobonds 11 q = Value (∅, q).
Proof.
  intros p q.
  apply (per_coordset_isolation p (CS_PBGroup.ctor "hydrogen bonds" 1 1) ∅
           3%nat 4%nat 10%nat 11%nat
           q (StructurePBGroup.ctor "missing structure" 1 1) 11%nat).
  - discriminate.
  - reflexivity.
  - intros cs s Hs. simpl in Hs. rewrite lookup_empty in Hs. discriminate Hs.
  - lia.
  - reflexivity.
  - reflexivity.
Defined.

End PBGroupFacts.

Module GraphFacts.
Import AtomH Graph.

Lemma find_index_None p (v : list ptr) : find_index p v = None <-> p ∉ v.
Proof.
  induction v as [|q v IH]; simpl.
  - split; [intros _ H; inversion H | reflexivity].
  - destruct (decide (q = p)) as [-> | Hne].
    + split; [discriminate | intros H; exfalso; apply H; left].
    + rewrite fmap_None, IH, not_elem_of_cons. intuition congruence.
Qed.

Lemma find_index_head p (v : list ptr) : find_index p (p :: v) = Some 0%nat.
Proof. simpl. destruct (decide (p = p)); [reflexivity | contradiction]. Qed.

Lemma lookup_foldr_delete {A} (m : gmap ptr A) (l : list ptr) k :
  k ∈ l -> foldr delete m l !! k = None.
Proof.
  induction l as [|x l IH]; intros Hk; [inversion Hk |].
  simpl. destruct (decide (x = k)) as [-> | Hne].
  - apply lookup_delete_eq.
  - rewrite lookup_delete_ne by exact Hne. apply IH.
    apply elem_of_cons in Hk as [-> | Hk]; [contradiction | exact Hk].
Qed.

(** The destructor leaves nothing of the structure behind. *)
Lemma destroy_destroyed this s w : destroyed this s (destroy this s w).
Proof.
  unfold destroyed, destroy, Graph_destructor. repeat split.
  - simpl. apply lookup_delete_eq.
  - intros a Ha. simpl. now apply lookup_foldr_delete.
  - intros r Hr. simpl. now apply lookup_foldr_delete.
Qed.

Lemma delete_this_destroyed this s w :
  structures w !! this = Some s ->
  exists w', delete_this this w = Value w' /\ destroyed this s w'.
Proof.
  intros Hs. unfold delete_this, deref. rewrite Hs. simpl.
  eexists. split; [reflexivity | apply destroy_destroyed].
Qed.

(** C1: for a live structure, [delete_atom] on its only atom, [delete_atoms]
    on a vector that holds exactly its atoms (in any order, repetitions
    allowed), and [delete_residue] on its only residue each return normally
    with the structure itself deleted, together with its atoms and
    residues. *)
Theorem deleting_last_entity_destroys_structure
    (w : World) (this : ptr) (s : AtomicStructure) :
  structures w !! this = Some s ->
  (forall a atom,
      _atoms s = [a] -> atoms w !! a = Some atom -> _structure atom = this ->
      exists w', delete_atom this a w = Value w' /\ destroyed this s w')
  /\ (forall del_atoms,
      NoDup (_atoms s) -> (forall a, a ∈ del_atoms <-> a ∈ _atoms s) ->
      exists w', delete_atoms this del_atoms w = Value w' /\ destroyed this s w')
  /\ (forall r,
      _residues s = [r] ->
      exists w', delete_residue this r w = Value w' /\ destroyed this s w').
Proof.
  intros Hs. repeat split.
  - intros a atom Hatoms Ha Hown.
    unfold delete_atom, deref. rewrite Ha. simpl.
    destruct (decide (_structure atom ≠ this)) as [Hne | _]; [contradiction |].
    rewrite Hs. simpl.
    destruct (decide (length (_atoms s) = 1%nat)) as [_ | Hlen].
    + now apply delete_this_destroyed.
    + rewrite Hatoms in Hlen. contradiction Hlen. reflexivity.
  - intros del_atoms Hnd Hcover.
    unfold delete_atoms, deref. rewrite Hs. simpl.
    assert (Hsize : size (list_to_set del_atoms : gset ptr) = length (_atoms s)).
    { rewrite <- (size_list_to_set (C := gset ptr) (_atoms s) Hnd).
      f_equal. apply set_eq. intros x. rewrite !elem_of_list_to_set. apply Hcover. }
    destruct (decide (size (list_to_set del_atoms : gset ptr) = length (_atoms s)))
      as [_ | Hne]; [| contradiction].
    now apply delete_this_destroyed.
  - intros r Hres.
    unfold delete_residue, deref. rewrite Hs. simpl.
    rewrite Hres, find_index_head. simpl.
    now apply delete_this_destroyed.
Qed.

(** An instance: structure 1 of [example_world] loses its only atom, all its
    atoms, or its only residue. *)
Lemma deleting_last_entity_destroys_structure_witness :
  let s := example_structure [10%nat] 20%nat in
  (exists w', delete_atom 1 10 example_world = Value w' /\ destroyed 1 s w')
  /\ (exists w', delete_atoms 1 [10%nat; 10%nat] example_world = Value w'
                 /\ destroyed 1 s w')
  /\ (exists w', delete_residue 1 20 example_world = Value w' /\ destroyed 1 s w').
Proof.
  intros s.
  destruct (deleting_last_entity_destroys_structure example_world 1%nat s eq_refl)
    as (H1 & H2 & H3).
  split; [| split].
  - apply (H1 10%nat (example_atom 20 1)); reflexivity.
  - apply H2.
    + repeat constructor. intros H. inversion H.
    + intros a. simpl. rewrite !elem_of_cons. tauto.
  - apply H3. reflexivity.
Defined.

(** C8: [delete_atom] on a live atom whose structure is another one, and
    [delete_residue] on a live residue that is not in the structure's
    residue list, return normally; the only effect is one more error in the
    log: structures, atoms, residues, chains and coordinate sets are all as
    before. *)
Theorem foreign_entity_is_logged_and_ignored
    (w : World) (this : ptr) :
  (forall a atom,
      atoms w !! a = Some atom ->
      is_Some (residues w !! _residue atom) ->
      _structure atom <> this ->
      exists w',
        delete_atom this a w = Value w'
        /\ same_state w w'
        /\ log w' = log w ++ [error_atom_not_in_structure (_residue atom) (_name atom)])
  /\ (forall s r,
      structures w !! this = Some s ->
      r ∉ _residues s ->
      is_Some (residues w !! r) ->
      exists w',
        delete_residue this r w = Value w'
        /\ same_state w w'
        /\ log w' = log w ++ [error_residue_not_in_structure r]).
Proof.
  split.
  - intros a atom Ha [res Hres] Hforeign.
    unfold delete_atom, deref. rewrite Ha. simpl.
    destruct (decide (_structure atom ≠ this)) as [_ | Hown].
    + rewrite Hres. simpl. eexists. split; [reflexivity |].
      split; [repeat split | reflexivity].
    + contradiction Hown.
  - intros s r Hs Hnot [res Hres].
    unfold delete_residue, deref. rewrite Hs. simpl.
    apply find_index_None in Hnot. rewrite Hnot, Hres. simpl.
    eexists. split; [reflexivity |]. split; [repeat split | reflexivity].
Qed.

(** An instance: atom 11 and residue 21 of structure 2 are handed to
    structure 1 of [example_world]. *)
Lemma foreign_entity_is_logged_and_ignored_witness :
  (exists w',
      delete_atom 1 11 example_world = Value w'
      /\ same_state example_world w'
      /\ log w' = [error_atom_not_in_structure 21 "O"])
  /\ (exists w',
      delete_residue 1 21 example_world = Value w'
      /\ same_state example_world w'
      /\ log w' = [error_residue_not_in_structure 21]).
Proof.
  destruct (foreign_entity_is_logged_and_ignored example_world 1%nat) as (H1 & H2).
  split.
  - apply (H1 11%nat (example_atom 21 2)).
    + reflexivity.
    + eexists. reflexivity.
    + simpl. lia.
  - apply (H2 (example_structure [10%nat] 20%nat) 21%nat).
    + reflexivity.
    + simpl. rewrite list_elem_of_singleton. lia.
    + eexists. reflexivity.
Defined.

End GraphFacts.

Module BestAltLocsFacts.
Import BestAltLocs.

(** ** Codes and their order *)

Lemma char_ltb_irrefl a : char_ltb a a = false.
Proof. unfold char_ltb. apply Z.ltb_irrefl. Qed.

Lemma elem_of_sorted_insert x c l :
  x ∈ sorted_insert c l <-> x = c \/ x ∈ l.
Proof.
  induction l as [|y l IH]; simpl.
  - rewrite list_elem_of_singleton. split; [auto | intros [H | H]; [exact H | inversion H]].
  - destruct (char_ltb c y).
    + rewrite elem_of_cons. reflexivity.
    + rewrite !elem_of_cons, IH. tauto.
Qed.

Lemma elem_of_std_sort x l : x ∈ std_sort l <-> x ∈ l.
Proof.
  induction l as [|y l IH]; simpl; [reflexivity |].
  rewrite elem_of_sorted_insert, elem_of_cons, IH. reflexivity.
Qed.

Lemma sorted_insert_sorted c l :
  StronglySorted char_le l -> StronglySorted char_le (sorted_insert c l).
Proof.
  induction 1 as [|x l Hs IH Hall]; simpl.
  - repeat constructor.
  - destruct (char_ltb c x) eqn:E.
    + constructor; [constructor; assumption |].
      unfold char_le, char_ltb in *. apply Z.ltb_lt in E.
      constructor.
      * apply Z.ltb_ge. lia.
      * rewrite Forall_forall in *. intros y Hy. specialize (Hall y Hy).
        apply Z.ltb_ge in Hall. apply Z.ltb_ge. lia.
    + constructor; [exact IH |].
      rewrite Forall_forall in *. intros y Hy.
      apply elem_of_sorted_insert in Hy as [-> | Hy]; [exact E | now apply Hall].
Qed.

Lemma std_sort_sorted l : StronglySorted char_le (std_sort l).
Proof.
  induction l as [|x l IH]; simpl; [constructor | now apply sorted_insert_sorted].
Qed.

Lemma sorted_insert_perm c l : sorted_insert c l ≡ₚ c :: l.
Proof.
  induction l as [|x l IH]; simpl; [reflexivity |].
  destruct (char_ltb c x); [reflexivity |].
  rewrite IH. apply Permutation_swap.
Qed.

Lemma std_sort_perm l : std_sort l ≡ₚ l.
Proof.
  induction l as [|x l IH]; simpl; [reflexivity |].
  now rewrite sorted_insert_perm, IH.
Qed.

Lemma alt_locs_NoDup a : NoDup (alt_locs a).
Proof. unfold alt_locs. rewrite std_sort_perm. apply NoDup_elements. Qed.

Lemma alt_locs_blank a : _alt_loc_map a = ∅ -> alt_locs a = [].
Proof. intros H. unfold alt_locs. now rewrite H, dom_empty_L, elements_empty. Qed.

(** ** The comparison of floats *)

(** [<] on floats is asymmetric, NaN or not. *)
Lemma flt_asym x y : flt x y = true -> flt y x = false.
Proof.
  unfold flt, SpecFloat.SFltb.
  destruct x as [sx | sx | | sx mx ex], y as [sy | sy | | sy my ey];
    cbn; try discriminate; try reflexivity;
    try (destruct sx; discriminate || reflexivity);
    try (destruct sy; discriminate || reflexivity);
    try (destruct sx, sy; discriminate || reflexivity).
  pose proof (Z.compare_antisym ex ey) as He.
  pose proof (Pos.compare_cont_antisym mx my Eq) as Hm. cbn in Hm.
  destruct sx, sy; try discriminate; try reflexivity;
    rewrite He; destruct (ex ?= ey)%Z; cbn; try discriminate; try reflexivity;
    rewrite <- Hm; destruct (Pos.compare_cont Eq mx my); cbn;
    discriminate || reflexivity.
Qed.

Lemma flt_irrefl x : flt x x = false.
Proof.
  destruct (flt x x) eqn:E; [| reflexivity].
  now rewrite (flt_asym x x E) in E.
Qed.

(** ** The decision loop *)

Section Decision.
Variable t : Tally.

Local Abbreviation mo := (tally_occupancy t).
Local Abbreviation mb := (tally_bfactor t).
Local Abbreviation entry c :=
  {| best_loc := c; best_occupancies := mo c; best_bfactors := mb c |}.

(** An iteration keeps the running best or replaces it by the code at
    hand. *)
Lemma consider_cases b c : consider t b c = b \/ consider t b c = entry c.
Proof.
  unfold consider. destruct (Ascii.eqb (best_loc b) NUL); cbn; [now right |].
  repeat (destruct (flt _ _); cbn); auto.
Qed.

Lemma consider_first b c : best_loc b = NUL -> consider t b c = entry c.
Proof. intros H. unfold consider. rewrite H. reflexivity. Qed.

(** A code that is to be preferred to the running best, and is not the
    earlier of the two, replaces it. *)
Lemma consider_takes b al :
  best_loc b <> NUL ->
  preferred mo mb al (best_loc b) -> char_ltb al (best_loc b) = false ->
  consider t (entry (best_loc b)) al = entry al.
Proof.
  intros Hne Hpref Hlate. unfold consider. cbn [best_loc best_occupancies best_bfactors].
  destruct (Ascii.eqb_spec (best_loc b) NUL) as [E | _]; [contradiction |]. cbn [negb].
  destruct Hpref as [H1 | (H1 & H2 & [H3 | (H3 & H4 & H5)])].
  - rewrite H1. reflexivity.
  - rewrite H1, H2. cbn [negb]. rewrite H3. reflexivity.
  - congruence.
Qed.

(** The running best stays when the code at hand is the best itself or one
    the best is to be preferred to. *)
Lemma consider_keeps al c :
  al <> NUL -> c = al \/ preferred mo mb al c ->
  consider t (entry al) c = entry al.
Proof.
  intros Hne Hc. unfold consider. cbn [best_loc best_occupancies best_bfactors].
  destruct (Ascii.eqb_spec al NUL) as [E | _]; [contradiction |]. cbn [negb].
  destruct Hc as [-> | [H1 | (H1 & H2 & [H3 | (H3 & H4 & H5)])]].
  - rewrite !flt_irrefl. reflexivity.
  - rewrite (flt_asym _ _ H1), H1. reflexivity.
  - rewrite H2, H1. cbn [negb]. rewrite (flt_asym _ _ H3). reflexivity.
  - rewrite H2, H1. cbn [negb]. rewrite H4. reflexivity.
Qed.

Lemma fold_keeps al : forall suf,
  al <> NUL -> (forall c, c ∈ suf -> c = al \/ preferred mo mb al c) ->
  fold_left (consider t) suf (entry al) = entry al.
Proof.
  induction suf as [|c suf IH]; intros Hne Hsuf; simpl; [reflexivity |].
  rewrite consider_keeps; [| exact Hne | apply Hsuf; left].
  apply IH; [exact Hne |]. intros c' Hc'. apply Hsuf. now right.
Qed.

(** After the codes [acc] the running best is still the sentinel, with no
    code met, or it is the entry of one of the codes met. *)
Lemma fold_tracked : forall pre acc b,
  NUL ∉ pre ->
  (acc = [] /\ best_loc b = NUL)
  \/ (exists c, c ∈ acc /\ c <> NUL /\ b = entry c) ->
  let b' := fold_left (consider t) pre b in
  (acc ++ pre = [] /\ best_loc b' = NUL)
  \/ (exists c, c ∈ acc ++ pre /\ c <> NUL /\ b' = entry c).
Proof.
  induction pre as [|x pre IH]; intros acc b Hnul Hb; simpl.
  - now rewrite app_nil_r.
  - apply not_elem_of_cons in Hnul as [Hx Hnul].
    replace (acc ++ x :: pre) with ((acc ++ [x]) ++ pre)
      by (rewrite <- app_assoc; reflexivity).
    apply IH; [exact Hnul |]. right.
    destruct Hb as [[-> Hb] | (c & Hc & Hne & ->)].
    + exists x. rewrite consider_first by exact Hb.
      split; [left | split; [congruence | reflexivity]].
    + destruct (consider_cases (entry c) x) as [-> | ->].
      * exists c. split; [apply elem_of_app; now left | auto].
      * exists x. split; [apply elem_of_app; right; left | split; [congruence | reflexivity]].
Qed.

(** The decision loop returns one of the codes. *)
Lemma pick_best_in codes :
  codes <> [] -> NUL ∉ codes -> pick_best codes t ∈ codes.
Proof.
  intros Hne Hnul. unfold pick_best.
  set (b0 := {| best_loc := NUL; best_occupancies := fzero; best_bfactors := fzero |}).
  destruct (fold_tracked codes [] b0 Hnul) as [[H _] | (c & Hc & _ & ->)];
    [left; split; reflexivity | simpl in H; contradiction | exact Hc].
Qed.

(** Over sorted codes the decision loop returns the code that is to be
    preferred to each of the others, when there is one. *)
Lemma pick_best_preferred codes al :
  StronglySorted char_le codes -> NUL ∉ codes -> al ∈ codes ->
  (forall c, c ∈ codes -> c <> al -> preferred mo mb al c) ->
  pick_best codes t = al.
Proof.
  intros Hs Hnul Hal Hpref. unfold pick_best.
  apply list_elem_of_split_l in Hal as (pre & suf & -> & Hfirst).
  assert (Hne : al <> NUL).
  { intros ->. apply Hnul. apply elem_of_app. right. left. }
  rewrite fold_left_app. cbn [fold_left].
  assert (Hpre : NUL ∉ pre).
  { intros H. apply Hnul. apply elem_of_app. now left. }
  match goal with
  | |- context [consider t ?b1 al] =>
      assert (Htake : consider t b1 al = entry al)
  end.
  { set (b0 := {| best_loc := NUL; best_occupancies := fzero;
                  best_bfactors := fzero |}).
    destruct (fold_tracked pre [] b0 Hpre) as [[_ H] | (c & Hc & Hcn & Hb)];
      [left; split; reflexivity | |]; simpl in *.
    - now apply consider_first.
    - rewrite Hb.
      change (entry c) with (entry (best_loc (entry c))).
      apply consider_takes; cbn [best_loc]; [exact Hcn | |].
      + apply Hpref; [apply elem_of_app; now left | congruence].
      + eapply (StronglySorted_app_1_elem_of char_le);
          [exact Hs | exact Hc | left]. }
  rewrite Htake, fold_keeps; [reflexivity | exact Hne |].
  intros c Hc. destruct (decide (c = al)) as [-> | Hd]; [now left | right].
  apply Hpref; [| exact Hd]. apply elem_of_app. right. now right.
Qed.

End Decision.

(** ** The tally *)

Lemma counted_in a al : forall als, counted a als al = true -> al ∈ als.
Proof.
  induction als as [|c als IH]; simpl; [discriminate |].
  intros H. apply andb_true_iff in H as [_ H]. apply orb_true_iff in H as [H | H].
  - apply Ascii.eqb_eq in H as ->. left.
  - right. now apply IH.
Qed.

Lemma upd_eq {A} (f : ascii -> A) k v : upd f k v k = v.
Proof. unfold upd. now rewrite Ascii.eqb_refl. Qed.

Lemma upd_ne {A} (f : ascii -> A) k v c : c <> k -> upd f k v c = f c.
Proof.
  intros H. unfold upd. destruct (Ascii.eqb_spec c k); [contradiction | reflexivity].
Qed.

(** What the loop over the codes does to the entries of a code, for one
    atom: it adds the atom when the atom is counted for the code. *)
Lemma tally_atom_spec a al : forall als t,
  NoDup als ->
  let t' := (tally_atom a als t).2 in
  match (if counted a als al then _alt_loc_map a !! al else None) with
  | Some info =>
      occurances t' al = occurances t al + 1
      /\ occupancies t' al = fadd (occupancies t al) (occupancy info)
      /\ bfactors t' al = fadd (bfactors t al) (bfactor info)
  | None =>
      occurances t' al = occurances t al
      /\ occupancies t' al = occupancies t al
      /\ bfactors t' al = bfactors t al
  end.
Proof.
  induction als as [|c als IH]; intros t Hnd; cbn [tally_atom counted].
  - repeat split.
  - apply NoDup_cons in Hnd as [Hc Hnd]. unfold has_alt_loc.
    destruct (_alt_loc_map a !! c) as [info |] eqn:E.
    2: { rewrite bool_decide_eq_false_2 by (intros [? H]; discriminate). cbn.
         repeat split. }
    rewrite bool_decide_eq_true_2 by eauto. cbn [andb].
    match goal with
    | |- context [tally_atom a als ?t1] => specialize (IH t1 Hnd); set (u := t1) in *
    end.
    cbn zeta in IH.
    destruct (Ascii.eqb_spec c al) as [-> | Hne]; cbn [orb].
    + rewrite E.
      assert (Hnot : counted a als al = false).
      { destruct (counted a als al) eqn:Hcnt; [| reflexivity].
        apply counted_in in Hcnt. contradiction. }
      rewrite Hnot in IH. destruct IH as (-> & -> & ->).
      unfold u. cbn. rewrite !upd_eq. repeat split.
    + assert (Hu : occurances u al = occurances t al
                   /\ occupancies u al = occupancies t al
                   /\ bfactors u al = bfactors t al).
      { unfold u. cbn. rewrite !upd_ne by congruence. repeat split. }
      destruct Hu as (Hu1 & Hu2 & Hu3). rewrite Hu1, Hu2, Hu3 in IH. exact IH.
Qed.

(** The entries of a code after a list of atoms: the number of the atoms
    counted for the code and the sums over them, from left to right. *)
Lemma tally_atoms_spec als al : forall l t,
  NoDup als ->
  occurances (tally_atoms l als t) al
  = occurances t al + Z.of_nat (length (counted_infos l als al))
  /\ occupancies (tally_atoms l als t) al
     = foldl fadd (occupancies t al) (occupancy <$> counted_infos l als al)
  /\ bfactors (tally_atoms l als t) al
     = foldl fadd (bfactors t al) (bfactor <$> counted_infos l als al).
Proof.
  induction l as [|a l IH]; intros t Hnd; cbn [tally_atoms foldl counted_infos omap].
  - unfold counted_infos. cbn [omap list_omap length fmap list_fmap foldl].
    repeat split. lia.
  - pose proof (tally_atom_spec a al als t Hnd) as Ha. cbn zeta in Ha.
    specialize (IH (tally_atom a als t).2 Hnd).
    unfold tally_atoms in IH. unfold counted_infos in *. cbn [omap list_omap].
    destruct (if counted a als al then _alt_loc_map a !! al else None) as [info |];
      destruct Ha as (H1 & H2 & H3); destruct IH as (I1 & I2 & I3);
      rewrite I1, I2, I3, H1, H2, H3; cbn [length fmap list_fmap foldl].
    all: repeat split; first [reflexivity | lia].
Qed.

(** The means that the decision loop computes from the tally of a group
    are the means over the atoms counted. *)
Lemma tally_means s group als al :
  NoDup als ->
  tally_occupancy (tally_atoms (group_atoms s group) als no_tally) al
  = counted_occupancy s group als al
  /\ tally_bfactor (tally_atoms (group_atoms s group) als no_tally) al
     = counted_bfactor s group als al.
Proof.
  intros Hnd.
  destruct (tally_atoms_spec als al (group_atoms s group) no_tally Hnd)
    as (H1 & H2 & H3).
  unfold tally_occupancy, tally_bfactor, counted_occupancy, counted_bfactor,
    mean, fsum.
  rewrite H1, H2, H3, !length_fmap. cbn. split; reflexivity.
Qed.

(** ** The collation of a residue group *)

Section Run.
Variable s : AtomicStructure.
Hypothesis Hlive : live s.

Lemma atoms_of_residue_live r res a :
  residue_at s !! r = Some res -> a ∈ _atoms res -> is_Some (atom_at s !! a).
Proof.
  intros Hr Ha. destruct Hlive as (H1 & _ & H3 & _).
  pose proof (map_Forall_lookup_1 _ _ _ _ H3 Hr) as Hres. cbn in Hres.
  rewrite Forall_forall in Hres, H1. apply H1, Hres, Ha.
Qed.

Lemma residue_of_atom_live a at_a :
  atom_at s !! a = Some at_a -> is_Some (residue_at s !! _residue at_a).
Proof.
  intros Ha. destruct Hlive as (_ & _ & _ & H4).
  now destruct (map_Forall_lookup_1 _ _ _ _ H4 Ha) as [H _].
Qed.

Lemma neighbors_live a at_a nb :
  atom_at s !! a = Some at_a -> nb ∈ _neighbors at_a -> is_Some (atom_at s !! nb).
Proof.
  intros Ha Hnb. destruct Hlive as (_ & _ & _ & H4).
  destruct (map_Forall_lookup_1 _ _ _ _ H4 Ha) as [_ H].
  rewrite Forall_forall in H. now apply H.
Qed.

Lemma residue_in_candidates nb nba :
  atom_at s !! nb = Some nba -> _residue nba ∈ candidates s.
Proof.
  intros H. unfold candidates. rewrite elem_of_list_to_set, list_elem_of_fmap.
  exists (nb, nba). split; [reflexivity |]. now apply elem_of_map_to_list.
Qed.

Lemma pending_push nr c :
  nr ∈ candidates s -> nr ∉ seen c ->
  (pending s (push_residue nr c) + 1 = pending s c)%nat.
Proof.
  intros Hin Hnot. unfold pending, push_residue. simpl.
  assert (Hsplit : candidates s ∖ seen c
                   = {[nr]} ∪ candidates s ∖ ({[nr]} ∪ seen c)).
  { apply set_eq. intros x.
    rewrite elem_of_union, !elem_of_difference, elem_of_union, elem_of_singleton.
    destruct (decide (x = nr)) as [-> | Hne]; tauto. }
  pose proof (size_union ({[nr]} : gset ptr)
                (candidates s ∖ ({[nr]} ∪ seen c))) as Hsize.
  rewrite <- Hsplit, size_singleton in Hsize.
  rewrite Hsize; [lia |].
  intros x Hx Hx'. apply elem_of_singleton in Hx as ->.
  apply elem_of_difference in Hx' as [_ Hx']. apply Hx'.
  apply elem_of_union. left. now apply elem_of_singleton.
Qed.

Lemma visit_neighbors_spec cr als : forall nbs c,
  (forall nb, nb ∈ nbs -> is_Some (atom_at s !! nb)) ->
  exists c' P,
    visit_neighbors s cr als nbs c = Done c'
    /\ (pending s c' <= pending s c)%nat
    /\ tally c' = tally c
    /\ seen c' = list_to_set P ∪ seen c
    /\ res_group c' = list_to_set P ∪ res_group c
    /\ (forall x, x ∈ todo c' <-> x ∈ P \/ x ∈ todo c)
    /\ (forall x, x ∈ P -> (x ∉ seen c) /\ is_Some (residue_at s !! x)).
Proof.
  induction nbs as [|nb nbs IH]; intros c Hnbs; cbn [visit_neighbors].
  - exists c, []. split; [reflexivity |]. split; [lia |]. split; [reflexivity |].
    repeat split; try set_solver.
  - destruct (Hnbs nb) as [nba Hnb]; [left |].
    unfold atom. rewrite Hnb. cbn [mbind outcome_bind].
    assert (Hrest : forall x, x ∈ nbs -> is_Some (atom_at s !! x))
      by (intros x Hx; apply Hnbs; now right).
    destruct (bool_decide (_residue nba ≠ cr)); cbn [andb];
      [| destruct (IH c Hrest) as (c' & P & H); exists c', P; exact H].
    destruct (bool_decide (alt_locs nba = als)); cbn [andb];
      [| destruct (IH c Hrest) as (c' & P & H); exists c', P; exact H].
    destruct (bool_decide (_residue nba ∉ seen c)) eqn:Hseen;
      [| destruct (IH c Hrest) as (c' & P & H); exists c', P; exact H].
    apply bool_decide_eq_true in Hseen.
    pose proof (pending_push _ c (residue_in_candidates _ _ Hnb) Hseen) as Hp.
    destruct (IH (push_residue (_residue nba) c) Hrest)
      as (c' & P & Hrun & Hpend & Htally & Hs & Hg & Htodo & Hnew).
    exists c', (_residue nba :: P). split; [exact Hrun |]. split; [lia |].
    split; [exact Htally |]. cbn [push_residue seen res_group todo] in *.
    split; [rewrite Hs; set_solver |]. split; [rewrite Hg; set_solver |]. split.
    + intros x. rewrite Htodo, !elem_of_cons. tauto.
    + intros x Hx. apply elem_of_cons in Hx as [-> | Hx].
      * split; [exact Hseen | eapply residue_of_atom_live; exact Hnb].
      * destruct (Hnew x Hx) as [H1 H2]. split; [set_solver | exact H2].
Qed.

Lemma visit_atoms_spec cr als : forall l c,
  (forall a, a ∈ l -> is_Some (atom_at s !! a)) ->
  exists c' P,
    visit_atoms s cr als l c = Done c'
    /\ (pending s c' <= pending s c)%nat
    /\ tally c' = tally_atoms (atom_records s l) als (tally c)
    /\ seen c' = list_to_set P ∪ seen c
    /\ res_group c' = list_to_set P ∪ res_group c
    /\ (forall x, x ∈ todo c' <-> x ∈ P \/ x ∈ todo c)
    /\ (forall x, x ∈ P -> (x ∉ seen c) /\ is_Some (residue_at s !! x)).
Proof.
  induction l as [|a l IH]; intros c Hl; cbn [visit_atoms].
  - exists c, []. split; [reflexivity |]. split; [lia |]. split; [reflexivity |].
    repeat split; try set_solver.
  - destruct (Hl a) as [at_a Ha]; [left |].
    unfold atom. rewrite Ha. cbn [mbind outcome_bind].
    assert (Hrest : forall x, x ∈ l -> is_Some (atom_at s !! x))
      by (intros x Hx; apply Hl; now right).
    assert (Hrec : atom_records s (a :: l) = at_a :: atom_records s l).
    { unfold atom_records. cbn. now rewrite Ha. }
    rewrite Hrec. cbn [tally_atoms foldl].
    destruct (tally_atom at_a als (tally c)) as [chk t] eqn:Et. cbn [snd].
    assert (Hstep : exists c1 P1,
               (if chk
                then visit_neighbors s cr als (_neighbors at_a) (with_tally c t)
                else Done (with_tally c t)) = Done c1
               /\ (pending s c1 <= pending s c)%nat
               /\ tally c1 = t
               /\ seen c1 = list_to_set P1 ∪ seen c
    /\ res_group c1 = list_to_set P1 ∪ res_group c
    /\ (forall x, x ∈ todo c1 <-> x ∈ P1 \/ x ∈ todo c)
    /\ (forall x, x ∈ P1 -> (x ∉ seen c) /\ is_Some (residue_at s !! x))).
    { destruct chk.
      - destruct (visit_neighbors_spec cr als (_neighbors at_a) (with_tally c t))
          as (c1 & P1 & Hrun & Hpend & Htally & Hpush).
        + intros nb Hnb. eapply neighbors_live; eauto.
        + exists c1, P1. split; [exact Hrun |]. split; [exact Hpend |].
          split; [exact Htally | exact Hpush].
      - exists (with_tally c t), []. split; [reflexivity |].
        split; [unfold pending; cbn [with_tally seen todo]; lia |].
        split; [reflexivity |]. repeat split; try set_solver. }
    destruct Hstep as (c1 & P1 & -> & Hpend1 & Ht1 & Hs1 & Hg1 & Htodo1 & Hnew1).
    cbn [mbind outcome_bind].
    destruct (IH c1 Hrest) as (c' & P2 & Hrun & Hpend2 & Ht2 & Hs2 & Hg2 & Htodo2 & Hnew2).
    exists c', (P1 ++ P2). split; [exact Hrun |]. split; [lia |].
    split; [rewrite Ht2, Ht1; reflexivity |].
    split; [rewrite Hs2, Hs1; set_solver |].
    split; [rewrite Hg2, Hg1; set_solver |]. split.
    + intros x. rewrite Htodo2, Htodo1, elem_of_app. tauto.
    + intros x Hx. apply elem_of_app in Hx as [Hx | Hx].
      * now apply Hnew1.
      * destruct (Hnew2 x Hx) as [H1 H2]. split; [| exact H2].
        rewrite Hs1 in H1. set_solver.
Qed.

Lemma group_atoms_cons r res order :
  residue_at s !! r = Some res ->
  group_atoms s (r :: order) = atom_records s (_atoms res) ++ group_atoms s order.
Proof. intros H. unfold group_atoms. cbn. unfold residue_atoms at 1. now rewrite H. Qed.

(** The [while] loop, given fuel for what is pending and live residues on
    [todo]: it returns, having popped the residues [order], which are those
    that were on [todo] and those pushed since; the tally has been taken
    over the atoms of these residues in that order. *)
Lemma collate_spec als : forall fuel c,
  (pending s c <= fuel)%nat ->
  (forall x, x ∈ todo c -> is_Some (residue_at s !! x)) ->
  exists c' order N,
    collate fuel s als c = Done c'
    /\ tally c' = tally_atoms (group_atoms s order) als (tally c)
    /\ seen c' = list_to_set N ∪ seen c
    /\ res_group c' = list_to_set N ∪ res_group c
    /\ (forall x, x ∈ order <-> x ∈ todo c \/ x ∈ N)
    /\ (forall x, x ∈ N -> x ∉ seen c)
    /\ (forall cr T, todo c = cr :: T -> exists rest, order = cr :: rest).
Proof.
  induction fuel as [|fuel IH]; intros c Hle Htodo.
  - destruct c as [sn td grp tl]. unfold pending in Hle. cbn in Hle.
    destruct td as [|cr T]; [| cbn in Hle; lia].
    exists {| seen := sn; todo := []; res_group := grp; tally := tl |}, [], [].
    split; [reflexivity |]. cbn. split; [reflexivity |].
    repeat split; first [set_solver | discriminate].
  - destruct c as [sn td grp tl]. destruct td as [|cr T].
    { exists {| seen := sn; todo := []; res_group := grp; tally := tl |}, [], [].
      split; [reflexivity |]. cbn. split; [reflexivity |].
      repeat split; first [set_solver | discriminate]. }
    cbn [collate todo seen res_group tally].
    destruct (Htodo cr) as [res Hres]; [left |].
    unfold residue. rewrite Hres. cbn [mbind outcome_bind].
    destruct (visit_atoms_spec cr als (_atoms res)
                {| seen := sn; todo := T; res_group := grp; tally := tl |})
      as (c1 & P & -> & Hpend & Ht1 & Hs1 & Hg1 & Htodo1 & Hnew1).
    { intros a Ha. eapply atoms_of_residue_live; eauto. }
    cbn [mbind outcome_bind]. cbn [seen todo res_group tally] in *.
    destruct (IH c1) as (c' & order & N & Hrun & Ht & Hs & Hg & Hord & Hnew & _).
    { unfold pending in *. cbn [seen todo length] in *. lia. }
    { intros x Hx. apply Htodo1 in Hx as [Hx | Hx]; [now apply Hnew1 |].
      apply Htodo. now right. }
    exists c', (cr :: order), (P ++ N). split; [exact Hrun |].
    split; [rewrite (group_atoms_cons cr res order Hres); unfold tally_atoms in *;
            rewrite foldl_app, Ht, Ht1; reflexivity |].
    split; [rewrite Hs, Hs1; set_solver |].
    split; [rewrite Hg, Hg1; set_solver |]. split; [| split].
    + intros x. rewrite !elem_of_cons, Hord, Htodo1, elem_of_app. tauto.
    + intros x Hx. apply elem_of_app in Hx as [Hx | Hx]; [now apply Hnew1 |].
      apply Hnew in Hx. rewrite Hs1 in Hx. set_solver.
    + intros cr' T' Heq. injection Heq as <- <-. eauto.
Qed.

(** ** The loop over the residues *)

Lemma first_alt_loc_set_total : forall l,
  (forall a, a ∈ l -> is_Some (atom_at s !! a)) ->
  exists als, first_alt_loc_set s l = Done als /\ NoDup als.
Proof.
  induction l as [|a l IH]; intros Hl; cbn [first_alt_loc_set].
  - exists []. split; [reflexivity | constructor].
  - destruct (Hl a) as [at_a Ha]; [left |]. unfold atom. rewrite Ha. cbn.
    pose proof (alt_locs_NoDup at_a) as Hnd.
    destruct (alt_locs at_a) as [|c cs].
    + apply IH. intros x Hx. apply Hl. now right.
    + eauto.
Qed.

Lemma first_alt_loc_set_blank : forall l,
  (forall a, a ∈ l -> exists at_a, atom_at s !! a = Some at_a
                                   /\ _alt_loc_map at_a = ∅) ->
  first_alt_loc_set s l = Done [].
Proof.
  induction l as [|a l IH]; intros Hl; cbn [first_alt_loc_set]; [reflexivity |].
  destruct (Hl a) as (at_a & Ha & Hblank); [left |]. unfold atom. rewrite Ha. cbn.
  rewrite (alt_locs_blank at_a Hblank). apply IH. intros x Hx. apply Hl. now right.
Qed.

Lemma all_blank_total : forall l,
  (forall a, a ∈ l -> is_Some (atom_at s !! a)) ->
  exists b, all_blank s l = Done b
    /\ (b = true -> forall a, a ∈ l ->
          exists at_a, atom_at s !! a = Some at_a /\ _alt_loc_map at_a = ∅).
Proof.
  induction l as [|a l IH]; intros Hl; cbn [all_blank].
  - exists true. split; [reflexivity |]. intros _ a Ha. inversion Ha.
  - destruct (Hl a) as [at_a Ha]; [left |]. unfold atom. rewrite Ha. cbn.
    destruct (decide (_alt_loc_map at_a = ∅)) as [Hblank | _].
    + destruct IH as (b & Hrun & Hb); [intros x Hx; apply Hl; now right |].
      exists b. split; [exact Hrun |]. intros Htrue x Hx.
      apply elem_of_cons in Hx as [-> | Hx]; [eauto | now apply Hb].
    + exists false. split; [reflexivity | discriminate].
Qed.

(** A group as the loop forms it gives its residues a code they are chosen
    with. *)
Lemma chosen_new (bl : gmap ptr ascii) r0 res0 others codes x :
  r0 ∈ _residues s -> residue_at s !! r0 = Some res0 ->
  first_alt_loc_set s (_atoms res0) = Done codes -> codes <> [] -> NoDup codes ->
  x ∈ r0 :: others ->
  (forall r', r' ∈ r0 :: others ->
     bl !! r' = Some (pick_best (std_sort codes)
                        (tally_atoms (group_atoms s (r0 :: others)) codes no_tally))) ->
  chosen s bl x (pick_best (std_sort codes)
                   (tally_atoms (group_atoms s (r0 :: others)) codes no_tally)).
Proof.
  intros Hr0 Hres Hfirst Hne Hnd Hx Hall.
  exists r0, res0, others, codes.
  split; [exact Hx |]. split; [exact Hr0 |]. split; [exact Hres |].
  split; [exact Hfirst |]. split; [exact Hne |]. split; [exact Hall |].
  assert (Hsne : std_sort codes <> []).
  { destruct codes as [|c cs]; [contradiction |]. intros H.
    assert (Hc : c ∈ std_sort (c :: cs)) by (apply elem_of_std_sort; left).
    rewrite H in Hc. inversion Hc. }
  split.
  - intros Hnul. apply elem_of_std_sort, pick_best_in; [exact Hsne |].
    now rewrite elem_of_std_sort.
  - intros al Hal Hnul Hpref. apply pick_best_preferred.
    + apply std_sort_sorted.
    + now rewrite elem_of_std_sort.
    + now apply elem_of_std_sort.
    + intros c Hc Hd. rewrite elem_of_std_sort in Hc.
      specialize (Hpref c Hc Hd). unfold preferred in *.
      destruct (tally_means s (r0 :: others) codes al Hnd) as [-> ->].
      destruct (tally_means s (r0 :: others) codes c Hnd) as [-> ->].
      exact Hpref.
Qed.

Lemma chosen_mono (bl bl2 : gmap ptr ascii) x best :
  (forall r' b, bl !! r' = Some b -> bl2 !! r' = Some b) ->
  chosen s bl x best -> chosen s bl2 x best.
Proof.
  intros Hsub (r0 & res0 & others & codes & H1 & H2 & H3 & H4 & H5 & H6 & H7).
  exists r0, res0, others, codes. repeat (split; [assumption |]).
  split; [| exact H7]. intros r' Hr'. apply Hsub. now apply H6.
Qed.

Lemma residue_loop_spec fuel :
  (2 * size (candidates s) < fuel)%nat ->
  forall rs (seen0 : gset ptr) (bl : gmap ptr ascii),
  (forall r, r ∈ rs -> r ∈ _residues s) ->
  (forall x, is_Some (bl !! x) -> x ∈ seen0) ->
  (forall r best, bl !! r = Some best -> chosen s bl r best) ->
  (forall x, x ∈ seen0 ->
     is_Some (bl !! x)
     \/ exists res, residue_at s !! x = Some res
                    /\ first_alt_loc_set s (_atoms res) = Done []) ->
  exists bl',
    residue_loop fuel s rs seen0 bl = Done bl'
    /\ (forall r best, bl' !! r = Some best -> chosen s bl' r best)
    /\ (forall x, x ∈ seen0 \/ x ∈ rs ->
          is_Some (bl' !! x)
          \/ exists res, residue_at s !! x = Some res
                         /\ first_alt_loc_set s (_atoms res) = Done []).
Proof.
  intros Hfuel.
  induction rs as [|r rs IH]; intros seen0 bl Hrs Hdom Hch Hseen;
    cbn [residue_loop].
  - exists bl. split; [reflexivity |]. split; [exact Hch |].
    intros x [Hx | Hx]; [now apply Hseen | inversion Hx].
  - assert (Hrs' : forall x, x ∈ rs -> x ∈ _residues s)
      by (intros x Hx; apply Hrs; now right).
    destruct (decide (r ∈ seen0)) as [Hin | Hnot].
    { rewrite bool_decide_eq_true_2 by exact Hin.
      destruct (IH seen0 bl Hrs' Hdom Hch Hseen) as (bl' & Hrun & Hch' & Hcov).
      exists bl'. split; [exact Hrun |]. split; [exact Hch' |].
      intros x [Hx | Hx]; [apply Hcov; now left |].
      apply elem_of_cons in Hx as [-> | Hx]; apply Hcov; auto. }
    rewrite bool_decide_eq_false_2 by exact Hnot.
    assert (Hr : is_Some (residue_at s !! r)).
    { destruct Hlive as (_ & H2 & _). rewrite Forall_forall in H2.
      apply H2, Hrs. left. }
    destruct Hr as [res Hres]. unfold residue. rewrite Hres.
    cbn [mbind outcome_bind].
    destruct (first_alt_loc_set_total (_atoms res)) as (als & Hfirst & Hnd).
    { intros a Ha. eapply atoms_of_residue_live; eauto. }
    rewrite Hfirst. cbn [mbind outcome_bind].
    destruct als as [|al als].
    { destruct (IH ({[r]} ∪ seen0) bl Hrs') as (bl' & Hrun & Hch' & Hcov).
      - intros x Hx. apply Hdom in Hx. set_solver.
      - exact Hch.
      - intros x Hx. apply elem_of_union in Hx as [Hx | Hx]; [| now apply Hseen].
        apply elem_of_singleton in Hx as ->. right. eauto.
      - exists bl'. split; [exact Hrun |]. split; [exact Hch' |].
        intros x [Hx | Hx]; [apply Hcov; left; set_solver |].
        apply elem_of_cons in Hx as [-> | Hx]; apply Hcov; [left; set_solver | auto]. }
    set (codes := al :: als) in *.
    destruct (collate_spec codes fuel
                {| seen := {[r]} ∪ seen0; todo := [r]; res_group := {[r]};
                   tally := no_tally |})
      as (c & order & N & Hrun & Ht & Hs & Hg & Hord & Hnew & Hhead).
    { unfold pending. cbn [seen todo length].
      assert (size (candidates s ∖ ({[r]} ∪ seen0)) <= size (candidates s))%nat.
      { apply subseteq_size. intros x Hx. now apply elem_of_difference in Hx as [Hx _]. }
      lia. }
    { intros x Hx. apply list_elem_of_singleton in Hx as ->. eauto. }
    cbn [seen todo res_group tally] in *.
    destruct (Hhead r [] eq_refl) as [others ->].
    rewrite Hrun. cbn [mbind outcome_bind]. rewrite Ht.
    set (best := pick_best (std_sort codes)
                   (tally_atoms (group_atoms s (r :: others)) codes no_tally)).
    set (bl2 := gset_to_gmap best (res_group c) ∪ bl).
    assert (Hgroup : forall x, x ∈ res_group c <-> x ∈ r :: others).
    { intros x. rewrite Hg, Hord. rewrite elem_of_union, elem_of_list_to_set,
        list_elem_of_singleton, elem_of_singleton. tauto. }
    assert (Hfresh : forall x, x ∈ res_group c -> x ∉ seen0).
    { intros x Hx. rewrite Hg in Hx. apply elem_of_union in Hx as [Hx | Hx].
      - apply elem_of_list_to_set, Hnew in Hx. set_solver.
      - apply elem_of_singleton in Hx as ->. exact Hnot. }
    assert (Hnew_entry : forall x, x ∈ res_group c -> bl2 !! x = Some best).
    { intros x Hx. unfold bl2. apply lookup_union_Some_raw. left.
      now apply lookup_gset_to_gmap_Some. }
    assert (Hold_entry : forall x b, bl !! x = Some b -> bl2 !! x = Some b).
    { intros x b Hb. unfold bl2. apply lookup_union_Some_raw. right.
      split; [| exact Hb]. apply lookup_gset_to_gmap_None.
      intros Hx. apply (Hfresh x Hx). apply Hdom. eauto. }
    destruct (IH (seen c) bl2 Hrs') as (bl' & Hrun' & Hch' & Hcov).
    + intros x [b Hb]. unfold bl2 in Hb.
      apply lookup_union_Some_raw in Hb as [Hb | [_ Hb]].
      * apply lookup_gset_to_gmap_Some in Hb as [Hx _].
        rewrite Hs. rewrite Hg in Hx. set_solver.
      * rewrite Hs. assert (x ∈ seen0) by (apply Hdom; eauto). set_solver.
    + intros x b Hb. pose proof Hb as Hb'. unfold bl2 in Hb'.
      apply lookup_union_Some_raw in Hb' as [Hb' | [_ Hb']].
      * apply lookup_gset_to_gmap_Some in Hb' as [Hx <-].
        apply (chosen_new bl2 r res others codes x); try assumption.
        -- apply Hrs. left.
        -- discriminate.
        -- now apply Hgroup.
        -- intros r' Hr'. apply Hnew_entry. now apply Hgroup.
      * apply (chosen_mono bl bl2); [exact Hold_entry | now apply Hch].
    + intros x Hx. rewrite Hs in Hx. apply elem_of_union in Hx as [Hx | Hx].
      * left. exists best. apply Hnew_entry. rewrite Hg. set_solver.
      * apply elem_of_union in Hx as [Hx | Hx].
        -- apply elem_of_singleton in Hx as ->. left. exists best.
           apply Hnew_entry. rewrite Hg. set_solver.
        -- destruct (Hseen x Hx) as [[b Hb] | Hno]; [left | now right].
           exists b. now apply Hold_entry.
    + exists bl'. split; [exact Hrun' |]. split; [exact Hch' |].
      intros x [Hx | Hx]; [apply Hcov; left; rewrite Hs; set_solver |].
      apply elem_of_cons in Hx as [-> | Hx]; apply Hcov; [left | now right].
      rewrite Hs. set_solver.
Qed.

End Run.

(** ** The selection *)



(** The run itself: the counted means of the occupancy are 0.5625 for A and
    0.4375 for B, so A is to be preferred and both residues get A. *)
Example best_alt_locs_example_run :
  exists best_locs,
    best_alt_locs 5 example_structure = Done best_locs
    /\ best_locs !! 100%nat = Some "A"%char
    /\ best_locs !! 101%nat = Some "A"%char
    /\ counted_occupancy example_structure [100; 101]%nat ["A"; "B"]%char "A"
       = float_of 9 (-4)
    /\ counted_occupancy example_structure [100; 101]%nat ["A"; "B"]%char "B"
       = float_of 7 (-4)
    /\ preferred
         (counted_occupancy example_structure [100; 101]%nat ["A"; "B"]%char)
         (counted_bfactor example_structure [100; 101]%nat ["A"; "B"]%char)
         "A" "B".
Proof.
  eexists. split; [vm_compute; reflexivity |].
  repeat split; try (vm_compute; reflexivity).
  left. vm_compute. reflexivity.
Qed.


End BestAltLocsFacts.

Module StructCatsFacts.
Import AtomH Graph StructCats.

(** ** Folds and iteration orders *)

Lemma foldl_invariant {A B} (P : A -> Prop) (f : A -> B -> A) (l : list B) :
  forall a, P a -> (forall a x, x ∈ l -> P a -> P (f a x)) -> P (foldl f a l).
Proof.
  induction l as [|x l IH]; intros a Ha Hstep; simpl; [exact Ha |].
  apply IH.
  - apply Hstep; [left | exact Ha].
  - intros a' y Hy. apply Hstep. now right.
Qed.

Lemma elem_of_in_address_order x (s : gset ptr) : x ∈ in_address_order s <-> x ∈ s.
Proof.
  unfold in_address_order. rewrite merge_sort_Permutation. apply elem_of_elements.
Qed.

(** ** Category assignment *)

Lemma assign_lookup_in l sc (cats : Cats) a :
  a ∈ l -> assign l sc cats !! a = Some sc.
Proof.
  unfold assign. revert cats. induction l as [|x l IH]; intros cats Ha.
  - inversion Ha.
  - simpl. destruct (decide (a ∈ l)) as [Hin | Hnot]; [now apply IH |].
    apply elem_of_cons in Ha as [-> | Ha]; [| contradiction].
    clear IH. revert cats. induction l as [|y l IH]; intros cats; simpl.
    + apply lookup_insert_eq.
    + apply not_elem_of_cons in Hnot as [Hne Hnot].
      rewrite insert_insert_ne by congruence. now apply IH.
Qed.

Lemma assign_lookup_notin l sc (cats : Cats) a :
  a ∉ l -> assign l sc cats !! a = cats !! a.
Proof.
  unfold assign. revert cats. induction l as [|x l IH]; intros cats Ha; simpl.
  - reflexivity.
  - apply not_elem_of_cons in Ha as [Hne Ha].
    rewrite IH by exact Ha. apply lookup_insert_ne. congruence.
Qed.

Lemma assign_keeps l sc (cats : Cats) a :
  cats !! a = Some sc -> assign l sc cats !! a = Some sc.
Proof.
  intros H. destruct (decide (a ∈ l)).
  - now apply assign_lookup_in.
  - now rewrite assign_lookup_notin.
Qed.

Section Lookups.
Variable group_lookup : gmap ptr (list ptr).

Lemma assign_groups_keeps roots sc (cats : Cats) a :
  cats !! a = Some sc -> assign_groups group_lookup roots sc cats !! a = Some sc.
Proof.
  intros H. unfold assign_groups.
  apply (foldl_invariant (fun m : Cats => m !! a = Some sc)); [exact H |].
  intros m x _ Hm. now apply assign_keeps.
Qed.

Lemma assign_groups_in roots sc (cats : Cats) a root :
  root ∈ roots -> a ∈ group group_lookup root ->
  assign_groups group_lookup roots sc cats !! a = Some sc.
Proof.
  revert cats. induction roots as [|r roots IH]; intros cats Hroot Ha.
  - inversion Hroot.
  - apply elem_of_cons in Hroot as [<- | Hroot].
    + change (assign_groups group_lookup roots sc
                (assign (group group_lookup root) sc cats) !! a = Some sc).
      apply assign_groups_keeps. now apply assign_lookup_in.
    + now apply IH.
Qed.

Lemma assign_groups_notin roots sc (cats : Cats) a :
  (forall root, root ∈ roots -> a ∉ group group_lookup root) ->
  assign_groups group_lookup roots sc cats !! a = cats !! a.
Proof.
  intros H. unfold assign_groups.
  apply (foldl_invariant (fun m : Cats => m !! a = cats !! a)); [reflexivity |].
  intros m x Hx Hm. rewrite assign_lookup_notin; [exact Hm | now apply H].
Qed.

End Lookups.

(** ** The two lookup maps *)

Lemma group_lookup_sound bonded root grp :
  make_group_lookup bonded !! root = Some grp ->
  grp ∈ bonded /\ root_of grp = root.
Proof.
  unfold make_group_lookup.
  assert (Hgen : forall m : gmap ptr (list ptr),
             (forall r g, m !! r = Some g -> g ∈ bonded /\ root_of g = r) ->
             forall l, (forall g, g ∈ l -> g ∈ bonded) ->
             forall r g, foldl (fun m grp => <[root_of grp := grp]> m) m l !! r = Some g ->
                         g ∈ bonded /\ root_of g = r).
  { intros m Hm l. revert m Hm. induction l as [|x l IH]; intros m Hm Hl r g; simpl.
    - apply Hm.
    - apply IH.
      + intros r' g' H. destruct (decide (root_of x = r')) as [<- | Hne].
        * rewrite lookup_insert_eq in H. injection H as <-.
          split; [apply Hl; left | reflexivity].
        * rewrite lookup_insert_ne in H by exact Hne. now apply Hm.
      + intros g' Hg'. apply Hl. now right. }
  apply (Hgen ∅); [intros r g H; rewrite lookup_empty in H; discriminate | auto].
Qed.

Lemma atom_to_root_sound bonded a rt :
  make_atom_to_root bonded !! a = Some rt ->
  exists grp, grp ∈ bonded /\ a ∈ grp /\ root_of grp = rt.
Proof.
  unfold make_atom_to_root.
  set (Q := fun m : gmap ptr ptr =>
              forall a rt, m !! a = Some rt ->
                           exists grp, grp ∈ bonded /\ a ∈ grp /\ root_of grp = rt).
  assert (Hgen : forall l, (forall g, g ∈ l -> g ∈ bonded) ->
             forall m, Q m ->
             Q (foldl (fun m grp => foldl (fun m' a => <[a := root_of grp]> m') m grp) m l)).
  { induction l as [|x l IH]; intros Hl m Hm; simpl; [exact Hm |].
    apply IH; [intros g Hg; apply Hl; now right |].
    assert (Hx : x ∈ bonded) by (apply Hl; left).
    assert (Hin : forall k, (forall y, y ∈ k -> y ∈ x) -> forall m', Q m' ->
                    Q (foldl (fun m' a => <[a := root_of x]> m') m' k)).
    { induction k as [|y k IHk]; intros Hk m' Hm'; simpl; [exact Hm' |].
      apply IHk; [intros z Hz; apply Hk; now right |].
      intros a' rt' H. destruct (decide (y = a')) as [<- | Hne].
      - rewrite lookup_insert_eq in H. injection H as <-.
        exists x. repeat split; [exact Hx | apply Hk; left].
      - rewrite lookup_insert_ne in H by exact Hne. now apply Hm'. }
    apply Hin; auto. }
  apply (Hgen bonded); [auto |].
  intros a' rt' H. rewrite lookup_empty in H. discriminate.
Qed.

Lemma elem_of_concat (x : ptr) (ls : list (list ptr)) :
  x ∈ concat ls <-> exists l, l ∈ ls /\ x ∈ l.
Proof.
  induction ls as [|l ls IH]; simpl.
  - split; [intros H; inversion H | intros (l & H & _); inversion H].
  - rewrite elem_of_app, IH. split.
    + intros [H | (l' & H1 & H2)]; [exists l; split; [left | exact H] |].
      exists l'. split; [now right | exact H2].
    + intros (l' & H1 & H2). apply elem_of_cons in H1 as [-> | H1]; [now left |].
      right. exists l'. auto.
Qed.

(** Two groups of a partition that share an atom are the same group. *)
Lemma groups_share_atom (bonded : list (list ptr)) g1 g2 x :
  NoDup (concat bonded) -> g1 ∈ bonded -> g2 ∈ bonded ->
  x ∈ g1 -> x ∈ g2 -> g1 = g2.
Proof.
  induction bonded as [|g bonded IH]; intros Hnd H1 H2 Hx1 Hx2.
  - inversion H1.
  - simpl in Hnd. apply NoDup_app in Hnd as (Hg & Hdisj & Hrest).
    assert (Hcat : forall h, h ∈ bonded -> x ∈ h -> x ∈ concat bonded).
    { intros h Hh Hxh. apply elem_of_concat. exists h. auto. }
    apply elem_of_cons in H1 as [-> | H1]; apply elem_of_cons in H2 as [-> | H2].
    + reflexivity.
    + exfalso. eapply Hdisj; eauto.
    + exfalso. eapply Hdisj; eauto.
    + now apply IH.
Qed.

Lemma root_in_group (grp : list ptr) : grp <> [] -> root_of grp ∈ grp.
Proof. destruct grp; [contradiction | intros _; left]. Qed.

Lemma group_lookup_complete bonded grp :
  NoDup (concat bonded) -> (forall g, g ∈ bonded -> g <> []) ->
  grp ∈ bonded ->
  make_group_lookup bonded !! root_of grp = Some grp.
Proof.
  intros Hnd Hne Hgrp.
  assert (Hsome : is_Some (make_group_lookup bonded !! root_of grp)).
  { unfold make_group_lookup.
    assert (Hgen : forall l (m : gmap ptr (list ptr)),
               is_Some (m !! root_of grp) \/ grp ∈ l ->
               is_Some (foldl (fun m g => <[root_of g := g]> m) m l !! root_of grp)).
    { induction l as [|x l IH]; intros m [Hm | Hl]; simpl.
      - exact Hm.
      - inversion Hl.
      - apply IH. left. destruct (decide (root_of x = root_of grp)) as [-> | Hd].
        + rewrite lookup_insert_eq. eauto.
        + now rewrite lookup_insert_ne.
      - apply IH. apply elem_of_cons in Hl as [<- | Hl]; [left | now right].
        rewrite lookup_insert_eq. eauto. }
    apply Hgen. now right. }
  destruct Hsome as [g Hg]. rewrite Hg. f_equal.
  apply group_lookup_sound in Hg as [Hgb Hroot].
  apply (groups_share_atom bonded g grp (root_of grp)); auto.
  - rewrite <- Hroot. apply root_in_group. now apply Hne.
  - apply root_in_group. now apply Hne.
Qed.

(** ** The passes of the categorisation *)

Section Segregation.
Variable std_solvent_names : list string.
Variable w : World.
Variable GL : gmap ptr (list ptr).

Local Abbreviation small x := (is_small_solvent std_solvent_names w GL x).

Lemma segregate_acc roots : forall sm (rs : gset ptr),
  let out := foldl (fun '(small_solvents, root_set) root =>
                      if small root
                      then (small_solvents ++ [root], root_set)
                      else (small_solvents, {[root]} ∪ root_set))
                   (sm, rs) roots in
  (forall x, x ∈ out.1 <-> x ∈ sm \/ (x ∈ roots /\ small x = true))
  /\ (forall x, x ∈ out.2 <-> x ∈ rs \/ (x ∈ roots /\ small x = false)).
Proof.
  induction roots as [|r roots IH]; intros sm rs; simpl.
  - split; intros x; split; auto; intros [H | [H _]]; [exact H | inversion H | exact H | inversion H].
  - destruct (small r) eqn:E.
    + destruct (IH (sm ++ [r]) rs) as [H1 H2]. split; intros x.
      * rewrite H1, elem_of_app, list_elem_of_singleton, elem_of_cons.
        split; [intros [[H | ->] | [H H']]; auto | intros [H | [[-> | H] H']]; auto].
      * rewrite H2, elem_of_cons.
        split; [intros [H | [H H']]; auto | intros [H | [[-> | H] H']]; auto].
        congruence.
    + destruct (IH sm ({[r]} ∪ rs)) as [H1 H2]. split; intros x.
      * rewrite H1, elem_of_cons.
        split; [intros [H | [H H']]; auto | intros [H | [[-> | H] H']]; auto].
        congruence.
      * rewrite H2, elem_of_union, elem_of_singleton, elem_of_cons.
        split; [intros [[-> | H] | [H H']]; auto | intros [H | [[-> | H] H']]; auto].
Qed.

(** The segregation puts every root in exactly one of the two sides. *)
Lemma segregate_spec roots :
  (forall x, x ∈ (segregate std_solvent_names w GL roots).1
             <-> x ∈ roots /\ small x = true)
  /\ (forall x, x ∈ (segregate std_solvent_names w GL roots).2
              <-> x ∈ roots /\ small x = false).
Proof.
  destruct (segregate_acc roots [] ∅) as [H1 H2]. split; intros x.
  - unfold segregate. rewrite H1. split; [intros [H | H]; [inversion H | exact H] | auto].
  - unfold segregate. rewrite H2. rewrite elem_of_empty. tauto.
Qed.

End Segregation.

Section Ions.
Variable is_noble_gas : nat -> bool.
Variable w : World.
Variable GL : gmap ptr (list ptr).
Variable AR : gmap ptr ptr.

Lemma initial_ions_subset root_set x :
  x ∈ initial_ions is_noble_gas w GL root_set -> x ∈ root_set.
Proof.
  unfold initial_ions.
  apply (foldl_invariant (fun ions : gset ptr => x ∈ ions -> x ∈ root_set)).
  - intros H. now apply elem_of_empty in H.
  - intros ions r Hr IH.
    destruct (_ && _ && _); [| exact IH].
    rewrite elem_of_union, elem_of_singleton. intros [-> | H]; auto.
Qed.

Lemma seen_roots_spec root l x :
  x ∈ foldl (fun (sr : gset ptr) a => {[root_at AR a]} ∪ sr) {[root]} l ->
  x = root \/ exists a', a' ∈ l /\ x = root_at AR a'.
Proof.
  apply (foldl_invariant
           (fun sr : gset ptr => x ∈ sr -> x = root \/ exists a', a' ∈ l /\ x = root_at AR a')).
  - rewrite elem_of_singleton. auto.
  - intros sr a Ha IH. rewrite elem_of_union, elem_of_singleton.
    intros [-> | H]; [right; eauto | auto].
Qed.

Lemma expand_ion_sources root_set st root :
  root ∈ root_set ->
  (forall x, x ∈ st.1 -> ion_source w AR root_set x) ->
  forall x, x ∈ (expand_ion w GL AR st root).1 -> ion_source w AR root_set x.
Proof.
  intros Hroot Hst. destruct st as [ions checked]. unfold expand_ion.
  destruct (decide (length (group GL root) = _)); [exact Hst |].
  destruct (decide (_ ∈ checked)); [exact Hst |].
  cbn [fst].
  apply (foldl_invariant (fun ions' : gset ptr => forall x, x ∈ ions' -> ion_source w AR root_set x)).
  - exact Hst.
  - intros ions' rt Hrt IH x.
    destruct (decide (rt ∈ ions')); [apply IH |].
    destruct (decide (_ < 5)%nat); [| apply IH].
    rewrite elem_of_union, elem_of_singleton. intros [-> | H]; [| now apply IH].
    apply elem_of_in_address_order in Hrt.
    apply seen_roots_spec in Hrt as [-> | (a' & Ha' & ->)].
    + now left.
    + right. eauto.
Qed.

Lemma all_ions_sources root_set x :
  x ∈ all_ions is_noble_gas w GL AR root_set -> ion_source w AR root_set x.
Proof.
  unfold all_ions.
  set (ions0 := initial_ions is_noble_gas w GL root_set).
  revert x.
  apply (foldl_invariant
           (fun st : gset ptr * gset ptr => forall x, x ∈ st.1 -> ion_source w AR root_set x)).
  - intros x Hx. left. now apply initial_ions_subset.
  - intros st root Hroot IH. apply expand_ion_sources; [| exact IH].
    apply elem_of_in_address_order in Hroot. now apply initial_ions_subset.
Qed.

End Ions.

(** ** A segregated group stays Solvent *)

(** The two tests of the segregation loop, on the root of a bonded group. *)
Lemma small_solvent_group_segregated (std_solvent_names : list string)
    (w : World) (bonded : list (list ptr)) (grp : list ptr) :
  NoDup (concat bonded) -> (forall g, g ∈ bonded -> g <> []) -> grp ∈ bonded ->
  small_solvent_name std_solvent_names w grp \/ lone_light_atom w grp ->
  is_small_solvent std_solvent_names w (make_group_lookup bonded) (root_of grp)
  = true.
Proof.
  intros Hnd Hne Hgrp Htest. unfold is_small_solvent, group.
  rewrite (group_lookup_complete bonded grp Hnd Hne Hgrp). cbn [default].
  destruct Htest as [[H1 H2] | (H1 & H2 & H3 & H4)].
  - apply orb_true_iff. left. apply andb_true_iff.
    split; now apply bool_decide_eq_true.
  - apply orb_true_iff. right. rewrite !andb_true_iff.
    repeat split; now apply bool_decide_eq_true.
Qed.

Section SmallSolvent.
Variable std_solvent_names : list string.
Variable is_noble_gas : nat -> bool.
Variable w : World.
Variable bonded : list (list ptr).
Variable G : list ptr.
Variable a : ptr.

Hypothesis partition : NoDup (concat bonded).
Hypothesis non_empty : forall g, g ∈ bonded -> g <> [].
Hypothesis G_bonded : G ∈ bonded.
Hypothesis no_null_atom : nullptr ∉ G.
Hypothesis listed_atoms_point_back :
  forall r x, x ∈ res_atoms w r -> residue_of w x = r.
Hypothesis G_small :
  is_small_solvent std_solvent_names w (make_group_lookup bonded) (root_of G)
  = true.
Hypothesis small_company :
  forall g grp x, g ∈ G -> grp ∈ bonded -> x ∈ grp ->
                  residue_of w x = residue_of w g ->
                  is_small_solvent std_solvent_names w (make_group_lookup bonded)
                    (root_of grp) = true.
Hypothesis a_in_G : a ∈ G.

Local Abbreviation GL := (make_group_lookup bonded).
Local Abbreviation AR := (make_atom_to_root bonded).
Local Abbreviation small x := (is_small_solvent std_solvent_names w GL x).

Lemma group_of_G : group GL (root_of G) = G.
Proof. unfold group. now rewrite group_lookup_complete. Qed.

Lemma group_with_a x : a ∈ group GL x -> x = root_of G.
Proof.
  unfold group. destruct (GL !! x) as [l |] eqn:E; simpl; [| intros H; inversion H].
  intros Hal. apply group_lookup_sound in E as [Hl <-].
  now rewrite (groups_share_atom bonded l G a).
Qed.

(** A group with an atom in a residue of [G] is a small solvent too. *)
Lemma group_sharing_residue x m g :
  m ∈ group GL x -> g ∈ G -> residue_of w m = residue_of w g -> small x = true.
Proof.
  unfold group at 1. destruct (GL !! x) as [l |] eqn:E; simpl; [| intros H; inversion H].
  intros Hm Hg Hres. apply group_lookup_sound in E as [Hl <-].
  eapply small_company; eauto.
Qed.

Lemma key_in_own_group x : x ∈ dom GL -> x ∈ group GL x.
Proof.
  intros Hx. apply elem_of_dom in Hx as [l E]. unfold group. rewrite E. simpl.
  apply group_lookup_sound in E as [Hl <-]. apply root_in_group. now apply non_empty.
Qed.

Lemma not_small_is_not_G x : small x = false -> x <> root_of G.
Proof. intros Hx ->. congruence. Qed.

Lemma assign_main_keeps (cats : Cats) x :
  small x = false -> cats !! a = Some Solvent ->
  assign_main w GL cats x !! a = Some Solvent.
Proof.
  intros Hx Hcats. unfold assign_main.
  assert (H1 : assign (group GL x) Main cats !! a = Some Solvent).
  { rewrite assign_lookup_notin; [exact Hcats |].
    intros Hin. apply (not_small_is_not_G x Hx). now apply group_with_a. }
  destruct (decide (_ = ∅)); [exact H1 |].
  apply (foldl_invariant (fun m : Cats => m !! a = Some Solvent)); [exact H1 |].
  intros m br Hbr Hm.
  rewrite assign_lookup_notin; [exact Hm |].
  intros Hin.
  apply elem_of_in_address_order, elem_of_difference in Hbr as [Hbr _].
  apply elem_of_list_to_set, list_elem_of_fmap in Hbr as (m' & -> & Hm').
  assert (Hsmall : small x = true).
  { apply (group_sharing_residue x m' a); [exact Hm' | exact a_in_G |].
    symmetry. now apply listed_atoms_point_back. }
  congruence.
Qed.

Lemma ion_is_not_root_of_G (rs0 root_set1 : gset ptr) x :
  (forall y, y ∈ rs0 -> y ∈ dom GL /\ small y = false) ->
  (forall y, y ∈ root_set1 -> y ∈ rs0) ->
  x ∈ all_ions is_noble_gas w GL AR (in_address_order root_set1) ->
  x <> root_of G.
Proof.
  intros Hrs0 Hsub Hx.
  apply all_ions_sources in Hx as [Hx | (i & a' & Hi & Ha' & ->)].
  - apply not_small_is_not_G, Hrs0, Hsub. now apply elem_of_in_address_order.
  - apply elem_of_in_address_order, Hsub, Hrs0 in Hi as [Hdom Hne].
    intros Heq. unfold root_at in Heq.
    destruct (AR !! a') as [rt |] eqn:E; simpl in Heq.
    + subst rt. apply atom_to_root_sound in E as (grp & Hgrp & Hin & Hroot).
      assert (Hshare : root_of G ∈ grp).
      { rewrite <- Hroot. apply root_in_group. now apply non_empty. }
      assert (grp = G).
      { apply (groups_share_atom bonded grp G (root_of G)); auto.
        apply root_in_group. now apply non_empty. }
      subst grp.
      assert (Hsmall : small i = true).
      { apply (group_sharing_residue i i a');
          [now apply key_in_own_group | exact Hin |].
        symmetry. now apply listed_atoms_point_back. }
      congruence.
    + apply no_null_atom. rewrite Heq. apply root_in_group. now apply non_empty.
Qed.

(** A group that the segregation loop takes for a small solvent, and whose
    residues hold atoms of such groups only, ends in category Solvent. *)
Lemma small_solvent_stays_solvent (cats0 : Cats) :
  categorize_groups std_solvent_names is_noble_gas w bonded cats0 !! a
  = Some Solvent.
Proof.
  unfold categorize_groups, categorize.
  destruct (segregate_spec std_solvent_names w GL (in_address_order (dom GL)))
    as [Hs1 Hs2].
  destruct (segregate std_solvent_names w GL (in_address_order (dom GL)))
    as [small_solvents rs0]. cbn [fst snd] in Hs1, Hs2.
  assert (Hdom : root_of G ∈ dom GL).
  { apply elem_of_dom. rewrite group_lookup_complete; eauto. }
  assert (Hin_small : root_of G ∈ small_solvents).
  { apply Hs1. split; [now apply elem_of_in_address_order | exact G_small]. }
  assert (Hrs0 : forall y, y ∈ rs0 -> y ∈ dom GL /\ small y = false).
  { intros y Hy. apply Hs2 in Hy as [Hy Hf]. split; [| exact Hf].
    now apply elem_of_in_address_order in Hy. }
  set (solvents := potential_solvents w GL small_solvents (in_address_order rs0)).
  set (cats1 := assign_groups GL small_solvents Solvent cats0).
  assert (P1 : cats1 !! a = Some Solvent).
  { apply (assign_groups_in GL small_solvents Solvent cats0 a (root_of G));
      [exact Hin_small |].
    rewrite group_of_G. exact a_in_G. }
  match goal with
  | |- (let '(root_set1, cats2) := ?p in _) !! a = _ =>
      assert (Hp : (forall y, y ∈ p.1 -> y ∈ rs0) /\ p.2 !! a = Some Solvent);
      [| destruct p as [root_set1 cats2]; cbn [fst snd] in Hp;
         destruct Hp as [Hsub P2]]
  end.
  { destruct (_ && _); cbn [fst snd]; split.
    - intros y Hy. now apply elem_of_difference in Hy as [Hy _].
    - now apply assign_groups_keeps.
    - auto.
    - exact P1. }
  set (ions := all_ions is_noble_gas w GL AR (in_address_order root_set1)).
  assert (P3 : assign_groups GL (in_address_order ions) Ions cats2 !! a = Some Solvent).
  { rewrite assign_groups_notin; [exact P2 |].
    intros root Hroot Hin. apply elem_of_in_address_order in Hroot.
    apply (ion_is_not_root_of_G rs0 root_set1 root Hrs0 Hsub Hroot).
    now apply group_with_a. }
  destruct (decide (root_set1 ∖ ions = ∅)); [exact P3 |].
  set (cutoff := Nat.min _ 250).
  set (ligands := filter _ _).
  assert (Hrest : forall y, y ∈ in_address_order (root_set1 ∖ ions) -> small y = false).
  { intros y Hy. apply elem_of_in_address_order, elem_of_difference in Hy as [Hy _].
    now apply Hrs0, Hsub. }
  apply (foldl_invariant (fun m : Cats => m !! a = Some Solvent)).
  - rewrite assign_groups_notin; [exact P3 |].
    intros root Hroot Hin. apply list_elem_of_filter in Hroot as [_ Hroot].
    apply (not_small_is_not_G root (Hrest root Hroot)). now apply group_with_a.
  - intros m x Hx Hm. apply assign_main_keeps; [| exact Hm].
    apply Hrest. apply elem_of_in_address_order, elem_of_difference in Hx as [Hx _].
    now apply elem_of_in_address_order.
Qed.

End SmallSolvent.

(** ** The bonded groups form a partition *)

Section Partition.
Variable w : World.
Variable conn : ptr -> list ptr.

(** The [while] loop appends to the group only atoms that were not seen
    before, and marks them seen. *)
Lemma expand_appends : forall fuel pending (seen : gset ptr) acc seen' acc',
  expand w conn fuel pending seen acc = Some (seen', acc') ->
  exists k, acc' = acc ++ k /\ NoDup k /\ (forall x, x ∈ k -> x ∉ seen)
            /\ seen' = seen ∪ list_to_set k.
Proof.
  induction fuel as [|fuel IH]; intros pending seen acc seen' acc' Hrun.
  - destruct pending; simpl in Hrun; [| discriminate].
    injection Hrun as <- <-. exists []. rewrite app_nil_r.
    repeat split; [constructor | intros x Hx; inversion Hx |].
    apply set_eq. intros x. rewrite elem_of_union, elem_of_list_to_set.
    split; [auto | intros [H | H]; [exact H | inversion H]].
  - destruct pending as [|pa rest]; simpl in Hrun.
    + injection Hrun as <- <-. exists []. rewrite app_nil_r.
      repeat split; [constructor | intros x Hx; inversion Hx |].
      apply set_eq. intros x. rewrite elem_of_union, elem_of_list_to_set.
      split; [auto | intros [H | H]; [exact H | inversion H]].
    + destruct (decide (pa ∈ seen)) as [Hin | Hnot]; [now apply IH in Hrun |].
      apply IH in Hrun as (k & -> & Hnd & Hfresh & ->).
      exists (pa :: k). repeat split.
      * now rewrite <- app_assoc.
      * constructor; [| exact Hnd].
        intros Hk. apply (Hfresh pa Hk). apply elem_of_union. left.
        now apply elem_of_singleton.
      * intros x Hx. apply elem_of_cons in Hx as [-> | Hx]; [exact Hnot |].
        intros Hs. apply (Hfresh x Hx). apply elem_of_union. now right.
      * apply set_eq. intros x.
        rewrite !elem_of_union, !elem_of_list_to_set, elem_of_cons, elem_of_singleton.
        tauto.
Qed.

Lemma expand_start fuel a (seen : gset ptr) seen' bonded :
  a ∉ seen ->
  expand w conn fuel [a] seen [] = Some (seen', bonded) ->
  root_of bonded = a /\ bonded <> [] /\ NoDup bonded
  /\ (forall x, x ∈ bonded -> x ∉ seen)
  /\ seen' = seen ∪ list_to_set bonded.
Proof.
  intros Hnot Hrun.
  pose proof (expand_appends _ _ _ _ _ _ Hrun) as (k & Hk & Hnd & Hfresh & Hseen).
  simpl in Hk. subst k.
  destruct fuel as [|fuel]; simpl in Hrun; [discriminate |].
  destruct (decide (a ∈ seen)); [contradiction |].
  apply expand_appends in Hrun as (k' & Hk' & _). simpl in Hk'.
  repeat split; try assumption; rewrite Hk'; [reflexivity | discriminate].
Qed.

(** The loop over the atoms keeps the groups non-empty, pairwise disjoint
    and inside [seen]. *)
Lemma groups_loop_partition fuel : forall l (seen : gset ptr) groups out,
  groups_loop w conn fuel l seen groups = Some out ->
  NoDup (concat groups) -> (forall x, x ∈ concat groups -> x ∈ seen) ->
  (forall g, g ∈ groups -> g <> []) ->
  NoDup (concat out) /\ (forall g, g ∈ out -> g <> []).
Proof.
  induction l as [|a l IH]; intros seen groups out Hrun Hnd Hseen Hne.
  - simpl in Hrun. injection Hrun as <-. auto.
  - simpl in Hrun. destruct (decide (a ∈ seen)) as [Hin | Hnot]; [eauto |].
    destruct (expand w conn fuel [a] seen []) as [[seen' bonded] |] eqn:E;
      [| discriminate].
    apply expand_start in E as (_ & Hb & Hbnd & Hfresh & ->); [| exact Hnot].
    apply (IH _ _ _ Hrun).
    + rewrite concat_app. simpl. rewrite app_nil_r. apply NoDup_app.
      repeat split; [exact Hnd | | exact Hbnd].
      intros x Hx Hxb. apply (Hfresh x Hxb). now apply Hseen.
    + intros x. rewrite concat_app. simpl. rewrite app_nil_r, elem_of_app, elem_of_union.
      rewrite elem_of_list_to_set. intros [H | H]; auto.
    + intros g Hg. apply elem_of_app in Hg as [Hg | Hg]; [now apply Hne |].
      apply list_elem_of_singleton in Hg as ->. exact Hb.
Qed.

End Partition.

Lemma bonded_groups_partition fuel w s pbg consider bonded :
  bonded_groups fuel w s pbg consider = Some bonded ->
  NoDup (concat bonded) /\ (forall g, g ∈ bonded -> g <> []).
Proof.
  unfold bonded_groups. intros Hrun.
  apply groups_loop_partition in Hrun; [exact Hrun | constructor | |].
  - intros x Hx. inversion Hx.
  - intros g Hg. inversion Hg.
Qed.

(** ** The bonded groups are computed with bounded fuel *)

Lemma elem_of_set_insert y x l : y ∈ set_insert x l <-> y = x \/ y ∈ l.
Proof.
  induction l as [|z l IH]; simpl.
  - rewrite list_elem_of_singleton. split; [auto | intros [H | H]; [exact H | inversion H]].
  - destruct (decide (x < z)%nat); [now rewrite elem_of_cons |].
    destruct (decide (x = z)) as [-> | Hne].
    + rewrite elem_of_cons. tauto.
    + rewrite !elem_of_cons, IH. tauto.
Qed.

Lemma set_insert_sorted x l :
  StronglySorted lt l -> StronglySorted lt (set_insert x l).
Proof.
  induction 1 as [|z l Hs IH Hall]; simpl.
  - repeat constructor.
  - destruct (decide (x < z)%nat) as [Hlt | Hge].
    + constructor; [now constructor |]. constructor; [exact Hlt |].
      rewrite Forall_forall in *. intros y Hy. specialize (Hall y Hy). lia.
    + destruct (decide (x = z)) as [-> | Hne]; [now constructor |].
      constructor; [exact IH |].
      rewrite Forall_forall in *. intros y Hy.
      apply elem_of_set_insert in Hy as [-> | Hy]; [lia | now apply Hall].
Qed.

Lemma sorted_NoDup (l : list ptr) : StronglySorted lt l -> NoDup l.
Proof.
  induction 1 as [|z l Hs IH Hall]; constructor; [| exact IH].
  intros Hin. rewrite Forall_forall in Hall. specialize (Hall z Hin). lia.
Qed.

Lemma length_le_size (l : list ptr) (U : gset ptr) :
  NoDup l -> (forall x, x ∈ l -> x ∈ U) -> (length l <= size U)%nat.
Proof.
  intros Hnd Hsub. unfold size, set_size. simpl.
  apply submseteq_length, NoDup_submseteq; [exact Hnd |].
  intros x Hx. apply elem_of_elements. now apply Hsub.
Qed.

Section Fuel.
Variable w : World.
Variable conn : ptr -> list ptr.
Variable U : gset ptr.
Hypothesis conn_in_U : forall p x, x ∈ conn p -> x ∈ U.
Hypothesis neighbors_in_U : forall p x, x ∈ neighbors w p -> x ∈ U.

Lemma insert_all_sorted (l pending : list ptr) :
  StronglySorted lt pending ->
  StronglySorted lt (foldl (fun p c => set_insert c p) pending l).
Proof.
  intros H. apply (foldl_invariant (StronglySorted lt)); [exact H |].
  intros p x _ Hp. now apply set_insert_sorted.
Qed.

Lemma insert_all_in_U (l pending : list ptr) :
  (forall x, x ∈ l -> x ∈ U) -> (forall x, x ∈ pending -> x ∈ U) ->
  forall x, x ∈ foldl (fun p c => set_insert c p) pending l -> x ∈ U.
Proof.
  intros Hl H.
  apply (foldl_invariant (fun p : list ptr => forall x, x ∈ p -> x ∈ U)); [exact H |].
  intros p c Hc Hp x Hx. apply elem_of_set_insert in Hx as [-> | Hx]; auto.
Qed.

Lemma expand_enough_fuel : forall fuel pending (seen : gset ptr) acc,
  StronglySorted lt pending -> (forall x, x ∈ pending -> x ∈ U) ->
  (size (U ∖ seen) * S (size U) + length pending <= fuel)%nat ->
  is_Some (expand w conn fuel pending seen acc).
Proof.
  induction fuel as [|fuel IH]; intros pending seen acc Hs HU Hle.
  - destruct pending; simpl in *; [eauto | lia].
  - destruct pending as [|pa rest]; simpl in *; [eauto |].
    assert (Hrest : StronglySorted lt rest) by now inversion Hs.
    destruct (decide (pa ∈ seen)) as [Hin | Hnot].
    + apply IH; [exact Hrest | | lia]. intros x Hx. apply HU. now right.
    + set (p1 := foldl (fun p c => set_insert c p) rest (conn pa)).
      set (p2 := foldl (fun p nb => set_insert nb p) p1 (neighbors w pa)).
      assert (Hs2 : StronglySorted lt p2) by (apply insert_all_sorted, insert_all_sorted, Hrest).
      assert (HU2 : forall x, x ∈ p2 -> x ∈ U).
      { apply insert_all_in_U; [apply neighbors_in_U |].
        apply insert_all_in_U; [apply conn_in_U |].
        intros x Hx. apply HU. now right. }
      apply IH; [exact Hs2 | exact HU2 |].
      pose proof (length_le_size p2 U (sorted_NoDup _ Hs2) HU2) as Hlen.
      assert (Hsplit : U ∖ seen = {[pa]} ∪ U ∖ ({[pa]} ∪ seen)).
      { apply set_eq. intros x.
        rewrite elem_of_union, !elem_of_difference, elem_of_union, elem_of_singleton.
        assert (pa ∈ U) by (apply HU; left).
        destruct (decide (x = pa)) as [-> | Hne]; tauto. }
      pose proof (size_union ({[pa]} : gset ptr) (U ∖ ({[pa]} ∪ seen))) as Hsize.
      rewrite <- Hsplit, size_singleton in Hsize.
      rewrite Hsize in Hle.
      * simpl in Hle. lia.
      * intros x Hx Hx'. apply elem_of_singleton in Hx as ->.
        apply elem_of_difference in Hx' as [_ Hx']. apply Hx'.
        apply elem_of_union. left. now apply elem_of_singleton.
Qed.

Lemma groups_loop_enough_fuel fuel : forall l (seen : gset ptr) groups,
  (forall x, x ∈ l -> x ∈ U) ->
  (S (size U) * S (size U) <= fuel)%nat ->
  is_Some (groups_loop w conn fuel l seen groups).
Proof.
  induction l as [|a l IH]; intros seen groups HU Hfuel; simpl; [eauto |].
  assert (HU' : forall x, x ∈ l -> x ∈ U) by (intros x Hx; apply HU; now right).
  destruct (decide (a ∈ seen)); [now apply IH |].
  destruct (expand_enough_fuel fuel [a] seen []) as [[seen' bonded] E].
  - repeat constructor.
  - intros x Hx. apply list_elem_of_singleton in Hx as ->. apply HU. left.
  - assert (size (U ∖ seen) <= size U)%nat.
    { apply subseteq_size. intros x Hx. now apply elem_of_difference in Hx as [Hx _]. }
    simpl. nia.
  - rewrite E. now apply IH.
Qed.

End Fuel.

Lemma bonded_groups_enough_fuel w s pbg consider fuel :
  (enough_fuel w s pbg <= fuel)%nat ->
  is_Some (bonded_groups fuel w s pbg consider).
Proof.
  intros Hfuel. unfold bonded_groups.
  apply (groups_loop_enough_fuel w _ (universe w s pbg)).
  - intros p x Hx. unfold universe. apply elem_of_union. right.
    destruct consider; [| inversion Hx].
    destruct pbg as [pbs |]; [| inversion Hx]. simpl.
    apply elem_of_list_to_set, elem_of_concat.
    unfold pb_connections in Hx. apply list_elem_of_In, in_flat_map in Hx as (pb & Hpb & Hx).
    apply list_elem_of_In in Hpb, Hx.
    exists [pb.1; pb.2]. split; [apply list_elem_of_fmap; eauto |].
    apply elem_of_app in Hx as [Hx | Hx].
    + destruct (decide (pb.1 = p)); [| inversion Hx].
      apply list_elem_of_singleton in Hx as ->. right. left.
    + destruct (decide (pb.2 = p)); [| inversion Hx].
      apply list_elem_of_singleton in Hx as ->. left.
  - intros p x Hx. unfold universe. apply elem_of_union. left.
    apply elem_of_union. right.
    unfold neighbors in Hx. destruct (atoms w !! p) as [at_p |] eqn:E; [| inversion Hx].
    apply elem_of_list_to_set, elem_of_concat.
    exists (_neighbors at_p). split; [| exact Hx].
    apply list_elem_of_fmap. exists (p, at_p). split; [reflexivity |].
    now apply elem_of_map_to_list.
  - intros x Hx. unfold universe. apply elem_of_union. left.
    apply elem_of_union. left. now apply elem_of_list_to_set.
  - exact Hfuel.
Qed.

(** ** The classification of small solvents *)

(** C2, as the code has it: given enough fuel, [bonded_groups] and
    [_compute_structure_cats] return, and every bonded group of fewer than
    4 atoms whose first atom's residue has a known small-solvent name, and
    every bonded group that is a single atom of atomic number 5 to 8 (boron,
    carbon, nitrogen, oxygen) and the only atom of its residue, ends in
    category Solvent, provided the residues of the group hold no atom of a
    bonded group that is not such a group itself (atoms listed in a residue
    pointing back to it, and no atom at the null address).  Groups that
    share a residue with each other only, as the unbonded atoms of one
    water, are all Solvent. *)
Theorem small_solvent_groups_are_solvent
    (std_solvent_names : list string) (is_noble_gas : nat -> bool)
    (fuel : nat) (w : World) (s : AtomicStructure)
    (pbg : option (list (ptr * ptr))) (cats0 : Cats) :
  (enough_fuel w s pbg <= fuel)%nat ->
  listed_atoms_point_back w ->
  exists bonded cats,
    bonded_groups fuel w s pbg true = Some bonded
    /\ _compute_structure_cats std_solvent_names is_noble_gas fuel w s pbg cats0
       = Some cats
    /\ forall G, G ∈ bonded -> nullptr ∉ G ->
         among_small_solvents std_solvent_names w bonded G ->
         small_solvent_name std_solvent_names w G \/ lone_light_atom w G ->
         forall a, a ∈ G -> cats !! a = Some Solvent.
Proof.
  intros Hfuel Hback.
  destruct (bonded_groups_enough_fuel w s pbg true fuel Hfuel) as [bonded Hrun].
  exists bonded, (categorize_groups std_solvent_names is_noble_gas w bonded cats0).
  split; [exact Hrun |]. split; [unfold _compute_structure_cats; now rewrite Hrun |].
  destruct (bonded_groups_partition _ _ _ _ _ _ Hrun) as [Hnd Hne].
  intros G HG Hnull Hamong Htest a Ha.
  assert (Hback' : forall r x, x ∈ res_atoms w r -> residue_of w x = r).
  { intros r x Hx. unfold res_atoms in Hx.
    destruct (residues w !! r) as [res |] eqn:E; [| inversion Hx].
    apply Hback in E. rewrite Forall_forall in E. now apply E. }
  apply (small_solvent_stays_solvent std_solvent_names is_noble_gas w bonded G a);
    try assumption.
  - now apply small_solvent_group_segregated.
  - intros g grp x Hg Hgrp Hx Hres.
    apply small_solvent_group_segregated; try assumption.
    eapply Hamong; eauto.
Qed.

(** An instance: [water_world], where the water molecule and the lone oxygen
    are such groups. *)
Lemma small_solvent_groups_are_solvent_witness :
  exists bonded cats,
    bonded_groups 100 water_world
      (example_structure [10; 11; 12; 13; 14]%nat [21; 22; 23]%nat) None true
    = Some bonded
    /\ _compute_structure_cats usual_solvent_names usual_noble_gas 100 water_world
         (example_structure [10; 11; 12; 13; 14]%nat [21; 22; 23]%nat) None ∅
       = Some cats
    /\ forall G, G ∈ bonded -> nullptr ∉ G ->
         among_small_solvents usual_solvent_names water_world bonded G ->
         small_solvent_name usual_solvent_names water_world G
         \/ lone_light_atom water_world G ->
         forall a, a ∈ G -> cats !! a = Some Solvent.
Proof.
  apply (small_solvent_groups_are_solvent usual_solvent_names usual_noble_gas 100
           water_world
           (example_structure [10; 11; 12; 13; 14]%nat [21; 22; 23]%nat) None ∅).
  - vm_compute. lia.
  - unfold listed_atoms_point_back. apply (bool_decide_unpack _).
    vm_compute. exact I.
Defined.

(** The run on [water_world]: water and the lone oxygen are Solvent, the
    fluoride is Ions. *)
Example water_world_run :
  exists cats,
    _compute_structure_cats usual_solvent_names usual_noble_gas 100 water_world
      (example_structure [10; 11; 12; 13; 14]%nat [21; 22; 23]%nat) None ∅
    = Some cats
    /\ cats !! 10%nat = Some Solvent /\ cats !! 11%nat = Some Solvent
    /\ cats !! 12%nat = Some Solvent /\ cats !! 13%nat = Some Solvent
    /\ cats !! 14%nat = Some Ions.
Proof.
  eexists. split; [vm_compute; reflexivity |]. repeat split; vm_compute; reflexivity.
Qed.

(** The run on [unbonded_water_world]: the three atoms are three bonded
    groups in one residue, each among small solvents only, and each is
    Solvent. *)
Example unbonded_water_world_run :
  exists cats,
    bonded_groups 100 unbonded_water_world
      (example_structure [10; 11; 12]%nat [21%nat]) None true
    = Some [[10%nat]; [11%nat]; [12%nat]]
    /\ _compute_structure_cats usual_solvent_names usual_noble_gas 100
         unbonded_water_world
         (example_structure [10; 11; 12]%nat [21%nat]) None ∅
       = Some cats
    /\ (forall G, G ∈ [[10%nat]; [11%nat]; [12%nat]] ->
          among_small_solvents usual_solvent_names unbonded_water_world
            [[10%nat]; [11%nat]; [12%nat]] G)
    /\ cats !! 10%nat = Some Solvent /\ cats !! 11%nat = Some Solvent
    /\ cats !! 12%nat = Some Solvent.
Proof.
  eexists. split; [vm_compute; reflexivity |].
  split; [vm_compute; reflexivity |]. split.
  - intros G _ g grp x _ Hgrp _ _. left.
    assert (Hname : forall a, a ∈ [10; 11; 12]%nat ->
              res_name unbonded_water_world
                (residue_of unbonded_water_world a) ∈ usual_solvent_names).
    { intros a Ha. repeat (apply elem_of_cons in Ha as [-> | Ha];
        [vm_compute; apply elem_of_cons; now left |]). inversion Ha. }
    repeat (apply elem_of_cons in Hgrp as [-> | Hgrp];
      [split; [simpl; lia | apply Hname; cbn; rewrite !elem_of_cons; tauto] |]).
    inversion Hgrp.
  - repeat split; vm_compute; reflexivity.
Qed.

(** C2 as stated fails: a single chlorine atom (a halogen) that is a bonded
    group of its own and the only atom of its residue is classified Ions,
    not Solvent; and the unbonded oxygen of a residue "HOH" that also holds
    an atom bonded to a polymer is a bonded group of one atom with a
    small-solvent residue name, and is classified Ligand. *)
Lemma halogen_and_shared_residue_counterexample :
  (bonded_groups 100 chloride_world (example_structure [10%nat] [20%nat]) None true
     = Some [[10%nat]]
   /\ element_number chloride_world 10 = 17%nat
   /\ res_atoms chloride_world (residue_of chloride_world 10) = [10%nat]
   /\ exists cats,
        _compute_structure_cats usual_solvent_names usual_noble_gas 100
          chloride_world (example_structure [10%nat] [20%nat]) None ∅ = Some cats
        /\ cats !! 10%nat = Some Ions /\ cats !! 10%nat <> Some Solvent)
  /\
  (bonded_groups 100 shared_residue_world
     (example_structure [10; 11; 12; 13; 14]%nat [21; 22]%nat) None true
     = Some [[10%nat]; [11; 12; 13; 14]%nat]
   /\ small_solvent_name usual_solvent_names shared_residue_world [10%nat]
   /\ exists cats,
        _compute_structure_cats usual_solvent_names usual_noble_gas 100
          shared_residue_world
          (example_structure [10; 11; 12; 13; 14]%nat [21; 22]%nat) None ∅ = Some cats
        /\ cats !! 10%nat = Some Ligand /\ cats !! 10%nat <> Some Solvent).
Proof.
  split.
  - split; [vm_compute; reflexivity |]. split; [reflexivity |].
    split; [reflexivity |].
    eexists. split; [vm_compute; reflexivity |].
    split; [vm_compute; reflexivity | vm_compute; discriminate].
  - split; [vm_compute; reflexivity |]. split.
    + split; [simpl; lia |]. vm_compute.
      apply elem_of_cons. now left.
    + eexists. split; [vm_compute; reflexivity |].
      split; [vm_compute; reflexivity | vm_compute; discriminate].
Qed.

End StructCatsFacts.

(* ===================================================================== *)
(** * Coordinate sets: lookup after insertion, activation                 *)
(* ===================================================================== *)

Module CoordSetLookupFacts.
Import CoordSetLookup CoordSets.

(** On a vector of live pointers the search ends, either at a member that
    carries the id or at [nullptr] when no member carries it. *)
Lemma find_coord_set_cases h (l : list ptr) i :
  Forall (fun p => is_Some (h !! p)) l ->
  exists r, find_coord_set h l i = Some r
    /\ ((r ∈ l /\ id h r = Some i)
        \/ (r = nullptr /\ forall p, p ∈ l -> id h p <> Some i)).
Proof.
  induction 1 as [|x l [c Hc] Hl IH]; simpl.
  - exists nullptr. split; [reflexivity |]. right. split; [reflexivity |].
    intros p Hp. inversion Hp.
  - unfold id at 1. rewrite Hc. cbn [fmap option_fmap option_map].
    destruct (Z.eqb_spec (_cs_id c) i) as [Heq | Hne].
    + exists x. split; [reflexivity |]. left. split; [left |].
      unfold id. rewrite Hc. simpl. now rewrite Heq.
    + destruct IH as (r & Hr & Hcase). exists r. split; [exact Hr |].
      destruct Hcase as [[Hin Hid] | [-> Hnone]].
      * left. split; [now right | exact Hid].
      * right. split; [reflexivity |]. intros p Hp.
        apply elem_of_cons in Hp as [-> | Hp]; [| now apply Hnone].
        unfold id. rewrite Hc. simpl. congruence.
Qed.

(** In a sorted vector at most one member carries a given id. *)
Lemma sorted_id_unique h (l : list ptr) p q i :
  StronglySorted (id_lt h) l -> p ∈ l -> q ∈ l ->
  id h p = Some i -> id h q = Some i -> p = q.
Proof.
  induction 1 as [|x l Hs IH Hall]; intros Hp Hq Hip Hiq; [inversion Hp |].
  rewrite Forall_forall in Hall.
  apply elem_of_cons in Hp as [-> | Hp]; apply elem_of_cons in Hq as [-> | Hq];
    auto.
  - destruct (Hall q Hq) as (a & b & Ha & Hb & Hlt).
    rewrite Hip in Ha. rewrite Hiq in Hb. injection Ha as <-. injection Hb as <-. lia.
  - destruct (Hall p Hp) as (a & b & Ha & Hb & Hlt).
    rewrite Hiq in Ha. rewrite Hip in Hb. injection Ha as <-. injection Hb as <-. lia.
Qed.

Lemma find_coord_set_hit (st : State) p i :
  well_formed st -> p ∈ _coord_sets st -> id (heap st) p = Some i ->
  find_coord_set (heap st) (_coord_sets st) i = Some p.
Proof.
  intros [Hlive Hs] Hp Hi.
  destruct (find_coord_set_cases (heap st) _ i Hlive) as (r & Hr & [[Hin Hid] | [_ Hnone]]).
  - rewrite Hr. f_equal. eapply sorted_id_unique; eauto.
  - exfalso. exact (Hnone p Hp Hi).
Qed.

Lemma find_coord_set_miss (st : State) i :
  well_formed st -> (forall p, p ∈ _coord_sets st -> id (heap st) p <> Some i) ->
  find_coord_set (heap st) (_coord_sets st) i = Some nullptr.
Proof.
  intros [Hlive Hs] Hnone.
  destruct (find_coord_set_cases (heap st) _ i Hlive) as (r & Hr & [[Hin Hid] | [-> _]]).
  - exfalso. exact (Hnone r Hin Hid).
  - exact Hr.
Qed.

(** When no member carries the id, nothing is deleted by the insertion. *)
Lemma insert_loop_new_id_heap h cs index : forall rest before l h',
  (forall p, p ∈ rest -> id h p <> Some index) ->
  insert_loop before rest cs index h = Some (l, h') -> h' = h.
Proof.
  induction rest as [|csi rest IH]; intros before l h' Hnew Hrun; simpl in Hrun.
  - now injection Hrun as _ <-.
  - destruct (id h csi) as [i |] eqn:Hi; [| discriminate].
    destruct (index <? i); [now injection Hrun as _ <- |].
    destruct (Z.eqb_spec index i) as [-> | Hne].
    + exfalso. apply (Hnew csi); [left | exact Hi].
    + eapply IH; [| exact Hrun]. intros p Hp. apply Hnew. now right.
Qed.

Lemma new_coord_set_sized_new_id_heap (st st' : State) fresh index size r :
  (forall p, p ∈ _coord_sets st -> id (heap st) p <> Some index) ->
  Forall (fun p => is_Some (heap st !! p)) (_coord_sets st) ->
  heap st !! fresh = None ->
  new_coord_set_sized fresh index size st = Some (r, st') ->
  heap st' = <[fresh := {| _cs_id := index; coords_size := size |}]> (heap st).
Proof.
  intros Hnew Hlive Hfresh. unfold new_coord_set_sized, _coord_set_insert.
  set (h := <[fresh := _]> (heap st)).
  assert (Hnew' : forall p, p ∈ _coord_sets st -> id h p <> Some index).
  { intros p Hp. unfold h. rewrite CoordSetFacts.id_insert_other; auto.
    rewrite Forall_forall in Hlive. now apply Hlive. }
  destruct (last (_coord_sets st)) as [back |].
  - destruct (id h back) as [b |]; [| discriminate].
    destruct (b <? index).
    + intros Hrun. now injection Hrun as _ <-.
    + destruct (insert_loop [] (_coord_sets st) fresh index h) as [[l h'] |] eqn:E;
        [| discriminate].
      intros Hrun. injection Hrun as _ <-. simpl.
      eapply insert_loop_new_id_heap; eauto.
  - intros Hrun. now injection Hrun as _ <-.
Qed.

(** The loop, when a member [old] carries the id: the members in front of
    [old] are passed, the object of [old] is deleted and the new pointer is
    put in front of the stale one. *)
Lemma insert_loop_same_id_shape h cs index old : forall rest before,
  StronglySorted (id_lt h) rest ->
  Forall (fun p => is_Some (h !! p)) rest ->
  old ∈ rest -> id h old = Some index ->
  exists l1 l2,
    rest = l1 ++ old :: l2
    /\ insert_loop before rest cs index h
       = Some (before ++ l1 ++ cs :: old :: l2, delete old h)
    /\ (forall p, p ∈ l1 -> id_lt h p old).
Proof.
  induction rest as [|csi rest IH]; intros before Hs Hlive Hold Hid.
  - inversion Hold.
  - inversion Hs as [|? ? Hs' Hall]; subst.
    inversion Hlive as [|? ? [c Hc] Hlive']; subst.
    rewrite Forall_forall in Hall.
    assert (Hcsi : id h csi = Some (_cs_id c)) by (unfold id; now rewrite Hc).
    cbn [insert_loop]. rewrite Hcsi.
    destruct (decide (old = csi)) as [-> | Hne].
    + rewrite Hid in Hcsi. injection Hcsi as Hcsi. rewrite <- Hcsi.
      rewrite Z.ltb_irrefl, Z.eqb_refl.
      exists [], rest. repeat split. intros p Hp. inversion Hp.
    + assert (Hin : old ∈ rest).
      { apply elem_of_cons in Hold as [-> | Hin]; [contradiction | exact Hin]. }
      destruct (Hall old Hin) as (i & j & Hi & Hj & Hlt).
      rewrite Hcsi in Hi. injection Hi as <-. rewrite Hid in Hj. injection Hj as <-.
      destruct (Z.ltb_spec index (_cs_id c)); [lia |].
      destruct (Z.eqb_spec index (_cs_id c)); [lia |].
      destruct (IH (before ++ [csi]) Hs' Hlive' Hin Hid) as (l1 & l2 & -> & Hrun & Hl1).
      exists (csi :: l1), l2. repeat split.
      * rewrite Hrun. now rewrite <- app_assoc.
      * intros p Hp. apply elem_of_cons in Hp as [-> | Hp]; [| now apply Hl1].
        exists (_cs_id c), index. repeat split; [exact Hcsi | exact Hid | lia].
Qed.

(** The search passes the members whose id differs from the one looked
    for. *)
Lemma find_coord_set_skip h j (l1 rest : list ptr) :
  (forall p, p ∈ l1 -> exists i, id h p = Some i /\ i <> j) ->
  find_coord_set h (l1 ++ rest) j = find_coord_set h rest j.
Proof.
  induction l1 as [|x l1 IH]; intros Hl1; [reflexivity |].
  simpl. destruct (Hl1 x) as (i & Hi & Hne); [left |]. rewrite Hi.
  destruct (Z.eqb_spec i j); [contradiction |].
  apply IH. intros p Hp. apply Hl1. now right.
Qed.

(** X1: insertion and lookup: a coordinate set created under an id that no
    coordinate set has yet leaves the vector sorted with every pointer live;
    [find_coord_set] then returns the new coordinate set for that id and
    answers every other id as before. *)
Theorem find_coord_set_after_new_coord_set
    (st : State) (fresh : ptr) (index : Z) (size : nat) :
  well_formed st ->
  heap st !! fresh = None ->
  (forall p, p ∈ _coord_sets st -> id (heap st) p <> Some index) ->
  exists st',
    new_coord_set_sized fresh index size st = Some (fresh, st')
    /\ well_formed st'
    /\ find_coord_set (heap st') (_coord_sets st') index = Some fresh
    /\ forall j, j <> index ->
         find_coord_set (heap st') (_coord_sets st') j
         = find_coord_set (heap st) (_coord_sets st) j.
Proof.
  intros Hwf Hfresh Hnew.
  destruct (CoordSetFacts.new_coord_set_new_id_keeps_sorted st fresh index size
              Hwf Hfresh Hnew) as (st' & Hrun & Hwf' & Hmem).
  pose proof Hwf as [Hlive Hs].
  pose proof (new_coord_set_sized_new_id_heap _ _ _ _ _ _ Hnew Hlive Hfresh Hrun)
    as Hheap.
  assert (Hold : forall p, p ∈ _coord_sets st -> id (heap st') p = id (heap st) p).
  { intros p Hp. rewrite Hheap. apply CoordSetFacts.id_insert_other; [exact Hfresh |].
    rewrite Forall_forall in Hlive. now apply Hlive. }
  assert (Hnewid : id (heap st') fresh = Some index).
  { rewrite Hheap. unfold id. now rewrite lookup_insert_eq. }
  exists st'. split; [exact Hrun |]. split; [exact Hwf' |]. split.
  - apply find_coord_set_hit; [exact Hwf' | | exact Hnewid]. apply Hmem. now left.
  - intros j Hj.
    destruct (find_coord_set_cases (heap st) (_coord_sets st) j Hlive)
      as (r & Hr & [[Hin Hid] | [-> Hnone]]); rewrite Hr.
    + apply find_coord_set_hit; [exact Hwf' | | ].
      * apply Hmem. now right.
      * now rewrite Hold.
    + apply find_coord_set_miss; [exact Hwf' |].
      intros p Hp. apply Hmem in Hp as [-> | Hp].
      * rewrite Hnewid. congruence.
      * rewrite Hold by exact Hp. now apply Hnone.
Qed.

(** An instance: in [example_state] a coordinate set with id 3 is created
    at address 3. *)
Lemma find_coord_set_after_new_coord_set_witness :
  exists st',
    new_coord_set_sized 3 3 0 example_state = Some (3%nat, st')
    /\ well_formed st'
    /\ find_coord_set (heap st') (_coord_sets st') 3 = Some 3%nat
    /\ forall j, j <> 3 ->
         find_coord_set (heap st') (_coord_sets st') j
         = find_coord_set (heap example_state) (_coord_sets example_state) j.
Proof.
  apply (find_coord_set_after_new_coord_set example_state 3%nat 3 0%nat).
  - split; simpl.
    + repeat constructor; eexists; reflexivity.
    + repeat constructor. exists 0, 5. repeat split.
  - reflexivity.
  - simpl. intros p Hp.
    apply elem_of_cons in Hp as [-> | Hp]; [vm_compute; congruence |].
    apply elem_of_cons in Hp as [-> | Hp]; [vm_compute; congruence |].
    inversion Hp.
Defined.

(** X2: lookup after a replacement: when the id is already taken, the new
    coordinate set is inserted in front of the pointer to the deleted one.
    [find_coord_set] meets the new one first and returns it for that id; a
    search for any larger id goes on to the deleted object and reads its id,
    which is undefined. *)
Theorem find_coord_set_after_same_id
    (st : State) (fresh old : ptr) (index : Z) (size : nat) :
  well_formed st ->
  heap st !! fresh = None ->
  old ∈ _coord_sets st ->
  id (heap st) old = Some index ->
  exists st',
    new_coord_set_sized fresh index size st = Some (fresh, st')
    /\ find_coord_set (heap st') (_coord_sets st') index = Some fresh
    /\ forall j, index < j ->
         find_coord_set (heap st') (_coord_sets st') j = None.
Proof.
  intros [Hlive Hs] Hfresh Hold Hid.
  unfold new_coord_set_sized, _coord_set_insert.
  set (c := {| _cs_id := index; coords_size := size |}).
  set (h := <[fresh := c]> (heap st)).
  assert (Hlive' : Forall (fun p => is_Some (h !! p)) (_coord_sets st)).
  { rewrite Forall_forall in *. intros p Hp. destruct (Hlive p Hp) as [x Hx].
    exists x. unfold h. rewrite lookup_insert_ne; [exact Hx | congruence]. }
  assert (Hs' : StronglySorted (id_lt h) (_coord_sets st))
    by now apply CoordSetFacts.sorted_insert_other.
  assert (Hid' : id h old = Some index).
  { unfold h. rewrite CoordSetFacts.id_insert_other; auto.
    rewrite Forall_forall in Hlive. now apply Hlive. }
  assert (Hne : fresh <> old).
  { intros ->. unfold id in Hid. rewrite Hfresh in Hid. discriminate. }
  destruct (last (_coord_sets st)) as [back |] eqn:Hlast.
  2: { apply last_None in Hlast. rewrite Hlast in Hold. inversion Hold. }
  assert (Hge : exists b, id h back = Some b /\ index <= b).
  { destruct (CoordSetFacts.last_is_max h _ back Hs' Hlast old Hold)
      as [-> | (i & j & Hi & Hj & Hlt)].
    - exists index. split; [exact Hid' | lia].
    - rewrite Hid' in Hi. injection Hi as <-. exists j. split; [exact Hj | lia]. }
  destruct Hge as (b & Hb & Hle). rewrite Hb.
  destruct (Z.ltb_spec b index); [lia |].
  destruct (insert_loop_same_id_shape h fresh index old (_coord_sets st) []
              Hs' Hlive' Hold Hid') as (l1 & l2 & Hsplit & Hrun & Hl1).
  rewrite Hrun. eexists. split; [reflexivity |]. cbn [_coord_sets heap app].
  assert (Hpass : forall j, index <= j ->
            forall p, p ∈ l1 -> exists i, id (delete old h) p = Some i /\ i <> j).
  { intros j Hj p Hp. destruct (Hl1 p Hp) as (i & k & Hi & Hk & Hlt).
    rewrite Hid' in Hk. injection Hk as <-. exists i. split; [| lia].
    unfold id. rewrite lookup_delete_ne; [exact Hi |].
    intros <-. rewrite Hid' in Hi. injection Hi as ?. lia. }
  assert (Hf : id (delete old h) fresh = Some index).
  { unfold id, h. rewrite lookup_delete_ne by congruence.
    now rewrite lookup_insert_eq. }
  split.
  - rewrite find_coord_set_skip by (apply Hpass; lia).
    simpl. rewrite Hf, Z.eqb_refl. reflexivity.
  - intros j Hj. rewrite find_coord_set_skip by (apply Hpass; lia).
    simpl. rewrite Hf. destruct (Z.eqb_spec index j); [lia |].
    unfold id. now rewrite lookup_delete_eq.
Qed.

(** An instance: in [example_state] a second coordinate set with id 0 is
    created at address 3; the search for id 5 is then undefined. *)
Lemma find_coord_set_after_same_id_witness :
  exists st',
    new_coord_set_sized 3 0 0 example_state = Some (3%nat, st')
    /\ find_coord_set (heap st') (_coord_sets st') 0 = Some 3%nat
    /\ forall j, 0 < j -> find_coord_set (heap st') (_coord_sets st') j = None.
Proof.
  apply (find_coord_set_after_same_id example_state 3%nat 1%nat 0 0%nat).
  - split; simpl.
    + repeat constructor; eexists; reflexivity.
    + repeat constructor. exists 0, 5. repeat split.
  - reflexivity.
  - simpl. apply elem_of_cons. now left.
  - reflexivity.
Defined.

(** ** set_active_coord_set *)

(** X3: the call fails, with [out_of_range], exactly for a non-null pointer that
    is not in the vector.  Otherwise the vector is as before, the active
    coordinate set afterwards is a member of the vector (the first one for
    [nullptr]) unless the vector is empty, in which case nothing changes, and
    the change tracker is told once if the active coordinate set changed and
    not at all if it did not. *)
Theorem set_active_coord_set_outcome (cs : ptr) (s : Structure) :
  match set_active_coord_set cs s with
  | Throws what =>
      what = "Requested active coord set not in coord sets"%string
      /\ cs <> nullptr /\ cs ∉ CoordSetLookup._coord_sets s
  | Undefined => False
  | Value s' =>
      (cs = nullptr \/ cs ∈ CoordSetLookup._coord_sets s)
      /\ CoordSetLookup._coord_sets s' = CoordSetLookup._coord_sets s
      /\ ((_active_coord_set s' ∈ CoordSetLookup._coord_sets s
           /\ (cs <> nullptr -> _active_coord_set s' = cs)
           /\ (cs = nullptr ->
               head (CoordSetLookup._coord_sets s) = Some (_active_coord_set s')))
          \/ (CoordSetLookup._coord_sets s = [] /\ s' = s))
      /\ add_modified_calls s'
         = add_modified_calls s
           ++ (if decide (_active_coord_set s' = _active_coord_set s)
               then [] else [REASON_ACTIVE_COORD_SET])
  end.
Proof.
  unfold set_active_coord_set.
  destruct (decide (cs = nullptr)) as [-> | Hne].
  - destruct (CoordSetLookup._coord_sets s) as [|front rest] eqn:Hv.
    + split; [now left |]. split; [first [exact Hv | reflexivity] |]. split; [now right |].
      destruct (decide (_ = _)); [now rewrite app_nil_r | contradiction].
    + destruct (decide (_active_coord_set s ≠ front)) as [Hch | Hsame]; cbn.
      * split; [now left |]. split; [first [exact Hv | reflexivity] |]. split.
        -- left. split; [left |]. split; [intros H; now contradiction H | reflexivity].
        -- destruct (decide (front = _active_coord_set s)); [congruence | reflexivity].
      * apply dec_stable in Hsame.
        split; [now left |]. split; [first [exact Hv | reflexivity] |]. split.
        -- left. rewrite Hsame. split; [left |].
           split; [intros H; now contradiction H | reflexivity].
        -- destruct (decide (_ = _)); [now rewrite app_nil_r | contradiction].
  - destruct (Graph.find_index cs (CoordSetLookup._coord_sets s)) as [i |] eqn:Hfind.
    + assert (Hin : cs ∈ CoordSetLookup._coord_sets s).
      { destruct (decide (cs ∈ CoordSetLookup._coord_sets s)) as [H | H]; [exact H |].
        apply GraphFacts.find_index_None in H. congruence. }
      destruct (decide (_active_coord_set s ≠ cs)) as [Hch | Hsame]; cbn.
      * split; [now right |]. split; [reflexivity |]. split.
        -- left. split; [exact Hin |]. split; [reflexivity | congruence].
        -- destruct (decide (cs = _active_coord_set s)); [congruence | reflexivity].
      * apply dec_stable in Hsame.
        split; [now right |]. split; [reflexivity |]. split.
        -- left. rewrite Hsame. split; [exact Hin |]. split; [reflexivity | congruence].
        -- destruct (decide (_ = _)); [now rewrite app_nil_r | contradiction].
    + split; [reflexivity |]. split; [exact Hne |].
      now apply GraphFacts.find_index_None.
Qed.

(** X4: activating the same coordinate set again changes nothing and tells the
    change tracker nothing. *)
Theorem set_active_coord_set_idempotent (cs : ptr) (s s' : Structure) :
  set_active_coord_set cs s = Value s' ->
  set_active_coord_set cs s' = Value s'.
Proof.
  unfold set_active_coord_set.
  destruct (decide (cs = nullptr)) as [-> | Hne].
  - destruct (CoordSetLookup._coord_sets s) as [|front rest] eqn:Hv.
    + intros H. injection H as <-. now rewrite Hv.
    + destruct (decide (_active_coord_set s ≠ front)) as [Hch | Hsame];
        intros H; injection H as <-; cbn.
      * destruct (decide (front ≠ front)); [contradiction | reflexivity].
      * rewrite Hv. destruct (decide (_active_coord_set s ≠ front));
          [contradiction | reflexivity].
  - destruct (Graph.find_index cs (CoordSetLookup._coord_sets s)) as [i |] eqn:Hfind;
      [| discriminate].
    destruct (decide (_active_coord_set s ≠ cs)) as [Hch | Hsame];
      intros H; injection H as <-; cbn.
    + rewrite Hfind. destruct (decide (cs ≠ cs)); [contradiction | reflexivity].
    + rewrite Hfind. destruct (decide (_active_coord_set s ≠ cs));
        [contradiction | reflexivity].
Qed.

(** An instance: the second of two coordinate sets is activated. *)
Lemma set_active_coord_set_idempotent_witness :
  set_active_coord_set 2
    {| CoordSetLookup._coord_sets := [1%nat; 2%nat]; _active_coord_set := 2%nat;
       _gc_shape := true;
       add_modified_calls := [REASON_ACTIVE_COORD_SET] |}
  = Value {| CoordSetLookup._coord_sets := [1%nat; 2%nat];
             _active_coord_set := 2%nat; _gc_shape := true;
             add_modified_calls := [REASON_ACTIVE_COORD_SET] |}.
Proof.
  apply (set_active_coord_set_idempotent 2
           {| CoordSetLookup._coord_sets := [1%nat; 2%nat];
              _active_coord_set := 1%nat; _gc_shape := false;
              add_modified_calls := [] |}).
  reflexivity.
Defined.

End CoordSetLookupFacts.

(* ===================================================================== *)
(** * Residues: placement of a new residue, lookup after creation         *)
(* ===================================================================== *)

Module ResidueFacts.
Import Residues.

Lemma find_index_split p (l : list ptr) i :
  Graph.find_index p l = Some i ->
  exists l1 l2, l = l1 ++ p :: l2 /\ (p ∉ l1) /\ length l1 = i.
Proof.
  revert i. induction l as [|q l IH]; intros i; simpl; [discriminate |].
  destruct (decide (q = p)) as [-> | Hne].
  - intros H. injection H as <-. exists [], l. repeat split. intros H. inversion H.
  - destruct (Graph.find_index p l) as [j |]; [| discriminate].
    intros H. injection H as <-.
    destruct (IH j eq_refl) as (l1 & l2 & -> & Hnot & Hlen).
    exists (q :: l1), l2. repeat split.
    + apply not_elem_of_cons. split; [congruence | exact Hnot].
    + simpl. now rewrite Hlen.
Qed.

(** X5: where the new residue goes: at the end without a waypoint, else right
    after or right before the first occurrence of the waypoint, the other
    residues keeping their order.  A waypoint that is not in the vector
    makes the call throw [out_of_range]. *)
Theorem new_residue_placement (fresh : ptr) (nm chain : string) (pos : Z)
    (insert : ascii) (neighbor : ptr) (after : bool) (s : State) :
  match new_residue fresh nm chain pos insert neighbor after s with
  | Throws what =>
      what = "Waypoint residue not in residue list"%string
      /\ neighbor <> nullptr /\ neighbor ∉ _residues s
  | Undefined => False
  | Value (r, s') =>
      r = fresh
      /\ heap s' = <[fresh := {| name := nm; chain_id := chain; position := pos;
                                 insertion_code := insert |}]> (heap s)
      /\ ((neighbor = nullptr /\ _residues s' = _residues s ++ [fresh])
          \/ exists l1 l2,
               neighbor <> nullptr
               /\ _residues s = l1 ++ neighbor :: l2 /\ (neighbor ∉ l1)
               /\ _residues s'
                  = if after then l1 ++ neighbor :: fresh :: l2
                    else l1 ++ fresh :: neighbor :: l2)
  end.
Proof.
  unfold new_residue. destruct (decide (neighbor = nullptr)) as [-> | Hne].
  - repeat split. now left.
  - destruct (Graph.find_index neighbor (_residues s)) as [i |] eqn:Hfind.
    + split; [reflexivity |]. split; [reflexivity |]. right.
      destruct (find_index_split _ _ _ Hfind) as (l1 & l2 & Hl & Hnot & Hlen).
      exists l1, l2. split; [exact Hne |]. split; [exact Hl |]. split; [exact Hnot |].
      cbn [_residues]. unfold insert_at. rewrite Hl. subst i. destruct after.
      * rewrite (cons_middle neighbor l1 l2), app_assoc.
        replace (S (length l1)) with (length (l1 ++ [neighbor]))
          by (rewrite length_app; simpl; lia).
        rewrite take_app_length, drop_app_length, <- app_assoc. reflexivity.
      * now rewrite take_app_length, drop_app_length.
    + repeat split; [exact Hne |]. now apply GraphFacts.find_index_None.
Qed.

(** The search on live residues ends: at the first residue with the
    identifiers, or at [nullptr] when no residue has them. *)
Lemma find_residue_in_cases h (l : list ptr) chain pos insert :
  Forall (fun r => is_Some (h !! r)) l ->
  exists r, find_residue_in h l chain pos insert = Some r
    /\ ((exists l1 l2 res, l = l1 ++ r :: l2 /\ h !! r = Some res
           /\ position res = pos /\ chain_id res = chain
           /\ insertion_code res = insert
           /\ forall q, q ∈ l1 ->
                ~ matches {| _residues := l; heap := h |} q chain pos insert)
        \/ (r = nullptr
            /\ forall q, q ∈ l ->
                 ~ matches {| _residues := l; heap := h |} q chain pos insert)).
Proof.
  induction 1 as [|x l [res Hres] Hl IH]; simpl.
  - exists nullptr. split; [reflexivity |]. right. split; [reflexivity |].
    intros q Hq. inversion Hq.
  - rewrite Hres.
    destruct ((position res =? pos) && String.eqb (chain_id res) chain
              && Ascii.eqb (insertion_code res) insert) eqn:Htest.
    + apply andb_prop in Htest as [Htest Hi]. apply andb_prop in Htest as [Hp Hc].
      apply Z.eqb_eq in Hp. apply String.eqb_eq in Hc. apply Ascii.eqb_eq in Hi.
      exists x. split; [reflexivity |]. left. exists [], l, res.
      repeat split; auto. intros q Hq. inversion Hq.
    + assert (Hx : forall st, heap st = h -> ~ matches st x chain pos insert).
      { intros st <- (res' & Hres' & Hp & Hc & Hi). rewrite Hres in Hres'.
        injection Hres' as <-.
        apply Z.eqb_eq in Hp. apply String.eqb_eq in Hc. apply Ascii.eqb_eq in Hi.
        rewrite Hp, Hc, Hi in Htest. discriminate. }
      destruct IH as (r & Hr & Hcase). exists r. split; [exact Hr |].
      destruct Hcase as [(l1 & l2 & res' & -> & Hr' & Hp & Hc & Hi & Hbefore) | [-> Hnone]].
      * left. exists (x :: l1), l2, res'. repeat split; auto.
        intros q Hq. apply elem_of_cons in Hq as [-> | Hq]; [now apply Hx |].
        intros Hm. apply (Hbefore q Hq). exact Hm.
      * right. split; [reflexivity |]. intros q Hq.
        apply elem_of_cons in Hq as [-> | Hq]; [now apply Hx |].
        intros Hm. apply (Hnone q Hq). exact Hm.
Qed.

Lemma find_residue_in_app h fresh res (l : list ptr) chain pos insert :
  Forall (fun r => is_Some (h !! r)) l ->
  h !! nullptr = None -> h !! fresh = None ->
  exists r0,
    find_residue_in h l chain pos insert = Some r0
    /\ find_residue_in (<[fresh := res]> h) (l ++ [fresh]) chain pos insert
       = if decide (r0 = nullptr)
         then find_residue_in (<[fresh := res]> h) [fresh] chain pos insert
         else Some r0.
Proof.
  intros Hlive Hnull Hfresh.
  induction Hlive as [|x l [rx Hx] Hl IH].
  - exists nullptr. split; [reflexivity |].
    destruct (decide (nullptr = nullptr)); [reflexivity | contradiction].
  - cbn [find_residue_in app]. rewrite Hx.
    rewrite lookup_insert_ne by (intros ->; congruence). rewrite Hx.
    destruct ((position rx =? pos) && String.eqb (chain_id rx) chain
              && Ascii.eqb (insertion_code rx) insert).
    + exists x. split; [reflexivity |].
      destruct (decide (x = nullptr)) as [-> | _]; [congruence | reflexivity].
    + exact IH.
Qed.

(** X6: creation and lookup: after a residue has been appended, a lookup
    answers as before when it found a residue before (an existing residue
    with the same chain id, position and insertion code keeps shadowing the
    new one); a lookup that found none now finds the new residue when it
    asks for its chain id, position and insertion code, and still none
    otherwise. *)
Theorem find_residue_after_new_residue (fresh : ptr) (nm chain : string)
    (pos : Z) (insert : ascii) (after : bool) (s s' : State)
    (c : string) (p : Z) (i : ascii) :
  all_live s -> heap s !! nullptr = None -> heap s !! fresh = None ->
  new_residue fresh nm chain pos insert nullptr after s = Value (fresh, s') ->
  exists r0,
    find_residue s c p i = Some r0
    /\ find_residue s' c p i
       = Some (if decide (r0 = nullptr)
               then if decide (p = pos /\ c = chain /\ i = insert)
                    then fresh else nullptr
               else r0).
Proof.
  intros Hlive Hnull Hfresh Hrun. unfold new_residue in Hrun.
  destruct (decide (nullptr = nullptr)); [| contradiction].
  injection Hrun as <-. unfold find_residue. cbn [_residues heap].
  set (res := {| name := nm; chain_id := chain; position := pos;
                 insertion_code := insert |}).
  destruct (find_residue_in_app (heap s) fresh res (_residues s) c p i
              Hlive Hnull Hfresh) as (r0 & Hr0 & Hnew).
  exists r0. split; [exact Hr0 |]. rewrite Hnew.
  destruct (decide (r0 = nullptr)); [| reflexivity].
  cbn [find_residue_in]. rewrite lookup_insert_eq. cbn [position chain_id insertion_code res].
  destruct (decide (p = pos /\ c = chain /\ i = insert)) as [(-> & -> & ->) | Hno].
  - now rewrite Z.eqb_refl, String.eqb_refl, Ascii.eqb_refl.
  - destruct ((pos =? p) && String.eqb chain c && Ascii.eqb insert i) eqn:Htest;
      [| reflexivity].
    apply andb_prop in Htest as [Htest Hi]. apply andb_prop in Htest as [Hp Hc].
    apply Z.eqb_eq in Hp. apply String.eqb_eq in Hc. apply Ascii.eqb_eq in Hi.
    exfalso. apply Hno. repeat split; congruence.
Qed.

(** An instance: residue 7 of chain "A" is appended to [example_state] and
    then looked up. *)
Lemma find_residue_after_new_residue_witness :
  exists r0,
    find_residue example_state "A" 7 " " = Some r0
    /\ find_residue
         {| _residues := [1%nat; 2%nat; 3%nat];
            heap := <[3%nat := {| name := "SER"; chain_id := "A"; position := 7;
                                  insertion_code := " " |}]>
                      (heap example_state) |} "A" 7 " "
       = Some (if decide (r0 = nullptr)
               then if decide (7 = 7 /\ "A"%string = "A"%string
                               /\ " "%char = " "%char)
                    then 3%nat else nullptr
               else r0).
Proof.
  apply (find_residue_after_new_residue 3 "SER" "A" 7 " " false example_state).
  - repeat constructor; eexists; reflexivity.
  - reflexivity.
  - reflexivity.
  - reflexivity.
Defined.

(** X7: the two overloads agree where they can: on live residues both searches
    end; a residue found with a name also has the three other identifiers,
    so the search without name finds a residue too; and when the residue
    found without name carries the name asked for, the search with name
    returns that same residue. *)
Theorem find_residue_named_refines (s : State) (chain : string) (pos : Z)
    (insert : ascii) (nm : string) :
  all_live s -> heap s !! nullptr = None ->
  exists r3 r4,
    find_residue s chain pos insert = Some r3
    /\ find_residue_named s chain pos insert nm = Some r4
    /\ (r4 <> nullptr ->
        r3 <> nullptr /\ matches s r4 chain pos insert
        /\ name <$> heap s !! r4 = Some nm)
    /\ (r3 <> nullptr -> name <$> heap s !! r3 = Some nm -> r4 = r3).
Proof.
  intros Hlive Hnull. unfold find_residue, find_residue_named, matches.
  induction Hlive as [|x l [rx Hx] Hl IH].
  - exists nullptr, nullptr. repeat split; try reflexivity; contradiction.
  - cbn [find_residue_in find_residue_named_in]. rewrite Hx.
    assert (Hxn : x <> nullptr) by (intros ->; congruence).
    destruct (Z.eqb_spec (position rx) pos) as [Hp | Hp];
      destruct (String.eqb_spec (chain_id rx) chain) as [Hc | Hc];
      destruct (Ascii.eqb_spec (insertion_code rx) insert) as [Hi | Hi];
      destruct (String.eqb_spec (name rx) nm) as [Hn | Hn]; cbn [andb];
      try exact IH.
    + exists x, x. repeat split; auto.
      * exists rx. auto.
      * rewrite Hx. simpl. now rewrite Hn.
    + destruct IH as (r3 & r4 & _ & H4 & Hsound & _).
      exists x, r4. split; [reflexivity |]. split; [exact H4 |]. split.
      * intros Hr4. destruct (Hsound Hr4) as (_ & Hm & Hname). auto.
      * intros _. rewrite Hx. simpl. congruence.
Qed.

(** An instance on [example_state]. *)
Lemma find_residue_named_refines_witness :
  exists r3 r4,
    find_residue example_state "A" 6 " " = Some r3
    /\ find_residue_named example_state "A" 6 " " "GLY" = Some r4
    /\ (r4 <> nullptr ->
        r3 <> nullptr /\ matches example_state r4 "A" 6 " "
        /\ name <$> heap example_state !! r4 = Some "GLY"%string)
    /\ (r3 <> nullptr -> name <$> heap example_state !! r3 = Some "GLY"%string
        -> r4 = r3).
Proof.
  apply (find_residue_named_refines example_state "A" 6 " " "GLY").
  - repeat constructor; eexists; reflexivity.
  - reflexivity.
Defined.

End ResidueFacts.

(* ===================================================================== *)
(** * Polymers: shape of the result, chain ids met once                   *)
(* ===================================================================== *)

Module PolymerFacts.
Import Polymers.

Section Reads.
Variable polymeric_start_atom : ptr -> ptr.
Variable other_atom : ptr -> ptr -> ptr.
Variable atom_residue : ptr -> ptr.
Variable chain_id : ptr -> string.

Local Abbreviation connect_bonds :=
  (Polymers.connect_bonds polymeric_start_atom other_atom atom_residue chain_id).
Local Abbreviation connect_pseudobonds :=
  (Polymers.connect_pseudobonds atom_residue chain_id).
Local Abbreviation connections :=
  (Polymers.connections polymeric_start_atom other_atom atom_residue chain_id).
Local Abbreviation polymers :=
  (Polymers.polymers polymeric_start_atom other_atom atom_residue chain_id).
Local Abbreviation unique_chain_id := (Polymers.unique_chain_id chain_id).
Local Abbreviation count_chain_id := (Polymers.count_chain_id chain_id).

(** ** The index map *)

Lemma index_residues_bound : forall (l : list ptr) i (m : gmap ptr Z),
  0 <= i ->
  (forall r, 0 <= at0 m r < Z.max 1 i) ->
  forall r, 0 <= at0 (index_residues i l m) r < Z.max 1 (i + Z.of_nat (length l)).
Proof.
  induction l as [|x l IH]; intros i m Hi Hm r; simpl.
  - rewrite Z.add_0_r. apply Hm.
  - replace (i + Z.of_nat (S (length l)))
      with ((i + 1) + Z.of_nat (length l)) by lia.
    apply IH; [lia |]. intros q. unfold at0.
    destruct (decide (x = q)) as [-> | Hne].
    + rewrite lookup_insert_eq. simpl. lia.
    + rewrite lookup_insert_ne by exact Hne. specialize (Hm q). unfold at0 in Hm. lia.
Qed.

Lemma index_residues_notin : forall (l : list ptr) i (m : gmap ptr Z) r,
  r ∉ l -> at0 (index_residues i l m) r = at0 m r.
Proof.
  induction l as [|x l IH]; intros i m r Hr; simpl; [reflexivity |].
  apply not_elem_of_cons in Hr as [Hne Hr]. rewrite IH by exact Hr.
  unfold at0. now rewrite lookup_insert_ne by congruence.
Qed.

Lemma index_residues_last : forall (l : list ptr) i (m : gmap ptr Z) x,
  last l = Some x ->
  at0 (index_residues i l m) x = i + Z.of_nat (length l) - 1.
Proof.
  induction l as [|y l IH]; intros i m x Hlast; [discriminate |].
  destruct l as [|z l'].
  - simpl in Hlast. injection Hlast as ->. simpl. unfold at0.
    rewrite lookup_insert_eq. simpl. lia.
  - change (index_residues i (y :: z :: l') m)
      with (index_residues (i + 1) (z :: l') (<[y := i]> m)).
    rewrite (IH (i + 1) _ x) by exact Hlast.
    change (length (y :: z :: l')) with (S (length (z :: l'))). lia.
Qed.

(** ** What gets connected *)

Lemma connect_bonds_successor cci res_lookup : forall bonds (conn : gset ptr) r,
  r ∈ connect_bonds cci res_lookup bonds conn ->
  r ∈ conn \/ has_successor res_lookup r.
Proof.
  induction bonds as [|b bonds IH]; intros conn r; simpl; [auto |].
  intros Hr. apply IH in Hr as [Hr | Hr]; [| now right].
  destruct (decide (polymeric_start_atom b ≠ nullptr)); [| now left].
  destruct (bool_decide (_ = _)) eqn:Hidx; simpl in Hr; [| now left].
  destruct (negb cci || _); [| now left].
  apply elem_of_union in Hr as [Hr | Hr]; [| now left].
  apply elem_of_singleton in Hr as ->. right.
  apply bool_decide_eq_true in Hidx. eexists. exact Hidx.
Qed.

Lemma connect_pseudobonds_successor res_lookup :
  forall pbs (conn : gset ptr) r,
  r ∈ connect_pseudobonds res_lookup pbs conn ->
  r ∈ conn \/ has_successor res_lookup r.
Proof.
  induction pbs as [|pb pbs IH]; intros conn r; simpl; [auto |].
  intros Hr. apply IH in Hr as [Hr | Hr]; [| now right].
  destruct (bool_decide (_ = _)) eqn:Hidx; simpl in Hr; [| now left].
  destruct (String.eqb _ _); [| now left].
  apply bool_decide_eq_true in Hidx.
  destruct (Z.ltb_spec (at0 res_lookup (atom_residue pb.1))
              (at0 res_lookup (atom_residue pb.2))) as [Hlt | Hge];
    apply elem_of_union in Hr as [Hr | Hr]; try (now left);
    apply elem_of_singleton in Hr as ->; right; eexists.
  - instantiate (1 := atom_residue pb.2). lia.
  - instantiate (1 := atom_residue pb.1). lia.
Qed.

(** The last residue of the vector is never connected to a next one. *)
Lemma last_not_connected residues bonds pbg cms cci x :
  last residues = Some x -> x ∉ connections residues bonds pbg cms cci.
Proof.
  intros Hlast Hx.
  set (res_lookup := index_residues 0 residues ∅).
  assert (Hbound : forall r, 0 <= at0 res_lookup r
                             < Z.max 1 (0 + Z.of_nat (length residues))).
  { apply index_residues_bound; [lia |]. intros r. unfold at0.
    rewrite lookup_empty. simpl. lia. }
  assert (Hx' : has_successor res_lookup x).
  { unfold Polymers.connections in Hx. fold res_lookup in Hx.
    assert (Hb : forall r, r ∈ connect_bonds cci res_lookup bonds ∅ ->
                           has_successor res_lookup r).
    { intros r Hr. apply connect_bonds_successor in Hr as [Hr | Hr]; [| exact Hr].
      now apply not_elem_of_empty in Hr. }
    destruct cms; [| now apply Hb].
    destruct pbg as [pbs |]; [| now apply Hb].
    apply connect_pseudobonds_successor in Hx as [Hx | Hx]; [now apply Hb | exact Hx]. }
  destruct Hx' as (nr & Hnr).
  pose proof (index_residues_last residues 0 ∅ x Hlast) as Hidx.
  fold res_lookup in Hidx. specialize (Hbound nr).
  assert (0 < length residues)%nat by (destruct residues; [discriminate | simpl; lia]).
  lia.
Qed.

(** ** The cutting loop *)

(** Every polymer is a run of connected residues closed by one that is not
    connected, as long as the vector does not end on a connected residue. *)
Lemma cut_closed_runs (conn : gset ptr) :
  forall rest chain in_chain polys,
  (forall x, last rest = Some x -> x ∉ conn) ->
  (in_chain = true -> rest <> [] /\ chain <> []) ->
  (forall r, r ∈ chain -> r ∈ conn) ->
  (forall p, p ∈ polys -> closed_run conn p) ->
  forall p, p ∈ cut conn rest chain in_chain polys -> closed_run conn p.
Proof.
  induction rest as [|r rest IH]; intros chain in_chain polys Hlast Hin Hchain Hpolys p.
  - simpl. destruct in_chain; [| now apply Hpolys].
    destruct Hin as [Hne _]; [reflexivity | now contradiction Hne].
  - assert (Hlast' : rest <> [] -> forall x, last rest = Some x -> x ∉ conn).
    { intros Hne x Hx. apply Hlast. destruct rest; [contradiction | exact Hx]. }
    simpl. destruct (decide (r ∈ conn)) as [Hr | Hr].
    + assert (Hne : rest <> []).
      { intros ->. now apply (Hlast r). }
      apply IH.
      * now apply Hlast'.
      * intros _. split; [exact Hne |]. now destruct chain.
      * intros q Hq. apply elem_of_app in Hq as [Hq | Hq]; [now apply Hchain |].
        now apply list_elem_of_singleton in Hq as ->.
      * exact Hpolys.
    + assert (Hlast'' : forall x, last rest = Some x -> x ∉ conn).
      { destruct rest; [intros x Hx; discriminate | now apply Hlast']. }
      destruct in_chain.
      * apply IH.
        -- exact Hlast''.
        -- discriminate.
        -- intros q Hq. inversion Hq.
        -- intros q Hq. apply elem_of_app in Hq as [Hq | Hq]; [now apply Hpolys |].
           apply list_elem_of_singleton in Hq as ->.
           exists chain, r. repeat split; auto. now apply Hin.
      * apply IH.
        -- exact Hlast''.
        -- discriminate.
        -- exact Hchain.
        -- exact Hpolys.
Qed.

(** The polymers are stretches of the vector, one after the other. *)
Lemma cut_stretches (conn : gset ptr) (total : list ptr) :
  forall rest chain in_chain polys pre,
  total = pre ++ chain ++ rest ->
  (in_chain = false -> chain = []) ->
  (forall p, p ∈ polys -> stretch_of p total) ->
  sublist (concat polys) pre ->
  (forall p, p ∈ cut conn rest chain in_chain polys -> stretch_of p total)
  /\ sublist (concat (cut conn rest chain in_chain polys)) total.
Proof.
  induction rest as [|r rest IH]; intros chain in_chain polys pre Htotal Hin Hpolys Hsub.
  - simpl. rewrite app_nil_r in Htotal. destruct in_chain.
    + split.
      * intros p Hp. apply elem_of_app in Hp as [Hp | Hp]; [now apply Hpolys |].
        apply list_elem_of_singleton in Hp as ->. exists pre, [].
        now rewrite app_nil_r.
      * rewrite concat_app. simpl. rewrite app_nil_r, Htotal.
        now apply sublist_app.
    + split; [exact Hpolys |]. rewrite Htotal, (Hin eq_refl), app_nil_r. exact Hsub.
  - simpl. destruct (decide (r ∈ conn)) as [Hr | Hr].
    + apply (IH _ _ _ pre); auto; [| discriminate].
      rewrite Htotal, <- app_assoc. reflexivity.
    + destruct in_chain.
      * apply (IH _ _ _ (pre ++ chain ++ [r])).
        -- rewrite Htotal. simpl. now rewrite <- !app_assoc.
        -- reflexivity.
        -- intros p Hp. apply elem_of_app in Hp as [Hp | Hp]; [now apply Hpolys |].
           apply list_elem_of_singleton in Hp as ->. exists pre, rest.
           rewrite Htotal, <- app_assoc. reflexivity.
        -- rewrite concat_app. simpl. rewrite app_nil_r. now apply sublist_app.
      * rewrite (Hin eq_refl) in *. apply (IH _ _ _ (pre ++ [r])).
        -- rewrite Htotal. simpl. now rewrite <- app_assoc.
        -- reflexivity.
        -- exact Hpolys.
        -- now apply sublist_inserts_r.
Qed.

Lemma set_all_polymer_types (l : list ptr) : forall (m : gmap ptr PolymerType) r,
  r ∈ l -> foldl (fun m r0 => <[r0 := PT_NONE]> m) m l !! r = Some PT_NONE.
Proof.
  assert (Hkeep : forall (l : list ptr) (m : gmap ptr PolymerType) r,
            m !! r = Some PT_NONE ->
            foldl (fun m r0 => <[r0 := PT_NONE]> m) m l !! r = Some PT_NONE).
  { clear l. induction l as [|y l IH]; intros m r Hm; [exact Hm |].
    simpl. apply IH. destruct (decide (y = r)) as [-> | Hne].
    - apply lookup_insert_eq.
    - now rewrite lookup_insert_ne by exact Hne. }
  induction l as [|x l IH]; intros m r Hr; [inversion Hr |].
  simpl. apply elem_of_cons in Hr as [-> | Hr]; [| now apply IH].
  apply Hkeep. apply lookup_insert_eq.
Qed.

Lemma polymers_shape_aux (residues bonds : list ptr)
    (pbg : option (list (ptr * ptr))) (cms cci : bool) (wr : Written) p :
  p ∈ (polymers residues bonds pbg cms cci wr).1 ->
  closed_run (connections residues bonds pbg cms cci) p.
Proof.
  unfold Polymers.polymers. cbn [fst]. apply cut_closed_runs.
  - intros x Hx. now apply last_not_connected.
  - discriminate.
  - intros r Hr. inversion Hr.
  - intros q Hq. inversion Hq.
Qed.

(** X8: the polymers of a structure: each is a stretch of consecutive residues
    of the residue vector, the polymers follow each other in vector order
    without overlap, each consists of residues connected to their successor
    closed by one that is not, and so each has at least two residues.
    Every residue of the vector is left with polymer type PT_NONE. *)
Theorem polymers_are_closed_runs (residues bonds : list ptr)
    (pbg : option (list (ptr * ptr))) (cms cci : bool) (wr : Written) :
  let connected := connections residues bonds pbg cms cci in
  let result := polymers residues bonds pbg cms cci wr in
  (forall p, p ∈ result.1 ->
     stretch_of p residues /\ closed_run connected p /\ (2 <= length p)%nat)
  /\ sublist (concat result.1) residues
  /\ _polymers_computed result.2 = true
  /\ (forall r, r ∈ residues -> polymer_type result.2 !! r = Some PT_NONE).
Proof.
  intros connected result. unfold result, Polymers.polymers. cbn [fst snd].
  fold connected.
  destruct (cut_stretches connected residues residues [] false [] [])
    as [Hstretch Hsub];
    [reflexivity | reflexivity | intros p Hp; inversion Hp | constructor |].
  assert (Hruns : forall p, p ∈ cut connected residues [] false [] ->
                            closed_run connected p).
  { intros p Hp. now apply (polymers_shape_aux residues bonds pbg cms cci wr). }
  split; [| split; [exact Hsub | split; [reflexivity |]]].
  - intros p Hp. split; [now apply Hstretch |]. split; [now apply Hruns |].
    destruct (Hruns p Hp) as (body & lst & -> & Hne & _).
    rewrite length_app. simpl. destruct body; [contradiction | simpl; lia].
  - intros r Hr. cbn [polymer_type]. now apply set_all_polymer_types.
Qed.

(** ** The chain ids of make_chains *)

Lemma unique_chain_id_met : forall polys (m : gmap string bool),
  (forall p, p ∈ polys -> p <> []) ->
  exists m', unique_chain_id polys m = Some m'
    /\ forall id, m' !! id = met (m !! id) (count_chain_id polys id).
Proof.
  induction polys as [|p polys IH]; intros m Hne.
  - exists m. split; [reflexivity |]. intros id. reflexivity.
  - destruct p as [|r p']; [now contradiction (Hne []); [left |] |].
    assert (Hne' : forall p, p ∈ polys -> p <> []) by (intros q Hq; apply Hne; now right).
    cbn [Polymers.unique_chain_id].
    assert (Hcount : forall id,
              count_chain_id ((r :: p') :: polys) id
              = ((if decide (chain_id r = id) then 1 else 0)
                 + count_chain_id polys id)%nat).
    { intros id. unfold Polymers.count_chain_id. rewrite filter_cons. cbn [head fmap option_fmap option_map].
      destruct (decide (Some (chain_id r) = Some id)) as [Heq | Hneq];
        destruct (decide (chain_id r = id)); try congruence; reflexivity. }
    destruct (m !! chain_id r) as [b |] eqn:Hm.
    + destruct (IH (<[chain_id r := false]> m) Hne') as (m' & Hrun & Hm').
      exists m'. split; [exact Hrun |]. intros id. rewrite Hm', Hcount.
      destruct (decide (chain_id r = id)) as [<- | Hid].
      * rewrite lookup_insert_eq, Hm. simpl.
        destruct (count_chain_id polys (chain_id r)) as [|[|n]]; reflexivity.
      * now rewrite lookup_insert_ne by exact Hid.
    + destruct (IH (<[chain_id r := true]> m) Hne') as (m' & Hrun & Hm').
      exists m'. split; [exact Hrun |]. intros id. rewrite Hm', Hcount.
      destruct (decide (chain_id r = id)) as [<- | Hid].
      * rewrite lookup_insert_eq, Hm. simpl.
        destruct (count_chain_id polys (chain_id r)) as [|[|n]]; reflexivity.
      * now rewrite lookup_insert_ne by exact Hid.
Qed.

(** X9: on the polymers of a structure the first loop of make_chains never
    reads [polymer[0]] of an empty polymer, and it leaves a chain id mapped
    to [true] exactly when one polymer begins with it, to [false] when
    several do, and absent when none does. *)
Theorem unique_chain_id_of_polymers (residues bonds : list ptr)
    (pbg : option (list (ptr * ptr))) (cms cci : bool) (wr : Written) :
  exists m,
    unique_chain_id (polymers residues bonds pbg cms cci wr).1 ∅ = Some m
    /\ forall id,
         m !! id
         = match count_chain_id (polymers residues bonds pbg cms cci wr).1 id with
           | O => None
           | S O => Some true
           | S (S _) => Some false
           end.
Proof.
  destruct (unique_chain_id_met (polymers residues bonds pbg cms cci wr).1 ∅)
    as (m & Hrun & Hm).
  - intros p Hp.
    destruct (polymers_shape_aux residues bonds pbg cms cci wr p Hp) as (body & lst & -> & _).
    now destruct body.
  - exists m. split; [exact Hrun |]. intros id. rewrite Hm, lookup_empty.
    destruct (count_chain_id _ id) as [|[|n]]; reflexivity.
Qed.

End Reads.

End PolymerFacts.

(* ===================================================================== *)
(** * Structure categories: every atom gets one                           *)
(* ===================================================================== *)

Module StructureCategoryFacts.
Import AtomH Graph StructCats StructureCategory.

(** ** Assignments never leave an atom without category *)

Lemma assign_assigned l sc (cats : Cats) a :
  sc <> Unassigned -> a ∈ l \/ assigned cats a -> assigned (assign l sc cats) a.
Proof.
  intros Hsc H. destruct (decide (a ∈ l)) as [Hin | Hnot].
  - exists sc. split; [now apply StructCatsFacts.assign_lookup_in | exact Hsc].
  - destruct H as [H | (c & Hc & Hne)]; [contradiction |].
    exists c. split; [| exact Hne].
    now rewrite StructCatsFacts.assign_lookup_notin.
Qed.

Lemma foldl_assigned {B} (f : Cats -> B -> Cats) (l : list B) a :
  (forall cats x, assigned cats a -> assigned (f cats x) a) ->
  forall cats, assigned cats a -> assigned (foldl f cats l) a.
Proof.
  intros Hf cats H.
  now apply (StructCatsFacts.foldl_invariant (fun m => assigned m a)); auto.
Qed.

Lemma foldl_assigned_some {B} (f : Cats -> B -> Cats) (l : list B) a x :
  (forall cats y, assigned cats a -> assigned (f cats y) a) ->
  (forall cats, assigned (f cats x) a) ->
  x ∈ l -> forall cats, assigned (foldl f cats l) a.
Proof.
  intros Hkeep Hx. induction l as [|y l IH]; intros Hin cats; [inversion Hin |].
  simpl. apply elem_of_cons in Hin as [<- | Hin].
  - apply foldl_assigned; auto.
  - now apply IH.
Qed.

Section Lookups.
Variable w : World.
Variable GL : gmap ptr (list ptr).

Lemma assign_groups_keeps_assigned roots sc (cats : Cats) a :
  sc <> Unassigned -> assigned cats a ->
  assigned (assign_groups GL roots sc cats) a.
Proof.
  intros Hsc. unfold assign_groups. apply foldl_assigned.
  intros m x Hm. apply assign_assigned; auto.
Qed.

Lemma assign_groups_assigns roots sc (cats : Cats) a root :
  sc <> Unassigned -> root ∈ roots -> a ∈ group GL root ->
  assigned (assign_groups GL roots sc cats) a.
Proof.
  intros Hsc Hroot Ha. unfold assign_groups.
  apply (foldl_assigned_some _ _ _ root); auto.
  - intros m y Hm. apply assign_assigned; auto.
  - intros m. apply assign_assigned; auto.
Qed.

Lemma assign_main_keeps_assigned (cats : Cats) root a :
  a ∈ group GL root \/ assigned cats a -> assigned (assign_main w GL cats root) a.
Proof.
  intros H. unfold assign_main.
  assert (H1 : assigned (assign (group GL root) Main cats) a)
    by (apply assign_assigned; [discriminate | exact H]).
  destruct (decide (_ = ∅)); [exact H1 |].
  apply foldl_assigned; [| exact H1].
  intros m x Hm. apply assign_assigned; [discriminate | now right].
Qed.

Lemma assign_mains_keep_assigned roots (cats : Cats) a :
  assigned cats a -> assigned (foldl (assign_main w GL) cats roots) a.
Proof.
  apply foldl_assigned. intros m x Hm. apply assign_main_keeps_assigned. now right.
Qed.

Lemma assign_mains_assign roots (cats : Cats) a root :
  root ∈ roots -> a ∈ group GL root ->
  assigned (foldl (assign_main w GL) cats roots) a.
Proof.
  intros Hroot Ha. apply (foldl_assigned_some _ _ _ root); auto.
  - intros m y Hm. apply assign_main_keeps_assigned. now right.
  - intros m. apply assign_main_keeps_assigned. now left.
Qed.

End Lookups.

(** ** The passes together *)

Section Total.
Variable std_solvent_names : list string.
Variable is_noble_gas : nat -> bool.
Variable w : World.
Variable GL : gmap ptr (list ptr).
Variable AR : gmap ptr ptr.

(** Whatever pass a root ends in, the atoms of its group receive a
    category, and no later pass takes it away. *)
Lemma categorize_total (cats : Cats) root a :
  root ∈ dom GL -> a ∈ group GL root ->
  assigned (categorize std_solvent_names is_noble_gas w GL AR cats) a.
Proof.
  intros Hroot Ha. unfold categorize.
  destruct (segregate std_solvent_names w GL (in_address_order (dom GL)))
    as [small_solvents root_set0] eqn:Hseg.
  pose proof (StructCatsFacts.segregate_spec std_solvent_names w GL
                (in_address_order (dom GL))) as [Hsmall Hrest].
  rewrite Hseg in Hsmall, Hrest. cbn [fst snd] in Hsmall, Hrest.
  set (solvents := potential_solvents w GL small_solvents (in_address_order root_set0)).
  set (cats1 := assign_groups GL small_solvents Solvent cats).
  assert (Hin : root ∈ in_address_order (dom GL))
    by now apply StructCatsFacts.elem_of_in_address_order.
  (* after the solvent passes *)
  match goal with
  | |- context [if ?c then (?rs, ?ct) else (root_set0, cats1)] =>
      set (stage2 := if c then (rs, ct) else (root_set0, cats1))
  end.
  assert (H2 : assigned stage2.2 a \/ root ∈ stage2.1).
  { destruct (is_small_solvent std_solvent_names w GL root) eqn:Htest.
    - left. assert (H1 : assigned cats1 a).
      { apply (assign_groups_assigns GL _ _ _ _ root); [discriminate | | exact Ha].
        apply Hsmall. auto. }
      unfold stage2. destruct (_ && _); [| exact H1].
      apply assign_groups_keeps_assigned; [discriminate | exact H1].
    - assert (H0 : root ∈ root_set0) by (apply Hrest; auto).
      unfold stage2. destruct (_ && _); [| now right]. cbn [fst snd].
      destruct (decide (root ∈ default [] (solvents !! best_solvent solvents)))
        as [Hbest | Hnot].
      + left. apply (assign_groups_assigns GL _ _ _ _ root); [discriminate | | exact Ha].
        exact Hbest.
      + right. apply elem_of_difference. split; [exact H0 |].
        now rewrite elem_of_list_to_set. }
  destruct stage2 as [root_set1 cats2]. cbn [fst snd] in H2.
  set (ions := all_ions is_noble_gas w GL AR (in_address_order root_set1)).
  set (cats3 := assign_groups GL (in_address_order ions) Ions cats2).
  assert (H3 : assigned cats3 a \/ root ∈ root_set1 ∖ ions).
  { destruct H2 as [H2 | H2].
    - left. apply assign_groups_keeps_assigned; [discriminate | exact H2].
    - destruct (decide (root ∈ ions)) as [Hion | Hnot].
      + left. apply (assign_groups_assigns GL _ _ _ _ root); [discriminate | | exact Ha].
        now apply StructCatsFacts.elem_of_in_address_order.
      + right. now apply elem_of_difference. }
  destruct (decide (root_set1 ∖ ions = ∅)) as [Hempty | Hne].
  - destruct H3 as [H3 | H3]; [exact H3 |].
    rewrite Hempty in H3. now apply not_elem_of_empty in H3.
  - set (root_set2 := root_set1 ∖ ions) in *.
    match goal with
    | |- context [filter ?P (in_address_order root_set2)] =>
        set (ligands := filter P (in_address_order root_set2))
    end.
    destruct H3 as [H3 | H3].
    + apply assign_mains_keep_assigned.
      apply assign_groups_keeps_assigned; [discriminate | exact H3].
    + destruct (decide (root ∈ ligands)) as [Hlig | Hnot].
      * apply assign_mains_keep_assigned.
        apply (assign_groups_assigns GL _ _ _ _ root); [discriminate | exact Hlig | exact Ha].
      * apply (assign_mains_assign w GL _ _ _ root); [| exact Ha].
        apply StructCatsFacts.elem_of_in_address_order.
        apply elem_of_difference. split; [exact H3 |].
        now rewrite elem_of_list_to_set.
Qed.

(** No pass takes a category away. *)
Lemma categorize_keeps_assigned (cats : Cats) a :
  assigned cats a ->
  assigned (categorize std_solvent_names is_noble_gas w GL AR cats) a.
Proof.
  intros H0. unfold categorize.
  destruct (segregate std_solvent_names w GL (in_address_order (dom GL)))
    as [small_solvents root_set0].
  set (solvents := potential_solvents w GL small_solvents (in_address_order root_set0)).
  set (cats1 := assign_groups GL small_solvents Solvent cats).
  assert (H1 : assigned cats1 a)
    by (apply assign_groups_keeps_assigned; [discriminate | exact H0]).
  match goal with
  | |- context [if ?c then (?rs, ?ct) else (root_set0, cats1)] =>
      set (stage2 := if c then (rs, ct) else (root_set0, cats1))
  end.
  assert (H2 : assigned stage2.2 a).
  { unfold stage2. destruct (_ && _); [| exact H1].
    apply assign_groups_keeps_assigned; [discriminate | exact H1]. }
  destruct stage2 as [root_set1 cats2]. cbn [snd] in H2.
  set (ions := all_ions is_noble_gas w GL AR (in_address_order root_set1)).
  assert (H3 : assigned (assign_groups GL (in_address_order ions) Ions cats2) a)
    by (apply assign_groups_keeps_assigned; [discriminate | exact H2]).
  destruct (decide (root_set1 ∖ ions = ∅)); [exact H3 |].
  apply assign_mains_keep_assigned.
  apply assign_groups_keeps_assigned; [discriminate | exact H3].
Qed.

End Total.

(** ** The bonded groups cover the structure and are closed under bonds *)

Section Closure.
Variable w : World.
Variable conn : ptr -> list ptr.

Local Abbreviation step := (Components.step w conn).

Lemma elem_of_insert_all (l pending : list ptr) x :
  x ∈ foldl (fun p c => set_insert c p) pending l <-> x ∈ l \/ x ∈ pending.
Proof.
  revert pending. induction l as [|c l IH]; intros pending; simpl.
  - split; [auto | intros [H | H]; [inversion H | exact H]].
  - rewrite IH, StructCatsFacts.elem_of_set_insert, elem_of_cons. tauto.
Qed.

(** When the [while] loop ends, everything that was pending has been seen,
    and so has every atom one step from an atom the loop added. *)
Lemma expand_closed : forall fuel pending (seen : gset ptr) acc seen' acc',
  expand w conn fuel pending seen acc = Some (seen', acc') ->
  (forall x, x ∈ seen -> x ∈ seen')
  /\ (forall x, x ∈ pending -> x ∈ seen')
  /\ (forall x, x ∈ seen' -> x ∉ seen -> forall y, step x y -> y ∈ seen').
Proof.
  induction fuel as [|fuel IH]; intros pending seen acc seen' acc' Hrun.
  - destruct pending; simpl in Hrun; [| discriminate].
    injection Hrun as <- <-. repeat split; auto.
    + intros x Hx. inversion Hx.
    + intros x Hx Hnot. contradiction.
  - destruct pending as [|pa rest]; simpl in Hrun.
    + injection Hrun as <- <-. repeat split; auto.
      * intros x Hx. inversion Hx.
      * intros x Hx Hnot. contradiction.
    + destruct (decide (pa ∈ seen)) as [Hin | Hnot].
      * apply IH in Hrun as (Hmono & Hpend & Hclosed). repeat split; auto.
        intros x Hx. apply elem_of_cons in Hx as [-> | Hx]; auto.
      * apply IH in Hrun as (Hmono & Hpend & Hclosed).
        assert (Hpa : pa ∈ seen').
        { apply Hmono. apply elem_of_union. left. now apply elem_of_singleton. }
        repeat split.
        -- intros x Hx. apply Hmono. apply elem_of_union. now right.
        -- intros x Hx. apply elem_of_cons in Hx as [-> | Hx]; [exact Hpa |].
           apply Hpend. rewrite !elem_of_insert_all. auto.
        -- intros x Hx Hxn y Hstep.
           destruct (decide (x = pa)) as [-> | Hne].
           ++ apply Hpend. rewrite !elem_of_insert_all.
              destruct Hstep as [Hy | Hy]; auto.
           ++ apply (Hclosed x Hx); [| exact Hstep].
              rewrite elem_of_union, elem_of_singleton. tauto.
Qed.

Hypothesis step_sym : forall x y, step x y -> step y x.

Lemma groups_loop_components fuel : forall l (seen : gset ptr) groups out,
  groups_loop w conn fuel l seen groups = Some out ->
  (forall x, x ∈ seen <-> x ∈ concat groups) ->
  (forall x, x ∈ seen -> forall y, step x y -> y ∈ seen) ->
  (forall g, g ∈ groups -> forall x, x ∈ g -> forall y, step x y -> y ∈ g) ->
  (forall a, a ∈ l -> a ∈ concat out)
  /\ (forall x, x ∈ concat groups -> x ∈ concat out)
  /\ (forall g, g ∈ out -> forall x, x ∈ g -> forall y, step x y -> y ∈ g).
Proof.
  induction l as [|a l IH]; intros seen groups out Hrun Hseen Hclosed Hgroups.
  - simpl in Hrun. injection Hrun as <-. repeat split; auto.
    intros a Ha. inversion Ha.
  - simpl in Hrun. destruct (decide (a ∈ seen)) as [Hin | Hnot].
    + destruct (IH _ _ _ Hrun Hseen Hclosed Hgroups) as (Hl & Hkeep & Hout).
      repeat split; auto.
      intros x Hx. apply elem_of_cons in Hx as [-> | Hx]; auto.
      apply Hkeep. now apply Hseen.
    + destruct (expand w conn fuel [a] seen []) as [[seen' bonded] |] eqn:E;
        [| discriminate].
      pose proof (expand_closed _ _ _ _ _ _ E) as (Hmono & Hpend & Hnew).
      apply StructCatsFacts.expand_start in E as (Hroot & Hb & Hbnd & Hfresh & ->);
        [| exact Hnot].
      assert (Hconcat : forall x, x ∈ concat (groups ++ [bonded])
                                  <-> x ∈ concat groups \/ x ∈ bonded).
      { intros x. rewrite concat_app. simpl. now rewrite app_nil_r, elem_of_app. }
      destruct (IH _ _ _ Hrun) as (Hl & Hkeep & Hout).
      * intros x. rewrite Hconcat, elem_of_union, elem_of_list_to_set, Hseen. tauto.
      * intros x Hx y Hstep. destruct (decide (x ∈ seen)) as [Hxs | Hxn].
        -- apply elem_of_union. left. now apply (Hclosed x).
        -- now apply (Hnew x).
      * intros g Hg x Hx y Hstep.
        apply elem_of_app in Hg as [Hg | Hg]; [now apply (Hgroups g Hg x) |].
        apply list_elem_of_singleton in Hg as ->.
        assert (Hy : y ∈ seen ∪ list_to_set bonded).
        { apply (Hnew x); [| now apply Hfresh | exact Hstep].
          apply elem_of_union. right. now apply elem_of_list_to_set. }
        apply elem_of_union in Hy as [Hy | Hy]; [| now apply elem_of_list_to_set in Hy].
        exfalso. apply (Hfresh x Hx). apply (Hclosed y Hy). now apply step_sym.
      * repeat split; auto.
        -- intros x Hx. apply elem_of_cons in Hx as [-> | Hx]; auto.
           apply Hkeep. apply Hconcat. right. rewrite <- Hroot.
           now apply StructCatsFacts.root_in_group.
        -- intros x Hx. apply Hkeep. apply Hconcat. now left.
Qed.

End Closure.

Lemma elem_of_pb_connections pbs x y :
  y ∈ pb_connections pbs x
  <-> exists pb, pb ∈ pbs /\ ((pb.1 = x /\ y = pb.2) \/ (pb.2 = x /\ y = pb.1)).
Proof.
  unfold pb_connections. rewrite list_elem_of_In, in_flat_map. split.
  - intros (pb & Hpb & Hy). exists pb. split; [now apply list_elem_of_In |].
    apply in_app_or in Hy as [Hy | Hy].
    + destruct (decide (pb.1 = x)); [| inversion Hy]. left.
      destruct Hy as [<- | []]. auto.
    + destruct (decide (pb.2 = x)); [| inversion Hy]. right.
      destruct Hy as [<- | []]. auto.
  - intros (pb & Hpb & Hcase). exists pb. split; [now apply list_elem_of_In |].
    apply in_or_app. destruct Hcase as [[H1 ->] | [H2 ->]].
    + left. destruct (decide (pb.1 = x)); [now left | contradiction].
    + right. destruct (decide (pb.2 = x)); [now left | contradiction].
Qed.

Lemma step_symmetric w pbg consider :
  Components.symmetric_bonds w ->
  forall x y, Components.step w (Components.conn_of pbg consider) x y ->
              Components.step w (Components.conn_of pbg consider) y x.
Proof.
  intros Hsym x y [Hc | Hn]; [| right; now apply Hsym].
  left. unfold Components.conn_of in *.
  destruct consider; [| inversion Hc]. destruct pbg as [pbs |]; [| inversion Hc].
  apply elem_of_pb_connections in Hc as (pb & Hpb & Hcase).
  apply elem_of_pb_connections. exists pb. split; [exact Hpb |].
  destruct Hcase as [[H1 ->] | [H2 ->]]; auto.
Qed.

(** Symmetry of the neighbour lists can be checked atom by atom. *)
Lemma symmetric_bonds_check w :
  map_Forall (fun x ax => Forall (fun y => x ∈ neighbors w y) (_neighbors ax))
             (atoms w) ->
  Components.symmetric_bonds w.
Proof.
  intros Hall x y Hy. unfold neighbors in Hy at 1.
  destruct (atoms w !! x) as [ax |] eqn:Ex; [| inversion Hy].
  apply Hall in Ex. rewrite Forall_forall in Ex. now apply Ex.
Qed.

Lemma bonded_groups_components_aux fuel w s pbg consider bonded :
  Components.symmetric_bonds w ->
  bonded_groups fuel w s pbg consider = Some bonded ->
  (forall a, a ∈ _atoms s -> exists g, g ∈ bonded /\ a ∈ g)
  /\ (forall g x y, g ∈ bonded -> x ∈ g ->
        Components.step w (Components.conn_of pbg consider) x y -> y ∈ g).
Proof.
  intros Hsym Hrun. unfold bonded_groups in Hrun.
  change (groups_loop w (Components.conn_of pbg consider) fuel (_atoms s) ∅ []
          = Some bonded) in Hrun.
  apply groups_loop_components in Hrun as (Hcover & _ & Hclosed).
  - split.
    + intros a Ha. apply StructCatsFacts.elem_of_concat. now apply Hcover.
    + intros g x y Hg Hx Hstep. now apply (Hclosed g Hg x Hx).
  - now apply step_symmetric.
  - intros x. simpl. split; intros H; [now apply not_elem_of_empty in H | inversion H].
  - intros x Hx. now apply not_elem_of_empty in Hx.
  - intros g Hg. inversion Hg.
Qed.

(** X10: the bonded groups of a structure with consistent neighbour lists: the
    search ends within the stated fuel; every atom of the structure is in a
    group, no atom is in two, and an atom bonded to an atom of a group (by a
    bond, or by a missing-structure pseudobond when those are considered) is
    in that group too. *)
Theorem bonded_groups_are_components (fuel : nat) (w : World)
    (s : AtomicStructure) (pbg : option (list (ptr * ptr))) (consider : bool) :
  (enough_fuel w s pbg <= fuel)%nat ->
  Components.symmetric_bonds w ->
  exists bonded,
    bonded_groups fuel w s pbg consider = Some bonded
    /\ (forall a, a ∈ _atoms s -> exists g, g ∈ bonded /\ a ∈ g)
    /\ NoDup (concat bonded)
    /\ (forall g x y, g ∈ bonded -> x ∈ g ->
          Components.step w (Components.conn_of pbg consider) x y -> y ∈ g).
Proof.
  intros Hfuel Hsym.
  destruct (StructCatsFacts.bonded_groups_enough_fuel w s pbg consider fuel Hfuel)
    as [bonded Hrun].
  exists bonded. split; [exact Hrun |].
  destruct (bonded_groups_components_aux _ _ _ _ _ _ Hsym Hrun) as [Hcover Hclosed].
  destruct (StructCatsFacts.bonded_groups_partition _ _ _ _ _ _ Hrun) as [Hnd _].
  auto.
Qed.

(** An instance: the water molecule, the oxygen and the fluoride of
    [water_world]. *)
Lemma bonded_groups_are_components_witness :
  exists bonded,
    bonded_groups 100 water_world
      (StructCats.example_structure [10; 11; 12; 13; 14]%nat [21; 22; 23]%nat)
      None true = Some bonded
    /\ (forall a, a ∈ _atoms (StructCats.example_structure
                               [10; 11; 12; 13; 14]%nat [21; 22; 23]%nat) ->
          exists g, g ∈ bonded /\ a ∈ g)
    /\ NoDup (concat bonded)
    /\ (forall g x y, g ∈ bonded -> x ∈ g ->
          Components.step water_world (Components.conn_of None true) x y -> y ∈ g).
Proof.
  apply (bonded_groups_are_components 100 water_world
           (StructCats.example_structure [10; 11; 12; 13; 14]%nat [21; 22; 23]%nat)
           None true).
  - vm_compute. lia.
  - apply symmetric_bonds_check. apply (bool_decide_unpack _). vm_compute. exact I.
Defined.

(** ** Every atom of the structure gets a category *)

Lemma groups_loop_covers w conn fuel : forall l (seen : gset ptr) groups out,
  groups_loop w conn fuel l seen groups = Some out ->
  (forall x, x ∈ seen -> x ∈ concat groups) ->
  (forall a, a ∈ l -> a ∈ concat out)
  /\ (forall x, x ∈ concat groups -> x ∈ concat out).
Proof.
  induction l as [|a l IH]; intros seen groups out Hrun Hseen.
  - simpl in Hrun. injection Hrun as <-. split; [| auto].
    intros a Ha. inversion Ha.
  - simpl in Hrun. destruct (decide (a ∈ seen)) as [Hin | Hnot].
    + destruct (IH _ _ _ Hrun Hseen) as (Hl & Hkeep). split; [| exact Hkeep].
      intros x Hx. apply elem_of_cons in Hx as [-> | Hx]; auto.
    + destruct (expand w conn fuel [a] seen []) as [[seen' bonded] |] eqn:E;
        [| discriminate].
      apply StructCatsFacts.expand_start in E as (Hroot & Hb & _ & _ & ->);
        [| exact Hnot].
      assert (Hconcat : forall x, x ∈ concat (groups ++ [bonded])
                                  <-> x ∈ concat groups \/ x ∈ bonded).
      { intros x. rewrite concat_app. simpl. now rewrite app_nil_r, elem_of_app. }
      destruct (IH _ _ _ Hrun) as (Hl & Hkeep).
      * intros x. rewrite Hconcat, elem_of_union, elem_of_list_to_set.
        intros [H | H]; auto.
      * split.
        -- intros x Hx. apply elem_of_cons in Hx as [-> | Hx]; auto.
           apply Hkeep. apply Hconcat. right. rewrite <- Hroot.
           now apply StructCatsFacts.root_in_group.
        -- intros x Hx. apply Hkeep. apply Hconcat. now left.
Qed.

Lemma compute_structure_cats_total
    (std_solvent_names : list string) (is_noble_gas : nat -> bool)
    (fuel : nat) (w : World) (s : AtomicStructure)
    (pbg : option (list (ptr * ptr))) (cats0 : Cats) :
  (enough_fuel w s pbg <= fuel)%nat ->
  exists cats,
    StructCats._compute_structure_cats std_solvent_names is_noble_gas fuel w s
      pbg cats0 = Some cats
    /\ forall a, a ∈ _atoms s -> assigned cats a.
Proof.
  intros Hfuel.
  destruct (StructCatsFacts.bonded_groups_enough_fuel w s pbg true fuel Hfuel)
    as [bonded Hrun].
  unfold StructCats._compute_structure_cats. rewrite Hrun.
  eexists. split; [reflexivity |]. intros a Ha.
  destruct (StructCatsFacts.bonded_groups_partition _ _ _ _ _ _ Hrun) as [Hnd Hne].
  unfold bonded_groups in Hrun.
  apply groups_loop_covers in Hrun as [Hcover _];
    [| intros x Hx; now apply not_elem_of_empty in Hx].
  apply Hcover, StructCatsFacts.elem_of_concat in Ha as (g & Hg & Hag).
  pose proof (StructCatsFacts.group_lookup_complete bonded g Hnd Hne Hg) as Hlookup.
  unfold categorize_groups.
  apply (categorize_total _ _ _ _ _ _ (root_of g)).
  - apply elem_of_dom. eauto.
  - unfold group. now rewrite Hlookup.
Qed.

Lemma compute_structure_cats_keeps
    (std_solvent_names : list string) (is_noble_gas : nat -> bool)
    (fuel : nat) (w : World) (s : AtomicStructure)
    (pbg : option (list (ptr * ptr))) (cats0 cats : Cats) b :
  StructCats._compute_structure_cats std_solvent_names is_noble_gas fuel w s
    pbg cats0 = Some cats ->
  assigned cats0 b -> assigned cats b.
Proof.
  unfold StructCats._compute_structure_cats.
  destruct (bonded_groups fuel w s pbg true) as [bonded |]; [| discriminate].
  intros H. injection H as <-. apply categorize_keeps_assigned.
Qed.

(** X11: the categorisation is total: with fuel for the search, every atom of
    the structure ends in one of the categories Main, Ligand, Ions and
    Solvent; none is left Unassigned. *)
Theorem every_atom_gets_a_category
    (std_solvent_names : list string) (is_noble_gas : nat -> bool)
    (fuel : nat) (w : World) (s : AtomicStructure)
    (pbg : option (list (ptr * ptr))) (cats0 : Cats) :
  (enough_fuel w s pbg <= fuel)%nat ->
  exists cats,
    StructCats._compute_structure_cats std_solvent_names is_noble_gas fuel w s
      pbg cats0 = Some cats
    /\ forall a, a ∈ _atoms s ->
         exists c, cats !! a = Some c /\ c ∈ [Main; Ligand; Ions; Solvent].
Proof.
  intros Hfuel.
  destruct (compute_structure_cats_total std_solvent_names is_noble_gas fuel w s
              pbg cats0 Hfuel) as (cats & Hrun & Hall).
  exists cats. split; [exact Hrun |]. intros a Ha.
  destruct (Hall a Ha) as (c & Hc & Hne). exists c. split; [exact Hc |].
  destruct c; [contradiction | | | |]; rewrite !elem_of_cons; auto.
Qed.

(** An instance: [shared_residue_world]. *)
Lemma every_atom_gets_a_category_witness :
  exists cats,
    StructCats._compute_structure_cats usual_solvent_names usual_noble_gas 100
      shared_residue_world
      (StructCats.example_structure [10; 11; 12; 13; 14]%nat [21; 22]%nat) None ∅
    = Some cats
    /\ forall a, a ∈ _atoms (StructCats.example_structure
                              [10; 11; 12; 13; 14]%nat [21; 22]%nat) ->
         exists c, cats !! a = Some c /\ c ∈ [Main; Ligand; Ions; Solvent].
Proof.
  apply (every_atom_gets_a_category usual_solvent_names usual_noble_gas 100
           shared_residue_world
           (StructCats.example_structure [10; 11; 12; 13; 14]%nat [21; 22]%nat)
           None ∅).
  vm_compute. lia.
Defined.

(** X12: Atom::structure_category on a structure whose categories are dirty
    computes them, returns a category other than Unassigned for an atom of
    the structure and clears the flag; the next read returns the same
    category without computing anything. *)
Theorem structure_category_is_cached
    (std_solvent_names : list string) (is_noble_gas : nat -> bool)
    (fuel : nat) (w : World) (s : AtomicStructure)
    (pbg : option (list (ptr * ptr))) (a : ptr) (st : CatState) :
  (enough_fuel w s pbg <= fuel)%nat ->
  a ∈ _atoms s ->
  _structure_cats_dirty st = true ->
  exists c st',
    structure_category std_solvent_names is_noble_gas fuel w s pbg a st
    = Some (c, st')
    /\ c <> Unassigned
    /\ _structure_cats_dirty st' = false
    /\ forall fuel' w' s' pbg',
         structure_category std_solvent_names is_noble_gas fuel' w' s' pbg' a st'
         = Some (c, st').
Proof.
  intros Hfuel Ha Hdirty.
  destruct (compute_structure_cats_total std_solvent_names is_noble_gas fuel w s
              pbg (categories st) Hfuel) as (cats & Hrun & Hall).
  destruct (Hall a Ha) as (c & Hc & Hne).
  exists c, {| _structure_cats_dirty := false; categories := cats |}.
  unfold structure_category, StructureCategory._compute_structure_cats.
  rewrite Hdirty, Hrun. cbn [categories _structure_cats_dirty]. rewrite Hc.
  repeat split; auto.
Qed.

(** An instance: atom 10 of [shared_residue_world]. *)
Lemma structure_category_is_cached_witness :
  exists c st',
    structure_category usual_solvent_names usual_noble_gas 100
      shared_residue_world
      (StructCats.example_structure [10; 11; 12; 13; 14]%nat [21; 22]%nat) None
      10 {| _structure_cats_dirty := true; categories := ∅ |}
    = Some (c, st')
    /\ c <> Unassigned
    /\ _structure_cats_dirty st' = false
    /\ forall fuel' w' s' pbg',
         structure_category usual_solvent_names usual_noble_gas fuel' w' s' pbg'
           10 st'
         = Some (c, st').
Proof.
  apply (structure_category_is_cached usual_solvent_names usual_noble_gas 100
           shared_residue_world
           (StructCats.example_structure [10; 11; 12; 13; 14]%nat [21; 22]%nat)
           None 10 {| _structure_cats_dirty := true; categories := ∅ |}).
  - vm_compute. lia.
  - simpl. apply elem_of_cons. now left.
  - reflexivity.
Defined.

End StructureCategoryFacts.

(* ===================================================================== *)
(** * The C interface: what Python sees                                   *)
(* ===================================================================== *)

Module MolcFacts.
Import Molc.

(** X13: molc_error leaves a Python error that is already set alone.
    Otherwise every catch clause is live: an exception of exactly the class
    a clause names is taken by that clause and by no earlier one, and is
    reported with its own [what()] text (with "not enough memory" for
    [bad_alloc]).  A standard exception whose class has no clause of its
    own is taken by the clause of its nearest base class that has one, with
    its own text: [domain_error] as ValueError, [system_error] and
    [bad_cast] as RuntimeError.  Only an exception outside the standard
    hierarchy ends in the last clause, as RuntimeError "unknown C++
    exception".  These cases cover every class. *)
Theorem molc_error_clauses :
  (forall pending e, molc_error (Some pending) e = Some pending)
  /\ (forall handler py text,
        (handler, py) ∈ handlers ->
        molc_error None {| cls := handler; what := text |}
        = Some (py, if decide (handler = bad_alloc)
                    then "not enough memory"%string else text))
  /\ (forall text,
        molc_error None {| cls := domain_error; what := text |}
        = Some (PyExc_ValueError, text))
  /\ (forall c text,
        c = system_error \/ c = bad_cast ->
        molc_error None {| cls := c; what := text |}
        = Some (PyExc_RuntimeError, text))
  /\ (forall text,
        molc_error None {| cls := not_std; what := text |}
        = Some (PyExc_RuntimeError, "unknown C++ exception"%string))
  /\ (forall c,
        c ∈ handlers.*1
        \/ c = domain_error \/ c = system_error \/ c = bad_cast \/ c = not_std).
Proof.
  split; [reflexivity |]. split; [| split; [reflexivity | split; [| split]]].
  - intros handler py text Hin. unfold handlers in Hin.
    repeat (apply elem_of_cons in Hin as [Hin | Hin];
            [injection Hin as -> ->; reflexivity |]).
    inversion Hin.
  - intros c text [-> | ->]; reflexivity.
  - reflexivity.
  - intros c. destruct c; cbn; rewrite ?elem_of_cons; tauto.
Qed.

Section SessionRestore.
Variable CURRENT_SESSION_VERSION : Z.
Variable AtomicStructure : Type.
Variable restore_streams :
  Z -> Session.PyObject -> Session.PyObject -> Session.PyObject ->
  AtomicStructure -> (nat * AtomicStructure + AtomicStructure).
Variable stream_exception : nat -> Thrown.

Local Abbreviation structure_session_restore :=
  (Molc.structure_session_restore CURRENT_SESSION_VERSION AtomicStructure
     restore_streams stream_exception).

(** X14: through the C interface a session that is too new, or whose three
    arguments are not lists of seven items, is reported to Python as a
    TypeError, and the structure is left as it was; for a session that is
    too new the text is the "new session data" message. *)
Theorem structure_session_restore_rejects (version : Z)
    (ints floats misc : Session.PyObject) (mol : AtomicStructure) :
  CURRENT_SESSION_VERSION < version
  \/ ~ Session.seven_lists ints floats misc ->
  exists text,
    structure_session_restore version ints floats misc mol None
    = (mol, Some (PyExc_TypeError, text))
    /\ (CURRENT_SESSION_VERSION < version ->
        text = "Don't know how to restore new session data; update your version of ChimeraX"%string).
Proof.
  intros Hbad. unfold Molc.structure_session_restore, Session.session_restore.
  destruct (Z.gtb_spec version CURRENT_SESSION_VERSION) as [Hgt | Hle].
  - eexists. split; [reflexivity | reflexivity].
  - destruct Hbad as [Hnew | Hlists]; [lia |].
    destruct (Session.PyList_Check ints) eqn:Hi1; cbn [negb orb].
    2: { eexists. split; [reflexivity | lia]. }
    destruct (Z.eqb_spec (Session.PyList_Size ints) 7) as [Hi2 | Hi2]; cbn [negb].
    2: { eexists. split; [reflexivity | lia]. }
    destruct (Session.PyList_Check floats) eqn:Hf1; cbn [negb orb].
    2: { eexists. split; [reflexivity | lia]. }
    destruct (Z.eqb_spec (Session.PyList_Size floats) 7) as [Hf2 | Hf2]; cbn [negb].
    2: { eexists. split; [reflexivity | lia]. }
    destruct (Session.PyList_Check misc) eqn:Hm1; cbn [negb orb].
    2: { eexists. split; [reflexivity | lia]. }
    destruct (Z.eqb_spec (Session.PyList_Size misc) 7) as [Hm2 | Hm2]; cbn [negb].
    2: { eexists. split; [reflexivity | lia]. }
    exfalso. apply Hlists. repeat split; assumption.
Qed.

End SessionRestore.

(** An instance: version 2 is asked of a program at version 1. *)
Lemma structure_session_restore_rejects_witness :
  exists text,
    Molc.structure_session_restore 1 nat (fun _ _ _ _ s => inr s)
      (fun _ => {| cls := runtime_error; what := "stream" |})
      2 Session.PyOther Session.PyOther Session.PyOther 0%nat None
    = (0%nat, Some (PyExc_TypeError, text))
    /\ (1 < 2 ->
        text = "Don't know how to restore new session data; update your version of ChimeraX"%string).
Proof.
  apply (structure_session_restore_rejects 1 nat (fun _ _ _ _ s => inr s)
           (fun _ => {| cls := runtime_error; what := "stream" |})
           2 Session.PyOther Session.PyOther Session.PyOther 0%nat).
  left. lia.
Defined.

(** ** Pointer arrays *)

Lemma to_ssize_t_small x : 0 <= x < 2 ^ 63 -> to_ssize_t x = x.
Proof. intros H. unfold to_ssize_t. rewrite Z.mod_small; lia. Qed.

Lemma to_int_small x : 0 <= x < 2 ^ 31 -> to_int x = x.
Proof. intros H. unfold to_int. rewrite Z.mod_small; lia. Qed.

(** The search reports the first occurrence, counted from [i]. *)
Lemma pointer_index_from_spec p : forall (pa : list ptr) i,
  0 <= i -> i + Z.of_nat (length pa) < 2 ^ 63 ->
  ((p ∉ pa) /\ pointer_index_from i pa p = -1)
  \/ exists k, pa !! k = Some p /\ (forall j, (j < k)%nat -> pa !! j <> Some p)
               /\ pointer_index_from i pa p = i + Z.of_nat k.
Proof.
  induction pa as [|q pa IH]; intros i Hi Hlen; simpl.
  - left. split; [intros H; inversion H | reflexivity].
  - simpl in Hlen. destruct (decide (q = p)) as [-> | Hne].
    + right. exists 0%nat. repeat split; [intros j Hj; lia |].
      rewrite to_ssize_t_small; lia.
    + destruct (IH (i + 1)) as [[Hnot Hr] | (k & Hk & Hfirst & Hr)]; [lia | lia | |].
      * left. split; [| exact Hr]. apply not_elem_of_cons. auto.
      * right. exists (S k). repeat split; [exact Hk | | rewrite Hr; lia].
        intros [|j] Hj; simpl; [congruence | apply Hfirst; lia].
Qed.

Lemma last_index_from_spec p : forall (l : list ptr) i,
  match last_index_from i l p with
  | None => p ∉ l
  | Some v => exists k, v = i + Z.of_nat k /\ l !! k = Some p
                        /\ forall j, (k < j)%nat -> l !! j <> Some p
  end.
Proof.
  induction l as [|q l IH]; intros i; simpl.
  - intros H. inversion H.
  - specialize (IH (i + 1)). destruct (last_index_from (i + 1) l p) as [v |].
    + destruct IH as (k & -> & Hk & Hlast). exists (S k). repeat split; [lia | exact Hk |].
      intros [|j] Hj; [lia |]. simpl. apply Hlast. lia.
    + destruct (decide (q = p)) as [-> | Hne].
      * exists 0%nat. repeat split; [lia |]. intros [|j] Hj; [lia |]. simpl.
        intros Hj'. apply IH. eapply list_elem_of_lookup_2. exact Hj'.
      * apply not_elem_of_cons. auto.
Qed.

Lemma index_map_lookup p : forall (l : list ptr) i (s : gmap ptr Z),
  0 <= i -> i + Z.of_nat (length l) < 2 ^ 31 ->
  index_map i l s !! p
  = match last_index_from i l p with Some v => Some v | None => s !! p end.
Proof.
  induction l as [|q l IH]; intros i s Hi Hlen; simpl; [reflexivity |].
  simpl in Hlen. rewrite IH by lia.
  destruct (last_index_from (i + 1) l p); [reflexivity |].
  destruct (decide (q = p)) as [-> | Hne].
  - rewrite lookup_insert_eq, to_int_small; [reflexivity | lia].
  - now rewrite lookup_insert_ne.
Qed.

(** X15: pointer_indices writes one value for each pointer of the first array:
    -1 for a pointer that the second array does not hold, else the index of
    its last occurrence there. *)
Theorem pointer_indices_last_occurrence (pa pa2 : list ptr) :
  Z.of_nat (length pa2) < 2 ^ 31 ->
  length (pointer_indices pa pa2) = length pa
  /\ forall k p, pa !! k = Some p ->
       exists v, pointer_indices pa pa2 !! k = Some v
         /\ ((v = -1 /\ p ∉ pa2)
             \/ exists i, v = Z.of_nat i /\ pa2 !! i = Some p
                          /\ forall j, (i < j)%nat -> pa2 !! j <> Some p).
Proof.
  intros Hlen. unfold pointer_indices. split; [apply length_fmap |].
  intros k p Hk. rewrite list_lookup_fmap, Hk. cbn [fmap option_fmap option_map].
  eexists. split; [reflexivity |].
  rewrite index_map_lookup by lia. rewrite lookup_empty.
  pose proof (last_index_from_spec p pa2 0) as Hspec.
  destruct (last_index_from 0 pa2 p) as [v |].
  - right. destruct Hspec as (i & -> & Hi & Hlast). exists i. auto.
  - left. auto.
Qed.

(** An instance: the pointer 7 occurs twice in the second array. *)
Lemma pointer_indices_last_occurrence_witness :
  length (pointer_indices [7%nat; 9%nat] [7%nat; 8%nat; 7%nat])
  = length [7%nat; 9%nat]
  /\ forall k p, [7%nat; 9%nat] !! k = Some p ->
       exists v, pointer_indices [7%nat; 9%nat] [7%nat; 8%nat; 7%nat] !! k = Some v
         /\ ((v = -1 /\ p ∉ [7%nat; 8%nat; 7%nat])
             \/ exists i, v = Z.of_nat i /\ [7%nat; 8%nat; 7%nat] !! i = Some p
                          /\ forall j, (i < j)%nat ->
                               [7%nat; 8%nat; 7%nat] !! j <> Some p).
Proof.
  apply (pointer_indices_last_occurrence [7%nat; 9%nat] [7%nat; 8%nat; 7%nat]).
  vm_compute. reflexivity.
Defined.

(** X16: without duplicates in the second array the two searches agree:
    pointer_indices writes for each pointer what pointer_index returns for
    it.  (With duplicates pointer_index returns the first occurrence and
    pointer_indices the last.) *)
Theorem pointer_indices_agrees_with_pointer_index (pa pa2 : list ptr) :
  NoDup pa2 -> Z.of_nat (length pa2) < 2 ^ 31 ->
  pointer_indices pa pa2 = (fun p => pointer_index pa2 p) <$> pa.
Proof.
  intros Hnd Hlen. unfold pointer_indices. apply list_fmap_ext.
  intros k p _. rewrite index_map_lookup by lia. rewrite lookup_empty.
  pose proof (last_index_from_spec p pa2 0) as Hlast.
  destruct (pointer_index_from_spec p pa2 0) as [[Hnot Hr] | (i & Hi & Hfirst & Hr)];
    [lia | lia | |]; unfold pointer_index; rewrite Hr.
  - destruct (last_index_from 0 pa2 p) as [v |]; [| reflexivity].
    destruct Hlast as (j & _ & Hj & _). exfalso. apply Hnot.
    eapply list_elem_of_lookup_2. exact Hj.
  - destruct (last_index_from 0 pa2 p) as [v |].
    + destruct Hlast as (j & -> & Hj & _).
      now rewrite (NoDup_lookup pa2 i j p Hnd Hi Hj).
    + exfalso. apply Hlast. eapply list_elem_of_lookup_2. exact Hi.
Qed.

(** An instance. *)
Lemma pointer_indices_agrees_with_pointer_index_witness :
  pointer_indices [7%nat; 9%nat] [8%nat; 7%nat]
  = (fun p => pointer_index [8%nat; 7%nat] p) <$> [7%nat; 9%nat].
Proof.
  apply (pointer_indices_agrees_with_pointer_index [7%nat; 9%nat] [8%nat; 7%nat]).
  - repeat constructor; rewrite ?elem_of_cons; intros H;
      repeat (destruct H as [H | H]; [discriminate |]); inversion H.
  - vm_compute. reflexivity.
Defined.

(** X17: masks and intersections: a mask byte is 1 exactly for the pointers the
    second array holds; two arrays intersect exactly when they share a
    pointer, whichever is given first; and pointer_intersects_each answers
    for each array what pointer_intersects answers for it. *)
Theorem pointer_mask_and_intersects (pa pa2 : list ptr) (pas : list (list ptr)) :
  length (pointer_mask pa pa2) = length pa
  /\ (forall k p, pa !! k = Some p ->
        pointer_mask pa pa2 !! k = Some (if decide (p ∈ pa2) then 1 else 0))
  /\ (pointer_intersects pa pa2 = true <-> exists p, p ∈ pa /\ p ∈ pa2)
  /\ pointer_intersects pa pa2 = pointer_intersects pa2 pa
  /\ pointer_intersects_each pas pa2
     = (fun pai => pointer_intersects pai pa2) <$> pas.
Proof.
  assert (Hiff : forall l l2 : list ptr,
            pointer_intersects l l2 = true <-> exists p, p ∈ l /\ p ∈ l2).
  { intros l l2. unfold pointer_intersects. rewrite existsb_exists. split.
    - intros (p & Hp & Hin). exists p. apply bool_decide_eq_true in Hin.
      rewrite elem_of_list_to_set in Hin. split; [now apply list_elem_of_In | exact Hin].
    - intros (p & Hp & Hin). exists p. split; [now apply list_elem_of_In |].
      apply bool_decide_eq_true. now rewrite elem_of_list_to_set. }
  split; [apply length_fmap |]. split; [| split; [apply Hiff | split; [| reflexivity]]].
  - intros k p Hk. unfold pointer_mask. rewrite list_lookup_fmap, Hk. simpl.
    f_equal. destruct (decide (p ∈ list_to_set pa2)) as [H | H];
      rewrite elem_of_list_to_set in H; destruct (decide (p ∈ pa2)); tauto.
  - destruct (pointer_intersects pa pa2) eqn:E1; destruct (pointer_intersects pa2 pa) eqn:E2;
      try reflexivity.
    + apply Hiff in E1 as (p & H1 & H2).
      assert (pointer_intersects pa2 pa = true) by (apply Hiff; eauto). congruence.
    + apply Hiff in E2 as (p & H1 & H2).
      assert (pointer_intersects pa pa2 = true) by (apply Hiff; eauto). congruence.
Qed.

(** ** Session ids of atoms *)

Lemma session_save_setup_from_notin a : forall (l : list ptr) i (m : gmap ptr Z),
  a ∉ l -> session_save_setup_from i l m !! a = m !! a.
Proof.
  induction l as [|x l IH]; intros i m Ha; simpl; [reflexivity |].
  apply not_elem_of_cons in Ha as [Hne Ha]. rewrite IH by exact Ha.
  now rewrite lookup_insert_ne by congruence.
Qed.

Lemma session_save_setup_from_lookup : forall (l : list ptr) i (m : gmap ptr Z) k a,
  NoDup l -> l !! k = Some a ->
  session_save_setup_from i l m !! a = Some (i + Z.of_nat k).
Proof.
  induction l as [|x l IH]; intros i m k a Hnd Hk; [discriminate |].
  apply NoDup_cons in Hnd as [Hx Hnd]. destruct k as [|k]; simpl in *.
  - injection Hk as ->. rewrite session_save_setup_from_notin by exact Hx.
    rewrite lookup_insert_eq. f_equal. lia.
  - rewrite (IH (i + 1) _ k a Hnd Hk). f_equal. lia.
Qed.

(** X18: ids and atoms after session_save_setup, for an atom vector without
    repeats: the id of an atom of the structure leads back to that atom, and
    the atom at an index has that index as its id.  An atom that is not in
    the structure is not refused: it gets the id 0, the id of the first
    atom. *)
Theorem session_atom_ids_round_trip (m : SessionIds) :
  NoDup (atoms m) ->
  let m' := session_save_setup m in
  (forall a, a ∈ atoms m ->
     exists i, structure_session_atom_to_id m' a = Some i
               /\ structure_session_id_to_atom m' i = Some a)
  /\ (forall i a, structure_session_id_to_atom m' i = Some a ->
        structure_session_atom_to_id m' a = Some i)
  /\ (forall a, a ∉ atoms m -> structure_session_atom_to_id m' a = Some 0).
Proof.
  intros Hnd m'.
  assert (Hid : forall k a, atoms m !! k = Some a ->
            structure_session_atom_to_id m' a = Some (Z.of_nat k)).
  { intros k a Hk. unfold structure_session_atom_to_id, m', session_save_setup.
    cbn. now rewrite (session_save_setup_from_lookup _ 0 ∅ k a Hnd Hk). }
  split; [| split].
  - intros a Ha. apply list_elem_of_lookup in Ha as [k Hk].
    exists (Z.of_nat k). split; [now apply Hid |].
    unfold structure_session_id_to_atom. cbn [atoms m' session_save_setup].
    destruct (Z.leb_spec 0 (Z.of_nat k)); [| lia]. now rewrite Nat2Z.id.
  - intros i a. unfold structure_session_id_to_atom. cbn [atoms m' session_save_setup].
    destruct (Z.leb_spec 0 i) as [Hi | Hi]; [| discriminate].
    intros Hk. rewrite (Hid _ _ Hk). f_equal. lia.
  - intros a Ha. unfold structure_session_atom_to_id, m', session_save_setup. cbn.
    rewrite session_save_setup_from_notin by exact Ha. now rewrite lookup_empty.
Qed.

(** An instance: the atoms at addresses 10, 11 and 12. *)
Lemma session_atom_ids_round_trip_witness :
  let m := {| atoms := [10%nat; 11%nat; 12%nat]; session_save_atoms := None |} in
  let m' := session_save_setup m in
  (forall a, a ∈ atoms m ->
     exists i, structure_session_atom_to_id m' a = Some i
               /\ structure_session_id_to_atom m' i = Some a)
  /\ (forall i a, structure_session_id_to_atom m' i = Some a ->
        structure_session_atom_to_id m' a = Some i)
  /\ (forall a, a ∉ atoms m -> structure_session_atom_to_id m' a = Some 0).
Proof.
  apply (session_atom_ids_round_trip
           {| atoms := [10%nat; 11%nat; 12%nat]; session_save_atoms := None |}).
  simpl. repeat constructor; rewrite ?elem_of_cons; intros H;
    repeat (destruct H as [H | H]; [discriminate |]); inversion H.
Defined.

(** ** Chains *)

(** X19: the count of existing residues of a chain is at most the number of its
    slots, and it is zero exactly when Chain::no_structure_left holds. *)
Theorem chain_num_existing_residues_spec (residues : list ptr) :
  (chain_num_existing_residues residues <= length residues)%nat
  /\ chain_num_existing_residues residues
     = length (filter (fun r => r ≠ nullptr) residues)
  /\ (chain_num_existing_residues residues = 0%nat
      <-> no_structure_left residues = true).
Proof.
  assert (Hcount : forall (l : list ptr) n,
            foldl (fun num_sr r => if decide (r ≠ nullptr) then S num_sr else num_sr)
                  n l
            = (n + length (filter (fun r => r ≠ nullptr) l))%nat).
  { induction l as [|r l IH]; intros n; simpl; [lia |].
    rewrite IH, filter_cons. destruct (decide (r ≠ nullptr)); simpl; lia. }
  unfold chain_num_existing_residues. rewrite Hcount. simpl.
  split; [apply length_filter |]. split; [reflexivity |].
  induction residues as [|r l IH]; simpl; [tauto |].
  rewrite filter_cons. destruct (decide (r ≠ nullptr)); simpl; [| exact IH].
  split; [lia | discriminate].
Qed.

(** ** atom_structure_category *)

Section StructureCategories.
Import AtomH.
Variable std_solvent_names : list string.
Variable is_noble_gas : nat -> bool.
Variable fuel : nat.
Variable pbg_of : ptr -> option (list (ptr * ptr)).

Local Abbreviation structure_category :=
  (Molc.structure_category std_solvent_names is_noble_gas fuel pbg_of).
Local Abbreviation category_names :=
  (Molc.category_names std_solvent_names is_noble_gas fuel pbg_of).
Local Abbreviation atom_structure_category :=
  (Molc.atom_structure_category std_solvent_names is_noble_gas fuel pbg_of).
Local Abbreviation atom_of_its_structure :=
  (Molc.atom_of_its_structure fuel pbg_of).

(** One read: the category is not Unassigned, and afterwards the atoms of
    every structure that is not dirty still have a category. *)
Lemma structure_category_step (w : Graph.World) (a : ptr) (st : Categories) :
  computed w st -> atom_of_its_structure w a ->
  exists c st',
    structure_category w a st = Some (c, st')
    /\ c <> Unassigned /\ computed w st'.
Proof.
  intros Hcomp (atom & s & Hatom & Hs & Ha & Hfuel).
  unfold Molc.structure_category. rewrite Hatom. cbn. rewrite Hs. cbn.
  unfold StructureCategory.structure_category.
  cbn [StructureCategory._structure_cats_dirty StructureCategory.categories].
  destruct (decide (_structure atom ∈ dirty st)) as [Hd | Hd].
  - rewrite bool_decide_eq_true_2 by exact Hd.
    unfold StructureCategory._compute_structure_cats.
    cbn [StructureCategory.categories].
    destruct (StructureCategoryFacts.compute_structure_cats_total std_solvent_names
                is_noble_gas fuel w s (pbg_of (_structure atom)) (categories st) Hfuel)
      as (cats & Hrun & Hall).
    rewrite Hrun. cbn [StructureCategory.categories].
    destruct (Hall a Ha) as (c & Hc & Hne). rewrite Hc. cbn.
    exists c. eexists. split; [reflexivity |]. split; [exact Hne |].
    intros sp s' b Hs' Hnd Hb. cbn [dirty categories] in *.
    destruct (decide (sp = _structure atom)) as [-> | Hsp].
    + rewrite Hs in Hs'. injection Hs' as <-. now apply Hall.
    + eapply StructureCategoryFacts.compute_structure_cats_keeps; [exact Hrun |].
      apply (Hcomp sp s' b Hs'); [| exact Hb].
      intros Hin. apply Hnd. apply elem_of_difference. split; [exact Hin |].
      now rewrite elem_of_singleton.
  - rewrite bool_decide_eq_false_2 by exact Hd.
    destruct (Hcomp _ s a Hs Hd Ha) as (c & Hc & Hne). rewrite Hc. cbn.
    exists c. eexists. split; [reflexivity |]. split; [exact Hne |].
    intros sp s' b Hs' Hnd Hb. cbn [dirty categories] in *.
    apply (Hcomp sp s' b Hs'); [| exact Hb].
    intros Hin. apply Hnd. apply elem_of_difference. split; [exact Hin |].
    rewrite elem_of_singleton. intros ->. contradiction.
Qed.

Lemma category_names_total (w : Graph.World) : forall (a : list ptr) st names,
  computed w st -> Forall (atom_of_its_structure w) a ->
  exists more st',
    category_names w a st names = Some (names ++ more, st', None)
    /\ length more = length a
    /\ Forall (fun n => n ∈ ["main"; "solvent"; "ligand"; "ions"]%string) more
    /\ computed w st'.
Proof.
  induction a as [|ai a IH]; intros st names Hcomp Hall.
  - exists [], st. rewrite app_nil_r. repeat split; auto.
  - inversion Hall as [|? ? Hai Hrest]; subst.
    destruct (structure_category_step w ai st Hcomp Hai) as (c & st1 & Hrun & Hne & Hcomp1).
    cbn [Molc.category_names]. rewrite Hrun. cbn.
    destruct c; [contradiction | | | |];
      match goal with
      | |- context [names ++ [?n]] =>
          destruct (IH st1 (names ++ [n]) Hcomp1 Hrest)
            as (more & st' & Hrun' & Hlen & Hnames & Hcomp');
          exists (n :: more), st'; rewrite Hrun', <- app_assoc;
          repeat split; auto; [simpl; now rewrite Hlen |];
          constructor; [| exact Hnames]; rewrite !elem_of_cons; auto
      end.
Qed.

(** X20: for atoms that are listed in their structures, atom_structure_category
    never raises: it writes one of the names "main", "solvent", "ligand" and
    "ions" for each atom, computing the categories of a structure at its
    first atom when they are dirty, and leaves the Python error indicator as
    it found it. *)
Theorem atom_structure_category_names (w : Graph.World) (a : list ptr)
    (st : Categories) (PyErr_Occurred : PyErr) :
  computed w st -> Forall (atom_of_its_structure w) a ->
  exists names st',
    atom_structure_category w a st PyErr_Occurred
    = Some (names, st', PyErr_Occurred)
    /\ length names = length a
    /\ Forall (fun n => n ∈ ["main"; "solvent"; "ligand"; "ions"]%string) names.
Proof.
  intros Hcomp Hall.
  destruct (category_names_total w a st [] Hcomp Hall)
    as (names & st' & Hrun & Hlen & Hnames & _).
  exists names, st'. unfold Molc.atom_structure_category. rewrite Hrun. cbn.
  auto.
Qed.

End StructureCategories.

(** An instance: atoms 10 and 12 of [example_categories_world], whose
    categories are dirty. *)
Lemma atom_structure_category_names_witness :
  exists names st',
    Molc.atom_structure_category StructCats.usual_solvent_names
      StructCats.usual_noble_gas 100 (fun _ => None) example_categories_world
      [10%nat; 12%nat] {| dirty := {[ 1%nat ]}; categories := ∅ |} None
    = Some (names, st', None)
    /\ length names = length [10%nat; 12%nat]
    /\ Forall (fun n => n ∈ ["main"; "solvent"; "ligand"; "ions"]%string) names.
Proof.
  apply (atom_structure_category_names StructCats.usual_solvent_names
           StructCats.usual_noble_gas 100 (fun _ => None) example_categories_world
           [10%nat; 12%nat] {| dirty := {[ 1%nat ]}; categories := ∅ |} None).
  - intros sp s b Hs Hd. exfalso. apply Hd. cbn [dirty].
    change (Graph.structures example_categories_world)
      with ({[ 1%nat := StructCats.example_structure [10; 11; 12; 13; 14]%nat
                          [21; 22]%nat ]} : gmap ptr Graph.AtomicStructure) in Hs.
    apply lookup_singleton_Some in Hs as [<- _]. now apply elem_of_singleton.
  - repeat constructor.
    + eexists _, _. split; [reflexivity |]. split; [reflexivity |].
      split; [| vm_compute; lia]. cbn. rewrite !elem_of_cons. auto.
    + eexists _, _. split; [reflexivity |]. split; [reflexivity |].
      split; [| vm_compute; lia]. cbn. rewrite !elem_of_cons. auto 10.
Defined.

End MolcFacts.

(* ===================================================================== *)
(** * Atom.h: when a change of IDATM type is recorded                     *)
(* ===================================================================== *)

Module IdatmTypeFacts.
Import IdatmType.

Lemma app_one_neq {A} (l : list A) (x : A) : l ++ [x] <> l.
Proof.
  intros H. apply (f_equal length) in H. rewrite length_app in H. simpl in H. lia.
Qed.

Lemma empty_spec (s : string) : empty s = true <-> s = EmptyString.
Proof. destruct s; simpl; split; congruence. Qed.

(** X21: set_computed_idatm_type records a modification exactly when the type
    that idatm_type reports changes: never for an atom with an explicit
    type, and not when the computed type is set to the text it has. *)
Theorem set_computed_idatm_type_records_changes (it : string) (a : Atom) :
  let a' := set_computed_idatm_type it a in
  _explicit_idatm_type a' = _explicit_idatm_type a
  /\ (idatm_type a' = idatm_type a ->
      add_modified_calls a' = add_modified_calls a)
  /\ (idatm_type a' <> idatm_type a ->
      add_modified_calls a' = add_modified_calls a ++ [REASON_IDATM_TYPE]).
Proof.
  destruct a as [computed explicit calls].
  unfold set_computed_idatm_type, idatm_type, idatm_is_explicit. cbn.
  split; [reflexivity |].
  destruct (empty explicit); cbn.
  - destruct (String.eqb_spec computed it) as [-> | Hne]; cbn;
      split; congruence.
  - split; congruence.
Qed.

(** X22: set_idatm_type records a modification whenever the type that idatm_type
    reports changes, and in one case more: clearing the explicit type of an
    atom that has none, but has a computed type, is recorded although the
    reported type stays the same.  In every other call that keeps the
    reported type nothing is recorded. *)
Theorem set_idatm_type_records_changes (it : string) (a : Atom) :
  let a' := set_idatm_type it a in
  let needless :=
    it = EmptyString /\ _explicit_idatm_type a = EmptyString
    /\ _computed_idatm_type a <> EmptyString in
  _computed_idatm_type a' = _computed_idatm_type a
  /\ (idatm_type a' <> idatm_type a \/ needless ->
      add_modified_calls a' = add_modified_calls a ++ [REASON_IDATM_TYPE])
  /\ (idatm_type a' = idatm_type a /\ ~ needless ->
      add_modified_calls a' = add_modified_calls a).
Proof.
  destruct a as [computed explicit calls].
  unfold set_idatm_type, idatm_type, idatm_is_explicit.
  cbn [_computed_idatm_type _explicit_idatm_type add_modified_calls].
  split; [reflexivity |].
  destruct (String.eqb_spec computed it) as [E1 | E1];
    destruct (String.eqb_spec explicit computed) as [E2 | E2];
    destruct (String.eqb_spec it explicit) as [E3 | E3];
    destruct explicit as [| e explicit]; destruct it as [| c it];
    cbn [empty negb andb]; subst; try congruence;
    (split;
     [ first [ reflexivity
             | intros [H | (H1 & H2 & H3)]; congruence ]
     | first [ reflexivity
             | intros [H1 H2]; first [ congruence | exfalso; apply H2; repeat split; congruence ] ] ]).
Qed.

End IdatmTypeFacts.

(* ===================================================================== *)
(** * Pseudobond groups: forgetting a coordinate set                      *)
(* ===================================================================== *)

Module ProxyCoordSetsFacts.
Import PBGroup Proxy_PBGroup ProxyCoordSets.

(** X23: remove_cs on a per-coordinate-set group (tag GRP_PER_CS) forgets the
    pseudobonds of that coordinate set and of no other: a query for the
    removed coordinate set then returns the empty set, a query for another
    one returns what it returned before.  On a group with any other tag
    remove_cs changes nothing. *)
Theorem remove_cs_forgets_one_coord_set (cs : ptr) (p : Proxy_PBGroup.t) :
  consistent p ->
  exists p',
    remove_cs cs p = Value p'
    /\ consistent p'
    /\ (_group_type p = AS_PBManager.GRP_PER_CS ->
        answer (pseudobonds_cs cs p') = Some ∅
        /\ forall cs', cs' <> cs ->
             answer (pseudobonds_cs cs' p') = answer (pseudobonds_cs cs' p))
    /\ (_group_type p <> AS_PBManager.GRP_PER_CS -> p' = p).
Proof.
  intros Hcons. unfold remove_cs.
  destruct (Z.eqb_spec (_group_type p) AS_PBManager.GRP_PER_CS) as [Htag | Htag].
  - destruct p as [tag [gs | g]]; cbn in *.
    + unfold consistent in Hcons. cbn in Hcons. subst tag. discriminate Htag.
    + eexists. split; [reflexivity |]. split; [exact Hcons |].
      split; [| intros H; contradiction].
      intros _. subst tag. unfold pseudobonds_cs, as_CS_PBGroup. cbn.
      unfold CS_PBGroup.pseudobonds_cs, CS_PBGroup.remove_cs. cbn.
      split.
      * rewrite lookup_delete_eq. reflexivity.
      * intros cs' Hne. rewrite lookup_delete_ne by congruence.
        destruct (CS_PBGroup._pbonds g !! cs'); reflexivity.
  - exists p. split; [reflexivity |]. split; [exact Hcons |].
    split; [intros H; contradiction | reflexivity].
Qed.

(** An instance: a per-coordinate-set group with a pseudobond in
    coordinate set 10. *)
Lemma remove_cs_forgets_one_coord_set_witness :
  let p := set_proxied (init AS_PBManager.GRP_PER_CS "hydrogen bonds" 1 1)
             (IsCS_PBGroup
                (CS_PBGroup.with_pbonds (CS_PBGroup.ctor "hydrogen bonds" 1 1)
                   {[ 10%nat := {[ 5%nat ]} ]})) in
  exists p',
    remove_cs 10 p = Value p'
    /\ consistent p'
    /\ (_group_type p = AS_PBManager.GRP_PER_CS ->
        answer (pseudobonds_cs 10 p') = Some ∅
        /\ forall cs', cs' <> 10%nat ->
             answer (pseudobonds_cs cs' p') = answer (pseudobonds_cs cs' p))
    /\ (_group_type p <> AS_PBManager.GRP_PER_CS -> p' = p).
Proof.
  intros p. apply (remove_cs_forgets_one_coord_set 10%nat p).
  unfold consistent. cbn. discriminate.
Defined.

End ProxyCoordSetsFacts.

(* ===================================================================== *)
(** * Rings: the ring lists of atoms and bonds                            *)
(* ===================================================================== *)

Module RingFacts.
Import Rings.

Lemma clear_all_spec : forall (l : list ptr) (m m' : gmap ptr (list ptr)),
  clear_all l m = Some m' ->
  (forall a, a ∈ l -> m' !! a = Some [])
  /\ (forall a, a ∉ l -> m' !! a = m !! a)
  /\ (forall a, is_Some (m !! a) -> is_Some (m' !! a)).
Proof.
  induction l as [|x l IH]; intros m m' Hrun; simpl in Hrun.
  - injection Hrun as <-. repeat split; auto. intros a Ha. inversion Ha.
  - destruct (m !! x) as [old |] eqn:Hx; [| discriminate].
    destruct (IH _ _ Hrun) as (Hin & Hout & Hlive). repeat split.
    + intros a Ha. destruct (decide (a ∈ l)) as [Hl | Hl]; [now apply Hin |].
      apply elem_of_cons in Ha as [-> | Ha]; [| contradiction].
      rewrite (Hout _ Hl). apply lookup_insert_eq.
    + intros a Ha. apply not_elem_of_cons in Ha as [Hne Ha].
      rewrite (Hout _ Ha). now apply lookup_insert_ne.
    + intros a Ha. apply Hlive. destruct (decide (x = a)) as [-> | Hne].
      * rewrite lookup_insert_eq. eauto.
      * now rewrite lookup_insert_ne.
Qed.

Lemma clear_all_total : forall (l : list ptr) (m : gmap ptr (list ptr)),
  (forall a, a ∈ l -> is_Some (m !! a)) ->
  exists m', clear_all l m = Some m'.
Proof.
  induction l as [|x l IH]; intros m Hlive; simpl; [eauto |].
  destruct (Hlive x) as [old Hx]; [left |]. rewrite Hx. apply IH.
  intros a Ha. destruct (decide (x = a)) as [-> | Hne].
  - rewrite lookup_insert_eq. eauto.
  - rewrite lookup_insert_ne by exact Hne. apply Hlive. now right.
Qed.

Lemma push_all_spec r : forall (l : list ptr) (m m' : gmap ptr (list ptr)),
  push_all r l m = Some m' ->
  forall x old, m !! x = Some old ->
    exists new, m' !! x = Some new
      /\ forall q, q ∈ new <-> q ∈ old \/ (q = r /\ x ∈ l).
Proof.
  induction l as [|a l IH]; intros m m' Hrun x old Hx; simpl in Hrun.
  - injection Hrun as <-. exists old. split; [exact Hx |]. intros q. split; [auto |].
    intros [H | [_ H]]; [exact H | inversion H].
  - destruct (m !! a) as [rs |] eqn:Ha; [| discriminate].
    destruct (decide (a = x)) as [-> | Hne].
    + rewrite Hx in Ha. injection Ha as <-.
      destruct (IH _ _ Hrun x (old ++ [r])) as (new & Hnew & Hiff);
        [apply lookup_insert_eq |].
      exists new. split; [exact Hnew |]. intros q. rewrite Hiff, elem_of_app,
        list_elem_of_singleton, elem_of_cons. tauto.
    + destruct (IH _ _ Hrun x old) as (new & Hnew & Hiff);
        [now rewrite lookup_insert_ne |].
      exists new. split; [exact Hnew |]. intros q. rewrite Hiff, elem_of_cons.
      split; [tauto |]. intros [H | [H1 [H2 | H2]]]; auto. congruence.
Qed.

Lemma push_all_total r : forall (l : list ptr) (m : gmap ptr (list ptr)),
  (forall a, a ∈ l -> is_Some (m !! a)) ->
  exists m', push_all r l m = Some m'.
Proof.
  induction l as [|x l IH]; intros m Hlive; simpl; [eauto |].
  destruct (Hlive x) as [old Hx]; [left |]. rewrite Hx. apply IH.
  intros a Ha. destruct (decide (x = a)) as [-> | Hne].
  - rewrite lookup_insert_eq. eauto.
  - rewrite lookup_insert_ne by exact Hne. apply Hlive. now right.
Qed.

Lemma push_all_live r l (m m' : gmap ptr (list ptr)) a :
  push_all r l m = Some m' -> is_Some (m !! a) -> is_Some (m' !! a).
Proof.
  intros Hrun [old Hx].
  destruct (push_all_spec r l m m' Hrun a old Hx) as (new & Hnew & _). eauto.
Qed.

Lemma note_rings_spec : forall (rs : list Ring) (am bm am' bm' : gmap ptr (list ptr)),
  note_rings rs am bm = Some (am', bm') ->
  (forall x old, am !! x = Some old ->
     exists new, am' !! x = Some new
       /\ forall q, q ∈ new <->
            q ∈ old \/ exists r, r ∈ rs /\ address r = q /\ x ∈ atoms r)
  /\ (forall x old, bm !! x = Some old ->
     exists new, bm' !! x = Some new
       /\ forall q, q ∈ new <->
            q ∈ old \/ exists r, r ∈ rs /\ address r = q /\ x ∈ bonds r).
Proof.
  induction rs as [|r rs IH]; intros am bm am' bm' Hrun; simpl in Hrun.
  - injection Hrun as <- <-. split; intros x old Hx; exists old;
      (split; [exact Hx |]); intros q; (split; [auto |]);
      (intros [H | (r & Hr & _)]; [exact H | inversion Hr]).
  - destruct (push_all (address r) (atoms r) am) as [am1 |] eqn:Ha; [| discriminate].
    destruct (push_all (address r) (bonds r) bm) as [bm1 |] eqn:Hb; [| discriminate].
    cbn in Hrun. destruct (IH _ _ _ _ Hrun) as [IHa IHb]. split.
    + intros x old Hx.
      destruct (push_all_spec _ _ _ _ Ha x old Hx) as (mid & Hmid & Hiff1).
      destruct (IHa x mid Hmid) as (new & Hnew & Hiff2).
      exists new. split; [exact Hnew |]. intros q. rewrite Hiff2, Hiff1. split.
      * intros [[H | [-> H]] | (r' & Hr' & Hq & Hin)]; auto.
        -- right. exists r. split; [left | auto].
        -- right. exists r'. split; [now right | auto].
      * intros [H | (r' & Hr' & Hq & Hin)]; auto.
        apply elem_of_cons in Hr' as [-> | Hr']; [left; right; auto |].
        right. exists r'. auto.
    + intros x old Hx.
      destruct (push_all_spec _ _ _ _ Hb x old Hx) as (mid & Hmid & Hiff1).
      destruct (IHb x mid Hmid) as (new & Hnew & Hiff2).
      exists new. split; [exact Hnew |]. intros q. rewrite Hiff2, Hiff1. split.
      * intros [[H | [-> H]] | (r' & Hr' & Hq & Hin)]; auto.
        -- right. exists r. split; [left | auto].
        -- right. exists r'. split; [now right | auto].
      * intros [H | (r' & Hr' & Hq & Hin)]; auto.
        apply elem_of_cons in Hr' as [-> | Hr']; [left; right; auto |].
        right. exists r'. auto.
Qed.

Lemma note_rings_total : forall (rs : list Ring) (am bm : gmap ptr (list ptr)),
  (forall r a, r ∈ rs -> a ∈ atoms r -> is_Some (am !! a)) ->
  (forall r b, r ∈ rs -> b ∈ bonds r -> is_Some (bm !! b)) ->
  exists am' bm', note_rings rs am bm = Some (am', bm').
Proof.
  induction rs as [|r rs IH]; intros am bm Ha Hb; simpl; [eauto |].
  destruct (push_all_total (address r) (atoms r) am) as [am1 H1];
    [intros a; apply Ha; left |].
  destruct (push_all_total (address r) (bonds r) bm) as [bm1 H2];
    [intros b; apply Hb; left |].
  rewrite H1, H2. cbn. apply IH.
  - intros r' a Hr' Hin. eapply push_all_live; [exact H1 |].
    eapply Ha; [right; exact Hr' | exact Hin].
  - intros r' b Hr' Hin. eapply push_all_live; [exact H2 |].
    eapply Hb; [right; exact Hr' | exact Hin].
Qed.

Section Rings.
Variable _calculate_rings : bool -> Z -> ptr -> list Ring -> list Ring.
Variable structure_atoms structure_bonds : list ptr.

Local Abbreviation rings :=
  (Rings.rings _calculate_rings structure_atoms structure_bonds).

(** X24: when the rings have to be computed, and the atoms and bonds of the
    structure are live and the computed rings run through them, [rings]
    returns the computed rings and leaves every atom and every bond of the
    structure with a ring list that names exactly the rings that hold it,
    whatever the list held before.  A second call with the same arguments
    returns the same rings and computes nothing. *)
Theorem rings_lists_name_the_rings (cross_residues : bool)
    (all_size_threshold : Z) (ignore : ptr) (st : State) :
  _rings_cached cross_residues all_size_threshold ignore st = false ->
  (forall a, a ∈ structure_atoms -> is_Some (atom_rings st !! a)) ->
  (forall b, b ∈ structure_bonds -> is_Some (bond_rings st !! b)) ->
  (forall r, r ∈ _calculate_rings cross_residues all_size_threshold ignore
                   (_rings st) ->
     atoms r ⊆ structure_atoms /\ bonds r ⊆ structure_bonds) ->
  exists st',
    rings cross_residues all_size_threshold ignore st = Some (_rings st', st')
    /\ _rings st' = _calculate_rings cross_residues all_size_threshold ignore
                      (_rings st)
    /\ (forall a, a ∈ structure_atoms ->
          exists l, atom_rings st' !! a = Some l
                    /\ names_the_rings_of atoms (_rings st') a l)
    /\ (forall b, b ∈ structure_bonds ->
          exists l, bond_rings st' !! b = Some l
                    /\ names_the_rings_of bonds (_rings st') b l)
    /\ rings cross_residues all_size_threshold ignore st' = Some (_rings st', st').
Proof.
  intros Hcached Hatoms Hbonds Hrings.
  set (calculated := _calculate_rings cross_residues all_size_threshold ignore
                       (_rings st)) in *.
  destruct (clear_all_total structure_atoms (atom_rings st) Hatoms) as [am Ham].
  destruct (clear_all_total structure_bonds (bond_rings st) Hbonds) as [bm Hbm].
  destruct (clear_all_spec _ _ _ Ham) as (Hacl & _ & Halive).
  destruct (clear_all_spec _ _ _ Hbm) as (Hbcl & _ & Hblive).
  destruct (note_rings_total calculated am bm) as (am' & bm' & Hnote).
  { intros r a Hr Ha. rewrite Hacl; [eauto |]. now apply (Hrings r Hr). }
  { intros r b Hr Hb. rewrite Hbcl; [eauto |]. now apply (Hrings r Hr). }
  destruct (note_rings_spec _ _ _ _ _ Hnote) as [Hspeca Hspecb].
  exists {| _recompute_rings := false;
            _rings_last_cross_residues := cross_residues;
            _rings_last_all_size_threshold := all_size_threshold;
            _rings_last_ignore := ignore;
            _rings := calculated;
            atom_rings := am';
            bond_rings := bm';
            calculations := S (calculations st) |}.
  cbn [_rings atom_rings bond_rings].
  split.
  { unfold Rings.rings. rewrite Hcached. fold calculated.
    rewrite Ham. cbn [mbind option_bind]. rewrite Hbm. cbn [mbind option_bind].
    rewrite Hnote. reflexivity. }
  split; [reflexivity |].
  split; [| split].
  - intros a Ha. destruct (Hspeca a [] (Hacl a Ha)) as (l & Hl & Hiff).
    exists l. split; [exact Hl |]. intros q. rewrite Hiff. split.
    + intros [H | H]; [inversion H | exact H].
    + auto.
  - intros b Hb. destruct (Hspecb b [] (Hbcl b Hb)) as (l & Hl & Hiff).
    exists l. split; [exact Hl |]. intros q. rewrite Hiff. split.
    + intros [H | H]; [inversion H | exact H].
    + auto.
  - unfold Rings.rings, _rings_cached.
    cbn [_recompute_rings _rings_last_cross_residues
         _rings_last_all_size_threshold _rings_last_ignore negb andb].
    rewrite Bool.eqb_reflx, Z.eqb_refl.
    rewrite bool_decide_eq_true_2 by reflexivity. reflexivity.
Qed.

End Rings.

(** An instance: the run on [example_state], where the ring search finds
    [example_ring]. *)
Lemma rings_lists_name_the_rings_witness :
  exists st',
    Rings.rings (fun _ _ _ _ => [example_ring]) [10; 11; 12; 13]%nat
      [20; 21; 22; 23]%nat false 0 nullptr example_state
    = Some (_rings st', st')
    /\ _rings st' = [example_ring]
    /\ (forall a, a ∈ [10; 11; 12; 13]%nat ->
          exists l, atom_rings st' !! a = Some l
                    /\ names_the_rings_of atoms (_rings st') a l)
    /\ (forall b, b ∈ [20; 21; 22; 23]%nat ->
          exists l, bond_rings st' !! b = Some l
                    /\ names_the_rings_of bonds (_rings st') b l)
    /\ Rings.rings (fun _ _ _ _ => [example_ring]) [10; 11; 12; 13]%nat
         [20; 21; 22; 23]%nat false 0 nullptr st'
       = Some (_rings st', st').
Proof.
  apply (rings_lists_name_the_rings (fun _ _ _ _ => [example_ring])
           [10; 11; 12; 13]%nat [20; 21; 22; 23]%nat false 0 nullptr
           example_state).
  - reflexivity.
  - intros a Ha. cbn. rewrite !elem_of_cons in Ha.
    destruct Ha as [-> | [-> | [-> | [-> | Ha]]]]; [eauto .. | inversion Ha].
  - intros b Hb. cbn. rewrite !elem_of_cons in Hb.
    destruct Hb as [-> | [-> | [-> | [-> | Hb]]]]; [eauto .. | inversion Hb].
  - intros r Hr. apply list_elem_of_singleton in Hr as ->. cbn.
    split; intros x Hx; rewrite !elem_of_cons in *; tauto.
Defined.

End RingFacts.

(* ===================================================================== *)
(** * Deletion: what delete_atoms compares                                *)
(* ===================================================================== *)

Module DeletionFacts.
Import AtomH Graph.

(** X25: delete_atoms does not look whether the atoms it is given belong to the
    structure: whenever the number of distinct atoms given equals the number
    of atoms of the structure, the structure is deleted with all it owns,
    also when the atoms given are atoms of another structure. *)
Theorem delete_atoms_compares_counts (w : World) (this : ptr)
    (s : AtomicStructure) (del_atoms : list ptr) :
  structures w !! this = Some s ->
  size (list_to_set del_atoms : gset ptr) = length (_atoms s) ->
  exists w', delete_atoms this del_atoms w = Value w' /\ destroyed this s w'.
Proof.
  intros Hs Hsize. unfold delete_atoms, deref. rewrite Hs. cbn.
  destruct (decide (size (list_to_set del_atoms : gset ptr) = length (_atoms s)))
    as [_ | Hne]; [| contradiction].
  now apply GraphFacts.delete_this_destroyed.
Qed.

(** An instance: in [example_world] structure 1 owns the one atom 10;
    deleting atom 11, an atom of structure 2, from structure 1 deletes
    structure 1. *)
Lemma delete_atoms_compares_counts_witness :
  exists w',
    delete_atoms 1 [11%nat] example_world = Value w'
    /\ destroyed 1 (example_structure [10%nat] 20%nat) w'.
Proof.
  apply (delete_atoms_compares_counts example_world 1
           (example_structure [10%nat] 20%nat) [11%nat]).
  - reflexivity.
  - vm_compute. reflexivity.
Defined.

End DeletionFacts.
